(** * Movie graph loader and query interface

    A shallow embedding of [movie_graph_loader.py] and
    [movie_query_interface.py]: the record cleaning and genre
    normalisation of [_process_movie_batch], the Cypher upsert it
    issues, the batch loop of [load_movies] with its single retry and its
    connection check, [_ensure_connection], and on the query side
    [_initialize_connections] and [get_movie_insights].

    The file is laid out as the program is: Python values and the few
    library functions the loader calls ([str] methods, [json.loads],
    [pd.isna]), the graph store and the upsert statement, the effects
    (driver calls, sleeps, log lines) as a state and exception monad over
    an explicit world, then the two classes.  Theorems follow the
    definitions. *)

From Stdlib Require Import ZArith QArith Lia Ascii String DecimalString.
From stdpp Require Import base list gmap strings.
Close Scope Q_scope.
Set Warnings "-register-all,-abstract-large-number".

(** ** Python values *)

Module Py.

(** A Python [str] is a sequence of Unicode code points. *)
Abbreviation pystr := (list N).

(** The code points of an ASCII literal. *)
Fixpoint py (s : string) : pystr :=
  match s with
  | EmptyString => []
  | String a s' => N_of_ascii a :: py s'
  end.
Arguments py : simpl never.

Definition apostrophe : N := 39.
Definition quotation_mark : N := 34.
Definition comma : N := 44.

(** A [float].  The loader never computes with floats: it tests them for
    NaN and for zero and hands them on, so a finite float is carried as
    the rational it denotes. *)
Inductive pyfloat :=
| FNaN
| FInf (neg : bool)
| FFin (q : Q).

Inductive pyval :=
| PNone
| PBool (b : bool)
| PInt (z : Z)
| PFloat (f : pyfloat)
| PStr (s : pystr)
| PList (l : list pyval)
| PDict (d : list (pystr * pyval)).

(** A [dict] keeps its keys in insertion order. *)
Abbreviation pydict := (list (pystr * pyval)).

Fixpoint dict_get (k : pystr) (d : pydict) : option pyval :=
  match d with
  | [] => None
  | (k', v) :: d' => if decide (k' = k) then Some v else dict_get k d'
  end.

(** [d[k] = v]: overwrite in place, or append a new key. *)
Fixpoint dict_set (k : pystr) (v : pyval) (d : pydict) : pydict :=
  match d with
  | [] => [(k, v)]
  | (k', v') :: d' =>
      if decide (k' = k) then (k', v) :: d' else (k', v') :: dict_set k v d'
  end.

Definition dict_has (k : pystr) (d : pydict) : bool :=
  match dict_get k d with Some _ => true | None => false end.

(** Exceptions: the class, and the text [str(e)] gives. *)
Inductive exn_class :=
| ValueError
| JSONDecodeError
| TypeError
| FileNotFoundError
| OSError
| ServiceUnavailable
| ClientError
| RuntimeError
| RecursionError.

Record exn := Exn { exn_type : exn_class; exn_str : pystr }.

(** [JSONDecodeError] derives from [ValueError]; every class here derives
    from [Exception]. *)
Definition is_JSONDecodeError (e : exn) : bool :=
  match exn_type e with JSONDecodeError => true | _ => false end.

Inductive result (A : Type) :=
| Ok (a : A)
| Raise (e : exn).
Arguments Ok {A} a.
Arguments Raise {A} e.

#[export] Instance result_ret : MRet result := λ A a, Ok a.
#[export] Instance result_bind : MBind result := λ A B f m,
  match m with
  | Ok a => f a
  | Raise e => Raise e
  end.

(** Truth value testing. *)
Definition float_truthy (f : pyfloat) : bool :=
  match f with
  | FFin q => negb (Qeq_bool q 0)
  | _ => true
  end.

Definition truthy (v : pyval) : bool :=
  match v with
  | PNone => false
  | PBool b => b
  | PInt z => negb (z =? 0)%Z
  | PFloat f => float_truthy f
  | PStr s => negb (bool_decide (s = []))
  | PList l => negb (bool_decide (length l = 0))
  | PDict d => negb (bool_decide (length d = 0))
  end.

Definition type_name (v : pyval) : pystr :=
  match v with
  | PNone => py "NoneType"
  | PBool _ => py "bool"
  | PInt _ => py "int"
  | PFloat _ => py "float"
  | PStr _ => py "str"
  | PList _ => py "list"
  | PDict _ => py "dict"
  end.

(** [iter(v)]: a list gives its elements, a str its characters, a dict
    its keys; anything else raises [TypeError]. *)
Definition py_iter (v : pyval) : result (list pyval) :=
  match v with
  | PList l => Ok l
  | PStr s => Ok (map (λ c, PStr [c]) s)
  | PDict d => Ok (map (λ kv, PStr (fst kv)) d)
  | _ => Raise (Exn TypeError
             (py "'" ++ type_name v ++ py "' object is not iterable"))
  end.

(** *** The [str] methods the loader calls *)

(** [str.isspace] on one code point: the characters [str.strip()]
    removes. *)
Definition is_space (c : N) : bool :=
  ((9 <=? c) && (c <=? 13) || (28 <=? c) && (c <=? 32)
   || (c =? 133) || (c =? 160) || (c =? 5760)
   || (8192 <=? c) && (c <=? 8202)
   || (c =? 8232) || (c =? 8233) || (c =? 8239) || (c =? 8287)
   || (c =? 12288))%N.

Fixpoint lstrip (s : pystr) : pystr :=
  match s with
  | [] => []
  | c :: s' => if is_space c then lstrip s' else s
  end.

Definition strip (s : pystr) : pystr := rev (lstrip (rev (lstrip s))).

(** [s.split(sep)] for a one-character separator. *)
Fixpoint split (sep : N) (s : pystr) : list pystr :=
  match s with
  | [] => [[]]
  | c :: s' =>
      match split sep s' with
      | [] => [[]]
      | w :: ws => if (c =? sep)%N then [] :: w :: ws else (c :: w) :: ws
      end
  end.

(** [s.replace(a, b)] for one-character [a] and [b]. *)
Definition replace (a b : N) (s : pystr) : pystr :=
  map (λ c, if (c =? a)%N then b else c) s.

(** Whether [str(v).strip()] is non-empty.  Only a str can be blank:
    [str()] of None, a bool, a number, a list or a dict always holds a
    visible character. *)
Definition str_strip_truthy (v : pyval) : bool :=
  match v with
  | PStr s => negb (bool_decide (strip s = []))
  | _ => true
  end.

End Py.

(** ** [json.loads]

    The decoder of the [json] module, as the loader uses it (default
    arguments, so strict strings and the [NaN]/[Infinity] literals).
    Text that is not JSON raises [JSONDecodeError]; the position the real
    message reports is left out, the loader never reads it.  Two more
    errors leave [json.loads], and they are not [JSONDecodeError]s: the
    [ValueError] of [int] on a literal of more than 4300 digits, and the
    [RecursionError] of the scanner when arrays and objects are nested
    deeper than the interpreter lets it go. *)

Module Json.
Import Py.

Definition is_ws (c : N) : bool :=
  ((c =? 32) || (c =? 9) || (c =? 10) || (c =? 13))%N.

Fixpoint skip_ws (s : pystr) : pystr :=
  match s with
  | [] => []
  | c :: s' => if is_ws c then skip_ws s' else s
  end.

(** [after p s]: what follows the literal [p] at the front of [s]. *)
Fixpoint after (p s : pystr) : option pystr :=
  match p, s with
  | [], _ => Some s
  | a :: p', b :: s' => if (a =? b)%N then after p' s' else None
  | _ :: _, [] => None
  end.

Definition is_digit (c : N) : bool := ((48 <=? c) && (c <=? 57))%N.

Fixpoint span_digits (s : pystr) : pystr * pystr :=
  match s with
  | [] => ([], [])
  | c :: s' =>
      if is_digit c
      then let '(ds, r) := span_digits s' in (c :: ds, r)
      else ([], s)
  end.

Definition digits_val (ds : pystr) : Z :=
  foldl (λ acc c, acc * 10 + (Z.of_N c - 48))%Z 0%Z ds.

(** [float(text)] for the decimal [m * 10^e]: the result overflows to an
    infinity from [2^1024 - 2^970] on and underflows to zero up to
    [2^-1075]; the rounding in between is not modelled. *)
Definition float_of_decimal (neg : bool) (m e : Z) : pyfloat :=
  if (m =? 0)%Z then FFin 0
  else
    let q := if (0 <=? e)%Z then Qmake (m * 10 ^ e) 1
             else Qmake m (Z.to_pos (10 ^ (- e))) in
    if Qle_bool (Qmake (2 ^ 1024 - 2 ^ 970) 1) q then FInf neg
    else if Qle_bool q (Qmake 1 (2 ^ 1075)) then FFin 0
    else FFin (if neg then Qopp q else q).

(** [sys.get_int_max_str_digits()], as the interpreter starts. *)
Definition max_str_digits : nat := 4300.

Definition digits_error (n : nat) : exn :=
  Exn ValueError
    (py "Exceeds the limit (4300 digits) for integer string conversion: value has "
     ++ py (NilZero.string_of_uint (Nat.to_uint n))
     ++ py " digits; use sys.set_int_max_str_digits() to increase the limit").

(** [int(text)] for a literal of the digits [ds], the sign apart: the
    digits are counted before they are converted. *)
Definition int_of_digits (neg : bool) (ds : pystr) : result pyval :=
  if max_str_digits <? length ds then Raise (digits_error (length ds))
  else Ok (PInt (if neg then - digits_val ds else digits_val ds)%Z).

(** A number: an optional minus sign, then a zero or a run of digits
    that does not start with zero, then an optional fraction (a dot and
    at least one digit) and an optional exponent (e or E, an optional
    sign, at least one digit).  It is an int when there is neither
    fraction nor exponent.  [None] when no number starts here; else what
    [int] or [float] makes of the literal, and the text after it. *)
Definition match_number (s : pystr) : option (result pyval * pystr) :=
  let '(neg, s1) :=
    match s with
    | c :: r => if (c =? 45)%N then (true, r) else (false, s)
    | [] => (false, s)
    end in
  let int_part :=
    match s1 with
    | c :: r =>
        if (c =? 48)%N then Some ([c], r)
        else if is_digit c then Some (span_digits s1)
        else None
    | [] => None
    end in
  match int_part with
  | None => None
  | Some (ds, r1) =>
      let '(fs, r2) :=
        match r1 with
        | c :: r =>
            if (c =? 46)%N
            then match span_digits r with
                 | ([], _) => ([], r1)
                 | (fs, r') => (fs, r')
                 end
            else ([], r1)
        | [] => ([], r1)
        end in
      let '(ex, r3) :=
        match r2 with
        | c :: r =>
            if ((c =? 101) || (c =? 69))%N
            then
              let '(eneg, r') :=
                match r with
                | d :: r'' =>
                    if (d =? 45)%N then (true, r'')
                    else if (d =? 43)%N then (false, r'')
                    else (false, r)
                | [] => (false, r)
                end in
              match span_digits r' with
              | ([], _) => (None, r2)
              | (es, r'') =>
                  (Some (if eneg then - digits_val es else digits_val es)%Z,
                   r'')
              end
            else (None, r2)
        | [] => (None, r2)
        end in
      match fs, ex with
      | [], None => Some (int_of_digits neg ds, r3)
      | _, _ =>
          Some (Ok (PFloat (float_of_decimal neg (digits_val (ds ++ fs))
                              (default 0%Z ex - Z.of_nat (length fs))%Z)), r3)
      end
  end.

Definition hex_val (c : N) : option N :=
  if ((48 <=? c) && (c <=? 57))%N then Some (c - 48)%N
  else if ((65 <=? c) && (c <=? 70))%N then Some (c - 55)%N
  else if ((97 <=? c) && (c <=? 102))%N then Some (c - 87)%N
  else None.

Definition hex4 (a b c d : N) : option N :=
  match hex_val a, hex_val b, hex_val c, hex_val d with
  | Some x, Some y, Some z, Some w =>
      Some (((x * 16 + y) * 16 + z) * 16 + w)%N
  | _, _, _, _ => None
  end.

(** The one-letter escapes. *)
Definition unescape (c : N) : option N :=
  if (c =? 34)%N then Some 34%N
  else if (c =? 92)%N then Some 92%N
  else if (c =? 47)%N then Some 47%N
  else if (c =? 98)%N then Some 8%N
  else if (c =? 102)%N then Some 12%N
  else if (c =? 110)%N then Some 10%N
  else if (c =? 114)%N then Some 13%N
  else if (c =? 116)%N then Some 9%N
  else None.

(** The body of a string, after its opening quote: the decoded text and
    what follows the closing quote; [None] when the string is not well
    formed. *)
Fixpoint scanstring (s : pystr) (acc : pystr) {struct s}
  : option (pystr * pystr) :=
  match s with
  | [] => None
  | c :: r =>
      if (c =? 34)%N then Some (rev acc, r)
      else if (c =? 92)%N then
        match r with
        | [] => None
        | e :: r1 =>
            if (e =? 117)%N then
              match r1 with
              | h1 :: h2 :: h3 :: h4 :: r2 =>
                  match hex4 h1 h2 h3 h4 with
                  | None => None
                  | Some u =>
                      if ((55296 <=? u) && (u <=? 56319))%N then
                        match r2 with
                        | b :: b' :: g1 :: g2 :: g3 :: g4 :: r3 =>
                            if ((b =? 92) && (b' =? 117))%N then
                              match hex4 g1 g2 g3 g4 with
                              | None => None
                              | Some u2 =>
                                  if ((56320 <=? u2) && (u2 <=? 57343))%N
                                  then scanstring r3
                                         ((65536 + ((u - 55296) * 1024
                                                    + (u2 - 56320)))%N
                                            :: acc)
                                  else scanstring r2 (u :: acc)
                              end
                            else scanstring r2 (u :: acc)
                        | _ => scanstring r2 (u :: acc)
                        end
                      else scanstring r2 (u :: acc)
                  end
              | _ => None
              end
            else
              match unescape e with
              | Some ch => scanstring r1 (ch :: acc)
              | None => None
              end
        end
      else if (c <? 32)%N then None
      else scanstring r (c :: acc)
  end.

Definition decode_error : exn := Exn JSONDecodeError (py "Expecting value").

(** What the scanner expected is not there. *)
Definition expect {A} (o : option A) : result A :=
  match o with
  | Some a => Ok a
  | None => Raise decode_error
  end.

(** The error of a container opened when no level of recursion is left;
    [what] is [array] or [object]. *)
Definition recursion_error (what : pystr) : exn :=
  Exn RecursionError
    (py "maximum recursion depth exceeded while decoding a JSON " ++ what
     ++ py " from a unicode string").

(** One JSON value at the front of [s], and the rest of [s].  [depth] is
    the count of levels of recursion left: the scanner takes one when it
    meets the opening bracket of an array or the opening brace of an
    object, before it reads on, and gives it back at the end of that
    array or object. *)
Fixpoint scan_once (fuel depth : nat) (s : pystr)
  : result (pyval * pystr) :=
  match fuel with
  | O => Raise decode_error
  | S fuel' =>
      match s with
      | [] => Raise decode_error
      | c :: r =>
          if (c =? 34)%N then
            '(t, r') ← expect (scanstring r []); Ok (PStr t, r')
          else if (c =? 123)%N then
            match depth with
            | O => Raise (recursion_error (py "object"))
            | S depth' =>
                match skip_ws r with
                | c' :: r' =>
                    if (c' =? 125)%N then Ok (PDict [], r')
                    else '(d, r'') ← object_items fuel' depth' (c' :: r') [];
                         Ok (PDict d, r'')
                | [] => Raise decode_error
                end
            end
          else if (c =? 91)%N then
            match depth with
            | O => Raise (recursion_error (py "array"))
            | S depth' =>
                match skip_ws r with
                | c' :: r' =>
                    if (c' =? 93)%N then Ok (PList [], r')
                    else '(l, r'') ← array_items fuel' depth' (c' :: r') [];
                         Ok (PList l, r'')
                | [] => Raise decode_error
                end
            end
          else
            match after (py "null") s, after (py "true") s,
                  after (py "false") s with
            | Some r', _, _ => Ok (PNone, r')
            | _, Some r', _ => Ok (PBool true, r')
            | _, _, Some r' => Ok (PBool false, r')
            | None, None, None =>
                match match_number s with
                | Some (res, r') => v ← res; Ok (v, r')
                | None =>
                    match after (py "NaN") s, after (py "Infinity") s,
                          after (py "-Infinity") s with
                    | Some r', _, _ => Ok (PFloat FNaN, r')
                    | _, Some r', _ => Ok (PFloat (FInf false), r')
                    | _, _, Some r' => Ok (PFloat (FInf true), r')
                    | None, None, None => Raise decode_error
                    end
                end
            end
      end
  end

(** The items of an array, from its first value to the closing bracket. *)
with array_items (fuel depth : nat) (s : pystr) (acc : list pyval)
  : result (list pyval * pystr) :=
  match fuel with
  | O => Raise decode_error
  | S fuel' =>
      '(v, r) ← scan_once fuel' depth s;
      match skip_ws r with
      | c :: r' =>
          if (c =? 93)%N then Ok (rev (v :: acc), r')
          else if (c =? 44)%N
          then array_items fuel' depth (skip_ws r') (v :: acc)
          else Raise decode_error
      | [] => Raise decode_error
      end
  end

(** The members of an object, from its first key to the closing brace;
    a repeated key keeps its place and takes the later value. *)
with object_items (fuel depth : nat) (s : pystr) (acc : pydict)
  : result (pydict * pystr) :=
  match fuel with
  | O => Raise decode_error
  | S fuel' =>
      match s with
      | c :: r =>
          if (c =? 34)%N then
            '(k, r1) ← expect (scanstring r []);
            match skip_ws r1 with
            | c1 :: r2 =>
                if (c1 =? 58)%N then
                  '(v, r3) ← scan_once fuel' depth (skip_ws r2);
                  match skip_ws r3 with
                  | c3 :: r4 =>
                      if (c3 =? 125)%N then Ok (dict_set k v acc, r4)
                      else if (c3 =? 44)%N
                      then object_items fuel' depth (skip_ws r4)
                             (dict_set k v acc)
                      else Raise decode_error
                  | [] => Raise decode_error
                  end
                else Raise decode_error
            | [] => Raise decode_error
            end
          else Raise decode_error
      | [] => Raise decode_error
      end
  end.

(** The levels of recursion the scanner finds left when the loader runs
    from [main.py]: the interpreter's limit of 1000 frames, less the
    frames of the module, of [main], [load_movies],
    [_process_movie_batch], [json.loads], [decode] and [raw_decode], and
    of the scanner itself.  Arrays and objects nested 992 deep are read;
    the 993rd opening bracket raises. *)
Definition recursion_left : nat := 992.

(** [json.loads(s)]: one value, with white space allowed around it and
    nothing else after it.  Each nested call takes a character of [s], so
    the fuel given is never what stops the scan. *)
Definition loads (s : pystr) : result pyval :=
  '(v, r) ← scan_once (2 * length s + 2) recursion_left (skip_ws s);
  match skip_ws r with
  | [] => Ok v
  | _ :: _ => Raise (Exn JSONDecodeError (py "Extra data"))
  end.

End Json.

(** ** [pd.isna]

    On a scalar [pd.isna] answers with a bool; on a list it builds an
    object array from the list and answers with an array of bools, one per
    element, and the truth value of such an array is defined only when it
    has a single element. *)

Module Pandas.
Import Py.

(** The missing values among scalars. *)
Definition checknull (v : pyval) : bool :=
  match v with
  | PNone => true
  | PFloat FNaN => true
  | _ => false
  end.

(** One array dimension further down: possible when every item is a
    list and all have one length. *)
Definition sublists (items : list pyval) : option (list pyval) :=
  match items with
  | PList l0 :: _ =>
      if forallb (λ v, match v with
                       | PList l => bool_decide (length l = length l0)
                       | _ => false
                       end) items
      then Some (concat (map (λ v, match v with PList l => l | _ => [] end)
                           items))
      else None
  | _ => None
  end.

(** The elements of [np.asarray(l, dtype=object)], flattened: lists
    nested at equal lengths become dimensions, up to [dims] of them. *)
Fixpoint ravel (dims : nat) (items : list pyval) : list pyval :=
  match dims with
  | O => items
  | S dims' =>
      match sublists items with
      | Some sub => ravel dims' sub
      | None => items
      end
  end.

Definition ambiguous_truth : exn :=
  Exn ValueError
    (py "The truth value of an array with more than one element is ambiguous. Use a.any() or a.all()").

(** [bool(pd.isna(v))], as [if pd.isna(v)] and [not pd.isna(v)] take it.
    An array has at most 32 dimensions, the list itself being the first;
    an empty array counts as false. *)
Definition isna_truth (v : pyval) : result bool :=
  match v with
  | PList l =>
      match ravel 31 l with
      | [] => Ok false
      | [x] => Ok (checknull x)
      | _ :: _ :: _ => Raise ambiguous_truth
      end
  | _ => Ok (checknull v)
  end.

End Pandas.

(** ** The graph store and the upsert statement *)

Module Neo4j.
Import Py.

Inductive label := Movie | Genre.

Record node := Node { node_label : label; node_props : gmap pystr pyval }.

(** Nodes are never deleted, so a node is known by its position;
    [rels] holds the HAS_GENRE relationships, from a node to a node. *)
Record graph := Graph { nodes : list node; rels : list (nat * nat) }.

Definition empty_graph : graph := Graph [] [].

#[export] Instance label_eq_dec : EqDecision label.
Proof. solve_decision. Defined.

(** *** Values as the store takes them *)

Definition in_int64 (z : Z) : bool :=
  ((- 2 ^ 63 <=? z) && (z <? 2 ^ 63))%Z.

(** A parameter can be sent when every int in it fits 64 bits. *)
Fixpoint packable (v : pyval) : bool :=
  match v with
  | PInt z => in_int64 z
  | PList l => forallb packable l
  | PDict d => forallb (λ kv, packable (snd kv)) d
  | _ => true
  end.

Inductive kind := BoolKind | IntKind | FloatKind | StrKind.

#[export] Instance kind_eq_dec : EqDecision kind.
Proof. solve_decision. Defined.

Definition prim_kind (v : pyval) : option kind :=
  match v with
  | PBool _ => Some BoolKind
  | PInt _ => Some IntKind
  | PFloat _ => Some FloatKind
  | PStr _ => Some StrKind
  | _ => None
  end.

(** A property holds a bool, a number, a string, or a list of such
    values of one type; never null, a map or a nested list. *)
Definition storable (v : pyval) : bool :=
  match v with
  | PList [] => true
  | PList (x :: l) =>
      match prim_kind x with
      | Some k => forallb (λ y, bool_decide (prim_kind y = Some k)) l
      | None => false
      end
  | _ => bool_decide (is_Some (prim_kind v))
  end.

(** What a property value is compared by: numbers by their value, so
    that the int 1 and the float 1.0 are equal; NaN equals nothing. *)
Inductive atom :=
| ABool (b : bool)
| ANum (num : Z) (den : positive)
| AInf (neg : bool)
| AStr (s : pystr).

Inductive key :=
| KAtom (a : atom)
| KList (l : list atom).

#[export] Instance atom_eq_dec : EqDecision atom.
Proof. solve_decision. Defined.

#[export] Instance key_eq_dec : EqDecision key.
Proof. solve_decision. Defined.

Definition num_atom (q : Q) : atom :=
  let r := Qred q in ANum (Qnum r) (Qden r).

Definition prim_key (v : pyval) : option atom :=
  match v with
  | PBool b => Some (ABool b)
  | PInt z => Some (num_atom (inject_Z z))
  | PFloat (FFin q) => Some (num_atom q)
  | PFloat (FInf neg) => Some (AInf neg)
  | PStr s => Some (AStr s)
  | _ => None
  end.

Definition cy_key (v : pyval) : option key :=
  match v with
  | PList l => KList <$> mapM prim_key l
  | _ => KAtom <$> prim_key v
  end.

(** [a = b] in Cypher, on property values. *)
Definition cy_eqb (a b : pyval) : bool :=
  match cy_key a, cy_key b with
  | Some x, Some y => bool_decide (x = y)
  | _, _ => false
  end.

(** *** MERGE, SET, UNWIND *)

(** The pattern [(:lbl {prop: v})]. *)
Definition has_key (lbl : label) (prop : pystr) (v : pyval) (n : node)
  : bool :=
  bool_decide (node_label n = lbl)
  && match node_props n !! prop with
     | Some x => cy_eqb x v
     | None => false
     end.

(** The positions, from [i] on, of the nodes that satisfy [p]. *)
Fixpoint find_from (i : nat) (p : node → bool) (ns : list node)
  : list nat :=
  match ns with
  | [] => []
  | n :: ns' =>
      if p n then i :: find_from (S i) p ns' else find_from (S i) p ns'
  end.

Definition find_nodes (lbl : label) (prop : pystr) (v : pyval) (g : graph)
  : list nat :=
  find_from 0 (has_key lbl prop v) (nodes g).

(** [MERGE (x:lbl {prop: v})]: every node that matches, or else one new
    node. *)
Definition merge_node (lbl : label) (prop : pystr) (v : pyval) (g : graph)
  : graph * list nat :=
  match find_nodes lbl prop v g with
  | [] => (Graph (nodes g ++ [Node lbl {[ prop := v ]}]) (rels g),
           [length (nodes g)])
  | i :: ixs => (g, i :: ixs)
  end.

(** [MERGE (m)-[:HAS_GENRE]->(g)] for bound [m] and [g]. *)
Definition merge_rel (m gn : nat) (g : graph) : graph :=
  if bool_decide ((m, gn) ∈ rels g) then g
  else Graph (nodes g) (rels g ++ [(m, gn)]).

(** [SET x.k = v]; setting null removes the property. *)
Definition set_prop (k : pystr) (v : pyval) (n : node) : node :=
  Node (node_label n)
    (match v with
     | PNone => delete k (node_props n)
     | _ => <[ k := v ]> (node_props n)
     end).

Definition alter_nodes (f : node → node) (ixs : list nat) (g : graph)
  : graph :=
  Graph (imap (λ i n, if bool_decide (i ∈ ixs) then f n else n) (nodes g))
    (rels g).

(** [movie.k]: null when the map has no such key. *)
Definition field (k : pystr) (r : pydict) : pyval :=
  default PNone (dict_get k r).

(** [CASE WHEN v IS NOT NULL THEN v ELSE d END]. *)
Definition coalesce (v d : pyval) : pyval :=
  match v with
  | PNone => d
  | _ => v
  end.

(** The SET clause of the statement. *)
Definition set_movie_props (r : pydict) (n : node) : node :=
  set_prop (py "popularity")
    (coalesce (field (py "popularity") r) (PFloat (FFin 0)))
    (set_prop (py "vote_count")
       (coalesce (field (py "vote_count") r) (PInt 0))
       (set_prop (py "vote_average")
          (coalesce (field (py "vote_average") r) (PFloat (FFin 0)))
          (set_prop (py "release_date") (field (py "release_date") r)
             (set_prop (py "overview") (field (py "overview") r)
                (set_prop (py "title") (field (py "title") r) n))))).

(** [UNWIND v]: no row for null, one row per element of a list, one row
    for any other value. *)
Definition unwind (v : pyval) : list pyval :=
  match v with
  | PNone => []
  | PList l => l
  | _ => [v]
  end.

(** [WITH m, genre WHERE genre IS NOT NULL MERGE (g:Genre {name: genre})
    MERGE (m)-[:HAS_GENRE]->(g)] for one row. *)
Definition merge_genre (m : nat) (g : graph) (genre : pyval) : graph :=
  match genre with
  | PNone => g
  | _ =>
      let '(g', gs) := merge_node Genre (py "name") genre g in
      foldl (λ acc gn, merge_rel m gn acc) g' gs
  end.

(** The statement on one element of [$movies].  Rows are followed one
    record at a time; taking them clause by clause instead only changes
    the order in which new nodes are numbered. *)
Definition upsert_movie (g : graph) (r : pydict) : graph :=
  let '(g1, ms) := merge_node Movie (py "id") (field (py "id") r) g in
  let g2 := alter_nodes (set_movie_props r) ms g1 in
  foldl (λ acc m, foldl (merge_genre m) acc (unwind (field (py "genres") r)))
    g2 ms.

Definition null_or_storable (v : pyval) : bool :=
  match v with
  | PNone => true
  | _ => storable v
  end.

(** What makes the statement fail on a record: MERGE on a null
    property, or a value that cannot be stored as a property. *)
Definition valid_movie (r : pydict) : bool :=
  storable (field (py "id") r)
  && null_or_storable (field (py "title") r)
  && null_or_storable (field (py "overview") r)
  && null_or_storable (field (py "release_date") r)
  && null_or_storable (field (py "vote_average") r)
  && null_or_storable (field (py "vote_count") r)
  && null_or_storable (field (py "popularity") r)
  && forallb null_or_storable (unwind (field (py "genres") r)).

Definition statement_error : exn :=
  Exn ClientError (py "the statement failed and was rolled back").

(** The whole statement runs in one transaction: it is applied to every
    record of [$movies] or to none. *)
Definition upsert (movies : list pydict) (g : graph) : result graph :=
  if forallb (λ r, forallb (λ kv, packable (snd kv)) r) movies
     && forallb valid_movie movies
  then Ok (foldl upsert_movie g movies)
  else Raise statement_error.

(** [CREATE CONSTRAINT ... REQUIRE m.id IS UNIQUE] can be created only
    on a store that satisfies it. *)
Definition movie_ids_unique (g : graph) : bool :=
  forallb (λ n,
      match node_props n !! py "id" with
      | Some v =>
          bool_decide (node_label n = Movie → cy_key v ≠ None →
                       length (find_nodes Movie (py "id") v g) = 1)
      | None => true
      end) (nodes g).

(** The store: the graph and the schema objects the loader asks for. *)
Record store := Store {
  st_graph : graph;
  st_movie_id_constraint : bool;
  st_movie_title_index : bool
}.

End Neo4j.

(** ** Effects

    Code that raises, logs, sleeps and talks to a server is written in a
    state and exception monad: a computation takes the state, returns a
    value or raises, and leaves a state either way. *)

Module Eff.
Import Py.

Definition M (St A : Type) : Type := St → result A * St.

#[export] Instance M_ret St : MRet (M St) := λ A a s, (Ok a, s).

#[export] Instance M_bind St : MBind (M St) := λ A B f m s,
  match m s with
  | (Ok a, s') => f a s'
  | (Raise e, s') => (Raise e, s')
  end.

Definition raise {St A} (e : exn) : M St A := λ s, (Raise e, s).

Definition gets {St A} (f : St → A) : M St A := λ s, (Ok (f s), s).

Definition modify {St} (f : St → St) : M St unit := λ s, (Ok tt, f s).

(** [try: body  except Exception as e: handler e]. *)
Definition try_except {St A} (body : M St A) (handler : exn → M St A)
  : M St A := λ s,
  match body s with
  | (Ok a, s') => (Ok a, s')
  | (Raise e, s') => handler e s'
  end.

(** [for x in l: body x]. *)
Fixpoint for_each {St A} (l : list A) (body : A → M St unit) : M St unit :=
  match l with
  | [] => mret tt
  | x :: l' => _ ← body x; for_each l' body
  end.

(** A computation on a part [get s] of the state. *)
Definition zoom {St W A} (get : St → W) (set : W → St → St) (m : M W A)
  : M St A := λ s,
  let '(r, w) := m (get s) in (r, set w s).

End Eff.

(** ** The world outside the program

    The file system, the graph store behind the driver, the hosted
    question answering chain, and what the program has done so far. *)

Module World.
Import Py Neo4j Eff.

Inductive level := INFO | WARNING | ERROR.

(** The log lines of the two classes, by their format string. *)
Inductive message :=
| MsgAttemptingToConnect (uri : pystr)
| MsgConnected
| MsgFailedToConnect (e : exn)
| MsgCsvNotFound (csv_path : pystr)
| MsgReadingCsv (csv_path : pystr)
| MsgFoundMovies (n : nat)
| MsgProcessed (total_processed : Z) (n : nat)
| MsgErrorProcessingBatch (i j : nat) (e : exn)
| MsgRetryFailed (e : exn)
| MsgFinishedLoading
| MsgErrorProcessingGenres (movie_id : pyval) (e : exn)
| MsgReconnecting
| MsgConnectionAttemptFailed (attempt : nat)
| MsgQuerying (question : pystr)
| MsgErrorQuerying (question : pystr) (e : exn).

(** A driver object, with the credentials it was made from. *)
Record driver := Driver {
  drv_id : nat;
  drv_uri : pystr;
  drv_user : pystr;
  drv_password : pystr
}.

(** The calls that leave the process. *)
Inductive call :=
| PathExists (path : pystr)
| ReadCsv (path : pystr)
| OpenDriver (d : driver)
| RunProbe (d : driver)
| CloseDriver (d : driver)
| CreateConstraint (d : driver)
| CreateIndex (d : driver)
| RunUpsert (d : driver) (movies : list pydict)
| OpenGraph (uri user password : pystr)
| QueryProbe
| MakeLLM (api_key : pystr)
| MakeChain
| RunChain (question : pystr).

(** What the other side does with a call: it answers, or the call
    raises; a statement whose call raises may or may not have been
    committed before the failure. *)
Inductive reply :=
| Returns (text : pystr)
| Fails (e : exn) (committed : bool).

Inductive event :=
| EvLog (l : level) (m : message)
| EvSleep (seconds : Q)
| EvCall (c : call) (outcome : option exn).

Record world := World_ {
  w_store : store;
  w_exists : pystr → bool;
  w_csv : pystr → result (list pydict);
  w_reply : nat → reply;
  w_calls : nat;
  w_drivers : nat;
  w_trace : list event
}.

Definition emit (ev : event) (w : world) : world :=
  World_ (w_store w) (w_exists w) (w_csv w) (w_reply w) (w_calls w)
    (w_drivers w) (w_trace w ++ [ev]).

Definition count_call (w : world) : world :=
  World_ (w_store w) (w_exists w) (w_csv w) (w_reply w) (S (w_calls w))
    (w_drivers w) (w_trace w).

Definition count_driver (w : world) : world :=
  World_ (w_store w) (w_exists w) (w_csv w) (w_reply w) (w_calls w)
    (S (w_drivers w)) (w_trace w).

Definition put_store (s : store) (w : world) : world :=
  World_ s (w_exists w) (w_csv w) (w_reply w) (w_calls w)
    (w_drivers w) (w_trace w).

Definition log (l : level) (m : message) : M world unit :=
  modify (emit (EvLog l m)).

Definition sleep (seconds : Q) : M world unit :=
  modify (emit (EvSleep seconds)).

(** [os.path.exists(path)]. *)
Definition path_exists (path : pystr) : M world bool := λ w,
  (Ok (w_exists w path), emit (EvCall (PathExists path) None) w).

(** [pd.read_csv(path)]: the rows of the table, as [to_dict('records')]
    gives them, or the error of the read. *)
Definition read_csv (path : pystr) : M world (list pydict) := λ w,
  match w_csv w path with
  | Ok df => (Ok df, emit (EvCall (ReadCsv path) None) w)
  | Raise e => (Raise e, emit (EvCall (ReadCsv path) (Some e)) w)
  end.

(** A call to a server that changes nothing there. *)
Definition request (c : call) : M world pystr := λ w,
  match w_reply w (w_calls w) with
  | Returns t => (Ok t, emit (EvCall c None) (count_call w))
  | Fails e _ => (Raise e, emit (EvCall c (Some e)) (count_call w))
  end.

(** A statement: [effect] is what it does to the store when it is
    committed.  When the call fails, its error is raised, and the
    statement may have been committed before the failure if the store
    takes it.  When the store answers, it has committed the statement, or
    it has rejected it with an error of its own and committed nothing. *)
Definition statement (c : call) (effect : store → result store)
  : M world unit := λ w,
  match w_reply w (w_calls w) with
  | Returns _ =>
      match effect (w_store w) with
      | Ok s' => (Ok tt, emit (EvCall c None) (put_store s' (count_call w)))
      | Raise e => (Raise e, emit (EvCall c (Some e)) (count_call w))
      end
  | Fails e committed =>
      (Raise e,
       emit (EvCall c (Some e))
         (match effect (w_store w) with
          | Ok s' =>
              if committed then put_store s' (count_call w) else count_call w
          | Raise _ => count_call w
          end))
  end.

(** [GraphDatabase.driver(uri, auth=(user, password))]. *)
Definition open_driver (uri user password : pystr) : M world driver := λ w,
  let d := Driver (w_drivers w) uri user password in
  match request (OpenDriver d) w with
  | (Ok _, w') => (Ok d, count_driver w')
  | (Raise e, w') => (Raise e, w')
  end.

(** [with d.session() as session: session.run("RETURN 1").single()]. *)
Definition run_probe (d : driver) : M world unit :=
  _ ← request (RunProbe d); mret tt.

Definition close_driver (d : driver) : M world unit :=
  _ ← request (CloseDriver d); mret tt.

Definition constraint_error : exn :=
  Exn ClientError (py "unable to create the constraint: existing data does not satisfy it").

(** [CREATE CONSTRAINT movie_id IF NOT EXISTS FOR (m:Movie) REQUIRE m.id
    IS UNIQUE]. *)
Definition create_constraint (d : driver) : M world unit :=
  statement (CreateConstraint d) (λ s,
    if st_movie_id_constraint s then Ok s
    else if movie_ids_unique (st_graph s)
         then Ok (Store (st_graph s) true (st_movie_title_index s))
         else Raise constraint_error).

(** [CREATE INDEX movie_title IF NOT EXISTS FOR (m:Movie) ON (m.title)]. *)
Definition create_index (d : driver) : M world unit :=
  statement (CreateIndex d) (λ s,
    Ok (Store (st_graph s) (st_movie_id_constraint s) true)).

(** [session.run(query, movies=movies)] with the upsert statement. *)
Definition run_upsert (d : driver) (movies : list pydict) : M world unit :=
  statement (RunUpsert d movies) (λ s,
    g ← upsert movies (st_graph s);
    mret (Store g (st_movie_id_constraint s) (st_movie_title_index s))).

End World.

(** ** [MovieGraphLoader] *)

Module MovieGraphLoader.
Import Py Pandas Neo4j Eff World.

(** The attributes set once in [__init__]. *)
Record loader := Loader {
  self_uri : pystr;
  self_username : pystr;
  self_password : pystr
}.

(** What changes while the loader runs: [self.driver], the local
    [total_processed] of [load_movies], and the world. *)
Record state := State {
  self_driver : driver;
  total_processed : Z;
  world_of : world
}.

Definition set_driver (d : driver) (s : state) : state :=
  State d (total_processed s) (world_of s).

Definition set_total (n : Z) (s : state) : state :=
  State (self_driver s) n (world_of s).

Definition set_world (w : world) (s : state) : state :=
  State (self_driver s) (total_processed s) w.

Definition in_world {A} (m : M world A) : M state A :=
  zoom world_of set_world m.

(** [__init__]: open the driver and probe it once; a failure is logged
    and raised again. *)
Definition init (uri username password : pystr) : M world state :=
  _ ← log INFO (MsgAttemptingToConnect uri);
  try_except
    (d ← open_driver uri username password;
     _ ← run_probe d;
     _ ← log INFO MsgConnected;
     w ← gets (λ w : world, w);
     mret (State d 0 w))
    (λ e, _ ← log ERROR (MsgFailedToConnect e); raise e).

(** *** [_process_movie_batch] *)

(** [clean_record[key] = None if pd.isna(value) else value]. *)
Definition clean_value (value : pyval) : result pyval :=
  na ← isna_truth value;
  mret (if (na : bool) then PNone else value).

(** The loop over [record.items()]. *)
Fixpoint clean_items (items clean_record : pydict) : result pydict :=
  match items with
  | [] => Ok clean_record
  | (key, value) :: rest =>
      v ← clean_value value;
      clean_items rest (dict_set key v clean_record)
  end.

(** The value bound to [genres] before the filter. *)
Definition parse_genres (v : pyval) : result pyval :=
  match v with
  | PStr s =>
      match (if truthy v then Json.loads (replace apostrophe quotation_mark s)
             else Ok (PList [])) with
      | Ok genres => Ok genres
      | Raise e =>
          if is_JSONDecodeError e
          then Ok (if truthy v
                   then PList (map (λ g, PStr (strip g)) (split comma s))
                   else PList [])
          else Raise e
      end
  | _ => Ok (if truthy v then v else PList [])
  end.

(** [[g for g in genres if g and not pd.isna(g) and str(g).strip()]]. *)
Fixpoint filter_genres (genres : list pyval) : result (list pyval) :=
  match genres with
  | [] => Ok []
  | g :: rest =>
      keep ← (if truthy g
              then na ← isna_truth g; mret (negb na && str_strip_truthy g : bool)
              else Ok false);
      kept ← filter_genres rest;
      mret (if (keep : bool) then g :: kept else kept)
  end.

(** The body of the [try] around the genres. *)
Definition genres_of (v : pyval) : result (list pyval) :=
  genres ← parse_genres v;
  items ← py_iter genres;
  filter_genres items.

(** What [clean_record['genres']] ends up as: the [except] branch puts
    the empty list. *)
Definition normalize_genres (v : pyval) : list pyval :=
  match genres_of v with
  | Ok l => l
  | Raise _ => []
  end.

Definition clean_record (record : pydict) : M world pydict :=
  clean_record ← (λ w, (clean_items record [], w));
  match dict_get (py "genres") clean_record with
  | Some v =>
      match genres_of v with
      | Ok l => mret (dict_set (py "genres") (PList l) clean_record)
      | Raise e =>
          _ ← log WARNING
                (MsgErrorProcessingGenres
                   (default (PStr (py "unknown"))
                      (dict_get (py "id") clean_record)) e);
          mret (dict_set (py "genres") (PList []) clean_record)
      end
  | None => mret clean_record
  end.

Fixpoint clean_batch (records : list pydict) : M world (list pydict) :=
  match records with
  | [] => mret []
  | record :: rest =>
      r ← clean_record record;
      rs ← clean_batch rest;
      mret (r :: rs)
  end.

Definition process_movie_batch (batch : list pydict) : M state unit :=
  cleaned_batch ← in_world (clean_batch batch);
  d ← gets self_driver;
  in_world (run_upsert d cleaned_batch).

(** *** [_ensure_connection] *)

Definition ensure_connection (self : loader) : M state unit :=
  try_except
    (d ← gets self_driver; in_world (run_probe d))
    (λ _,
       _ ← in_world (log INFO MsgReconnecting);
       d ← gets self_driver;
       _ ← in_world (close_driver d);
       _ ← in_world (sleep 1);
       d' ← in_world (open_driver (self_uri self) (self_username self)
                        (self_password self));
       modify (set_driver d')).

(** *** [load_movies] *)

Definition batch_size : nat := 40000.

(** [range(0, stop, step)]. *)
Definition py_range (stop step : nat) : list nat :=
  map (λ k, k * step) (seq 0 ((stop + step - 1) `div` step)).

(** [df.iloc[i:j]]. *)
Definition iloc {A} (i j : nat) (df : list A) : list A :=
  take (j - i) (drop i df).

Definition csv_not_found (csv_path : pystr) : exn :=
  Exn FileNotFoundError (py "CSV file not found: " ++ csv_path).

(** The [try] block of the loop over the batches. *)
Definition try_batch (self : loader) (df batch : list pydict) : M state unit :=
  _ ← process_movie_batch batch;
  _ ← modify (λ s, set_total (total_processed s + Z.of_nat (length batch)) s);
  total ← gets total_processed;
  _ ← in_world (log INFO (MsgProcessed total (length df)));
  _ ← in_world (sleep (1 # 2));
  if (total `mod` 50000 =? 0)%Z
  then ensure_connection self
  else mret tt.

(** Its [except] block: the connection check, then the batch once more;
    [continue] ends the turn, as its end would. *)
Definition except_batch (self : loader) (i : nat) (batch : list pydict)
    (e : exn) : M state unit :=
  _ ← in_world (log ERROR (MsgErrorProcessingBatch i (i + batch_size) e));
  _ ← ensure_connection self;
  try_except
    (process_movie_batch batch)
    (λ retry_e, in_world (log ERROR (MsgRetryFailed retry_e))).

(** One turn of the loop. *)
Definition load_batch (self : loader) (df : list pydict) (i : nat)
  : M state unit :=
  let batch := iloc i (i + batch_size) df in
  try_except (try_batch self df batch) (except_batch self i batch).

Definition load_movies (self : loader) (csv_path : pystr) : M state unit :=
  found ← in_world (path_exists csv_path);
  if negb found
  then
    _ ← in_world (log ERROR (MsgCsvNotFound csv_path));
    raise (csv_not_found csv_path)
  else
    _ ← in_world (log INFO (MsgReadingCsv csv_path));
    df ← in_world (read_csv csv_path);
    _ ← in_world (log INFO (MsgFoundMovies (length df)));
    d ← gets self_driver;
    _ ← in_world (create_constraint d);
    _ ← in_world (create_index d);
    _ ← modify (set_total 0);
    _ ← for_each (py_range (length df) batch_size) (load_batch self df);
    in_world (log INFO MsgFinishedLoading).


(** [close]. *)
Definition close : M state unit :=
  d ← gets self_driver; in_world (close_driver d).

End MovieGraphLoader.

(** ** [MovieQueryInterface] *)

Module MovieQueryInterface.
Import Py Eff World.

(** The attributes set once in [__init__]. *)
Record interface := Interface {
  self_uri : pystr;
  self_username : pystr;
  self_password : pystr;
  self_gemini_api_key : pystr
}.

(** How one turn of a loop ends. *)
Inductive flow := Break | Continue.

Definition max_retries : nat := 3.

(** One turn of the connection loop of [_initialize_connections]. *)
Definition connection_attempt (self : interface) (attempt : nat)
  : M world flow :=
  try_except
    (_ ← request (OpenGraph (self_uri self) (self_username self)
                    (self_password self));
     _ ← request QueryProbe;
     mret Break)
    (λ e,
       if attempt =? max_retries - 1 then raise e
       else
         _ ← log WARNING (MsgConnectionAttemptFailed (attempt + 1));
         _ ← sleep 2;
         mret Continue).

(** [for attempt in attempts: ...], left by [break]. *)
Fixpoint connection_loop (self : interface) (attempts : list nat)
  : M world unit :=
  match attempts with
  | [] => mret tt
  | attempt :: rest =>
      f ← connection_attempt self attempt;
      match f with
      | Break => mret tt
      | Continue => connection_loop self rest
      end
  end.

Definition initialize_connections (self : interface) : M world unit :=
  _ ← connection_loop self (seq 0 max_retries);
  _ ← request (MakeLLM (self_gemini_api_key self));
  _ ← request MakeChain;
  mret tt.

Definition questions : list pystr :=
  [ py "What are the top 5 highest-rated movies with at least 1000 votes?";
    py "Which genres have the most movies?";
    py "What are the most popular movies released in 2023?";
    py "What are the average ratings for each genre?";
    py "What are some hidden gems (high rating but low vote count)?" ].

(** The body of the loop of [get_movie_insights]. *)
Definition ask (insights : pydict) (question : pystr) : M world pydict :=
  try_except
    (_ ← log INFO (MsgQuerying question);
     result ← request (RunChain question);
     mret (dict_set question (PStr result) insights))
    (λ e,
       _ ← log ERROR (MsgErrorQuerying question e);
       mret (dict_set question (PStr (py "Error: " ++ exn_str e))
               insights)).

Fixpoint ask_all (qs : list pystr) (insights : pydict) : M world pydict :=
  match qs with
  | [] => mret insights
  | question :: rest =>
      insights' ← ask insights question;
      ask_all rest insights'
  end.

Definition get_movie_insights : M world pydict := ask_all questions [].

End MovieQueryInterface.

(** ** Observing a run *)

Module Observe.
Import Py Neo4j Eff World MovieGraphLoader.

Definition emit_all (evs : list event) (w : world) : world :=
  foldl (λ acc ev, emit ev acc) w evs.

(** The state after [calls] more calls and the events [evs]. *)
Definition later (evs : list event) (calls : nat) (s : state) : state :=
  set_world (Nat.iter calls count_call (emit_all evs (world_of s))) s.

Definition trace_of (s : state) : list event := w_trace (world_of s).

Definition graph_of (s : state) : graph := st_graph (w_store (world_of s)).

(** The reply to the [k]-th call from now. *)
Definition reply_at (s : state) (k : nat) : reply :=
  w_reply (world_of s) (k + w_calls (world_of s)).

(** [self.driver = d] for a driver just made. *)
Definition adopt (d : driver) (s : state) : state :=
  set_driver d (set_world (count_driver (world_of s)) s).

Definition is_open_driver (ev : event) : bool :=
  match ev with EvCall (OpenDriver _) _ => true | _ => false end.

Definition is_close_driver (ev : event) : bool :=
  match ev with EvCall (CloseDriver _) _ => true | _ => false end.

Definition is_probe (ev : event) : bool :=
  match ev with EvCall (RunProbe _) _ => true | _ => false end.

Definition is_sleep (ev : event) : bool :=
  match ev with EvSleep _ => true | _ => false end.

Definition is_read_csv (ev : event) : bool :=
  match ev with EvCall (ReadCsv _) _ => true | _ => false end.

Definition is_statement (ev : event) : bool :=
  match ev with
  | EvCall (CreateConstraint _) _ | EvCall (CreateIndex _) _
  | EvCall (RunUpsert _ _) _ => true
  | _ => false
  end.

Definition is_progress (ev : event) : bool :=
  match ev with EvLog _ (MsgProcessed _ _) => true | _ => false end.


Definition is_open_graph (ev : event) : bool :=
  match ev with EvCall (OpenGraph _ _ _) _ => true | _ => false end.


(** A world where nothing has happened yet. *)
Definition blank : world :=
  World_ (Store empty_graph false false) (λ _, false) (λ _, Ok [])
    (λ _, Returns []) 0 0 [].

(** Cleaning a batch talks to nobody: what it returns or raises, and the
    warnings it logs, depend on the batch alone. *)
Definition cleaned (batch : list pydict) : result (list pydict) :=
  fst (clean_batch batch blank).

Definition warnings (batch : list pydict) : list event :=
  w_trace (snd (clean_batch batch blank)).

(** The state with the graph of the store replaced. *)
Definition with_graph (g : graph) (s : state) : state :=
  set_world
    (put_store
       (Store g (st_movie_id_constraint (w_store (world_of s)))
          (st_movie_title_index (w_store (world_of s))))
       (world_of s)) s.


(** The state once a batch of [n] rows out of [rows] has been counted:
    the running total is advanced, the progress line is logged, and the
    pacing sleep is over. *)
Definition counted (n rows : nat) (s : state) : state :=
  later [EvLog INFO (MsgProcessed (total_processed s + Z.of_nat n) rows);
         EvSleep (1 # 2)] 0
    (set_total (total_processed s + Z.of_nat n) s).

(** The events of [s'] that [s] did not have yet. *)
Definition events_since (s s' : state) : list event :=
  drop (length (trace_of s)) (trace_of s').

Definition is_upsert (ev : event) : bool :=
  match ev with EvCall (RunUpsert _ _) _ => true | _ => false end.


(** No progress line among the events. *)
Definition no_progress (evs : list event) : Prop :=
  Forall (λ ev, is_progress ev = false) evs.


(** The store answers every call. *)
Definition answering (s : state) : Prop :=
  ∀ k, ∃ t, w_reply (world_of s) k = Returns t.

(** What the program cannot change: the replies to come, and the files. *)
Definition outside (s : state)
  : (nat → reply) * (pystr → bool) * (pystr → result (list pydict)) :=
  (w_reply (world_of s), w_exists (world_of s), w_csv (world_of s)).

(** The schema objects of the store. *)
Definition schema (s : state) : bool * bool :=
  (st_movie_id_constraint (w_store (world_of s)),
   st_movie_title_index (w_store (world_of s))).

(** What a state keeps through one turn of the loop, the graph apart. *)
Definition same_side (s s' : state) : Prop :=
  outside s' = outside s ∧ schema s' = schema s
  ∧ self_driver s' = self_driver s.


Definition is_warning (ev : event) : bool :=
  match ev with EvLog WARNING (MsgErrorProcessingGenres _ _) => true | _ => false end.


(** A batch that cleans and that the statement takes. *)
Definition accepted (batch : list pydict) : Prop :=
  ∃ movies g, cleaned batch = Ok movies ∧ upsert movies empty_graph = Ok g.

End Observe.

(** ** Concrete runs *)

Module Scenario.
Import Py Neo4j Eff World MovieGraphLoader Observe.

Definition me : loader :=
  Loader (py "neo4j+s://example") (py "neo4j") (py "secret").

Definition driver0 : driver :=
  Driver 0 (self_uri me) (self_username me) (self_password me).

(** Replies read off a list; past its end every call answers. *)
Definition replies (l : list reply) (k : nat) : reply :=
  default (Returns []) (l !! k).

Definition unavailable : exn :=
  Exn ServiceUnavailable (py "Unable to retrieve routing information").

Definition broken_pipe : exn := Exn OSError (py "Broken pipe").

(** A loader that has connected to an empty store, one driver made. *)
Definition connected (df : list pydict) (l : list reply) : state :=
  State driver0 0
    (World_ (Store empty_graph false false) (λ _, true) (λ _, Ok df)
       (replies l) 0 1 []).


Definition dataset_path : pystr := py "tmdb_movies_2023.csv".

Definition is_a_directory : exn :=
  Exn OSError (py "[Errno 21] Is a directory: 'tmdb_movies_2023.csv'").

(** A connected loader where no file is found at any path. *)
Definition no_file : state :=
  State driver0 0
    (World_ (Store empty_graph false false) (λ _, false)
       (λ path, Raise (csv_not_found path)) (replies []) 0 1 []).

(** A connected loader where the path exists and cannot be read as a
    file. *)
Definition unreadable_file : state :=
  State driver0 0
    (World_ (Store empty_graph false false) (λ _, true)
       (λ _, Raise is_a_directory) (replies []) 0 1 []).


(** A row with an id and nothing else. *)
Definition movie1 : pydict := [(py "id", PInt 1)].

(** A table of 80,000 rows: two full batches. *)
Definition rows_80000 : list pydict := replicate (Z.to_nat 80000) movie1.

(** A table of 50,000 rows: a full batch and one of 10,000. *)
Definition rows_50000 : list pydict := replicate (Z.to_nat 50000) movie1.


(** The connected loader once [load_movies] has found and read the table
    [df] and the two schema statements have answered. *)
Definition ready (df : list pydict) : state :=
  State driver0 0
    (World_ (Store empty_graph true true) (λ _, true) (λ _, Ok df)
       (replies []) 2 1
       [EvCall (PathExists dataset_path) None;
        EvLog INFO (MsgReadingCsv dataset_path);
        EvCall (ReadCsv dataset_path) None;
        EvLog INFO (MsgFoundMovies (length df));
        EvCall (CreateConstraint driver0) None;
        EvCall (CreateIndex driver0) None]).


(** Two rows as [read_csv] gives them: an empty cell is NaN, the genres
    are text. *)
Definition heat : pydict :=
  [(py "id", PInt 949); (py "title", PStr (py "Heat"));
   (py "vote_average", PFloat FNaN); (py "vote_count", PFloat FNaN);
   (py "popularity", PFloat FNaN); (py "genres", PStr (py "Action, Drama"))].

Definition ronin : pydict :=
  [(py "id", PInt 8195); (py "title", PStr (py "Ronin"));
   (py "vote_average", PFloat (FFin (69 # 10))); (py "vote_count", PInt 2144);
   (py "popularity", PFloat (FFin (21 # 1)));
   (py "genres", PStr (py "['Action', 'Thriller']"))].

Definition two_movies : list pydict := [heat; ronin].


(** The two rows once cleaned. *)
Definition heat_clean : pydict :=
  [(py "id", PInt 949); (py "title", PStr (py "Heat"));
   (py "vote_average", PNone); (py "vote_count", PNone);
   (py "popularity", PNone);
   (py "genres", PList [PStr (py "Action"); PStr (py "Drama")])].

Definition ronin_clean : pydict :=
  [(py "id", PInt 8195); (py "title", PStr (py "Ronin"));
   (py "vote_average", PFloat (FFin (69 # 10))); (py "vote_count", PInt 2144);
   (py "popularity", PFloat (FFin (21 # 1)));
   (py "genres", PList [PStr (py "Action"); PStr (py "Thriller")])].


(** A row whose genres are a list already, as no CSV gives them. *)
Definition listed : pydict :=
  [(py "id", PInt 1);
   (py "genres", PList [PStr (py "Action"); PStr (py "Drama")])].


(** A row without an id. *)
Definition nameless : pydict := [(py "title", PStr (py "Untitled"))].

(** The row [heat] once its cells are cleaned, the genres as they were. *)
Definition heat_cells : pydict :=
  [(py "id", PInt 949); (py "title", PStr (py "Heat"));
   (py "vote_average", PNone); (py "vote_count", PNone);
   (py "popularity", PNone); (py "genres", PStr (py "Action, Drama"))].

(** A row whose genres cell holds a number. *)
Definition numbered : pydict := [(py "id", PInt 2); (py "genres", PInt 7)].

(** A connected loader whose store holds two Movie nodes with the id 1
    and no constraint yet. *)
Definition twice_stored : state :=
  State driver0 0
    (World_ (Store (Graph [Node Movie {[py "id" := PInt 1]};
                           Node Movie {[py "id" := PInt 1]}] [])
               false false)
       (λ _, true) (λ _, Ok [movie1]) (replies []) 0 1 []).

End Scenario.

(** ** What the connection loop of the query interface may do *)

Module Attempts.
Import Py Eff World MovieQueryInterface.

(** The calls of one connection attempt that fails with [e]: opening the
    graph raises, or it answers and the test query raises. *)
Inductive failed_attempt (self : interface) (e : exn) : list event → Prop :=
| open_raises :
    failed_attempt self e
      [EvCall (OpenGraph (self_uri self) (self_username self)
                 (self_password self)) (Some e)]
| query_raises :
    failed_attempt self e
      [EvCall (OpenGraph (self_uri self) (self_username self)
                 (self_password self)) None;
       EvCall QueryProbe (Some e)].

(** [attempts_from self k evs r]: from attempt number [k] on (counted from
    zero), the connection loop leaves the events [evs] and ends as [r].
    An attempt that succeeds ends the loop; a failed attempt before the
    third is followed by a warning and a sleep of 2, then by the next
    attempt; the third failure is raised. *)
Inductive attempts_from (self : interface)
  : nat → list event → result unit → Prop :=
| attempt_succeeds k :
    k < max_retries →
    attempts_from self k
      [EvCall (OpenGraph (self_uri self) (self_username self)
                 (self_password self)) None;
       EvCall QueryProbe None] (Ok tt)
| attempt_fails_last e evs :
    failed_attempt self e evs →
    attempts_from self (max_retries - 1) evs (Raise e)
| attempt_fails_retry k e evs rest r :
    S k < max_retries →
    failed_attempt self e evs →
    attempts_from self (S k) rest r →
    attempts_from self k
      (evs ++ [EvLog WARNING (MsgConnectionAttemptFailed (k + 1));
               EvSleep 2] ++ rest) r.


(** What [get_movie_insights] stores for a question, by the reply to its
    call: the answer, or the text of the error after [Error: ]. *)
Definition slot (r : reply) : pyval :=
  match r with
  | Returns t => PStr t
  | Fails e _ => PStr (py "Error: " ++ exn_str e)
  end.

End Attempts.

(** ** Reading a graph *)

Module Matching.
Import Py Neo4j.

(** The key a node is found by under the pattern [(:lbl {prop: _})]. *)
Definition node_key (lbl : label) (prop : pystr) (n : node) : option key :=
  if decide (node_label n = lbl) then node_props n !! prop ≫= cy_key
  else None.

(** [movie.id], and the rows of [UNWIND movie.genres] that pass
    [WHERE genre IS NOT NULL]. *)
Definition movie_id (r : pydict) : pyval := field (py "id") r.

Definition is_null (v : pyval) : bool :=
  match v with PNone => true | _ => false end.

Definition genres_of_movie (r : pydict) : list pyval :=
  List.filter (λ v, negb (is_null v)) (unwind (field (py "genres") r)).

(** A value MERGE can find again: one that is equal to itself. *)
Definition key_ok (v : pyval) : Prop := is_Some (cy_key v).

Definition keys_ok (r : pydict) : Prop :=
  key_ok (movie_id r) ∧ Forall key_ok (genres_of_movie r).

(** What the SET clause does to a node: the properties it writes. *)
Definition step (r : pydict) (n : node) : node :=
  if has_key Movie (py "id") (movie_id r) n then set_movie_props r n else n.

Definition overwrite (r : pydict) (g : graph) : graph :=
  Graph (map (step r) (nodes g)) (rels g).

Definition steps (rs : list pydict) (n : node) : node :=
  foldl (λ acc r, step r acc) n rs.

(** The pattern has a match in the graph. *)
Definition present (lbl : label) (prop : pystr) (v : pyval) (g : graph)
  : Prop :=
  find_nodes lbl prop v g ≠ [].

(** Everything the statement would create for the record [r] is in the
    graph already. *)
Definition settled (r : pydict) (g : graph) : Prop :=
  present Movie (py "id") (movie_id r) g
  ∧ ∀ genre, genre ∈ genres_of_movie r →
      present Genre (py "name") genre g
      ∧ ∀ m gn, m ∈ find_nodes Movie (py "id") (movie_id r) g →
                gn ∈ find_nodes Genre (py "name") genre g →
                (m, gn) ∈ rels g.

(** At most one node per key, and no relationship twice. *)
Definition unique_nodes (lbl : label) (prop : pystr) (g : graph) : Prop :=
  ∀ v, length (find_nodes lbl prop v g) ≤ 1.

Definition no_duplicates (g : graph) : Prop :=
  unique_nodes Movie (py "id") g
  ∧ unique_nodes Genre (py "name") g
  ∧ NoDup (rels g).

(** What the SET clause leaves at the property [i]: [Some o] when it
    writes it ([o] is the value, or [None] when it removes it), [None]
    when it does not touch it. *)
Definition written (r : pydict) (i : pystr) : option (option pyval) :=
  let stored v := match v with PNone => None | _ => Some v end in
  if decide (py "popularity" = i)
  then Some (stored (coalesce (field (py "popularity") r) (PFloat (FFin 0))))
  else if decide (py "vote_count" = i)
  then Some (stored (coalesce (field (py "vote_count") r) (PInt 0)))
  else if decide (py "vote_average" = i)
  then Some (stored (coalesce (field (py "vote_average") r) (PFloat (FFin 0))))
  else if decide (py "release_date" = i)
  then Some (stored (field (py "release_date") r))
  else if decide (py "overview" = i)
  then Some (stored (field (py "overview") r))
  else if decide (py "title" = i)
  then Some (stored (field (py "title") r))
  else None.


(** [g'] keeps what was found in [g]: a pattern over a property the SET
    clause does not write, once it has a match, has the same matches, and
    no relationship is lost. *)
Definition keeps (g g' : graph) : Prop :=
  (∀ lbl prop v, (∀ r, written r prop = None) →
     present lbl prop v g →
     find_nodes lbl prop v g' = find_nodes lbl prop v g)
  ∧ ∀ e, e ∈ rels g → e ∈ rels g'.

(** Every node of the graph has the properties the records [rs], taken
    in order, leave on it. *)
Definition up_to_date (rs : list pydict) (g : graph) : Prop :=
  Forall (λ n, steps rs n = n) (nodes g).


(** A value [pd.isna] tells present. *)
Definition not_na (v : pyval) : Prop := Pandas.isna_truth v = Ok false.


(** The column [k] of a record holds no value: the record has no such
    key, or None or NaN under it. *)
Definition absent (k : pystr) (record : pydict) : Prop :=
  ∀ v, (k, v) ∈ record → Pandas.checknull v = true.

(** There is a Movie node the pattern [(:Movie {id: v})] finds in [g],
    and every such node has [o] under [k]: the value [d] when [o] is
    [Some d], no property when it is [None]. *)
Definition stored (v : pyval) (k : pystr) (o : option pyval) (g : graph)
  : Prop :=
  present Movie (py "id") v g
  ∧ ∀ ix n, ix ∈ find_nodes Movie (py "id") v g →
            nodes g !! ix = Some n → node_props n !! k = o.


(** What [SET x.k = v] leaves under [k]: the value, or no property when
    [v] is null. *)
Definition kept_value (v : pyval) : option pyval :=
  match v with PNone => None | _ => Some v end.


(** A cell that holds no list. *)
Definition not_a_list (v : pyval) : Prop :=
  match v with PList _ => False | _ => True end.


(** What the filter of the genres lets through: an item that is true,
    that [pd.isna] tells present, and whose text is not blank. *)
Definition kept_genre (g : pyval) : Prop :=
  truthy g = true ∧ not_na g ∧ str_strip_truthy g = true.


(** What a node keeps whatever is written on it: its label, its id and
    its name; a Genre node keeps everything. *)
Definition same_node (n n' : node) : Prop :=
  node_label n' = node_label n
  ∧ node_props n' !! py "id" = node_props n !! py "id"
  ∧ node_props n' !! py "name" = node_props n !! py "name"
  ∧ (node_label n = Genre → n' = n).

(** [g'] has every relationship of [g], and every node of [g] at its
    place. *)
Definition nothing_lost (g g' : graph) : Prop :=
  (∀ e, e ∈ rels g → e ∈ rels g')
  ∧ ∀ i n, nodes g !! i = Some n →
           ∃ n', nodes g' !! i = Some n' ∧ same_node n n'.

End Matching.

(** ** How a genres cell spells a list *)

Module Encodings.
Import Py.

(** A character that stands for itself inside a quoted string, and that
    [replace] leaves alone: no quote, no apostrophe, no backslash, no
    control character. *)
Definition plain (c : N) : bool :=
  negb (c =? quotation_mark)%N && negb (c =? apostrophe)%N
  && negb (c =? 92)%N && (32 <=? c)%N.

(** [w] between two quote characters [q]. *)
Definition quoted (q : N) (w : pystr) : pystr := q :: w ++ [q].

(** The words between brackets, each quoted, with a comma and a space
    between them: what [str] gives for a list of str. *)
Fixpoint items_text (q : N) (ws : list pystr) : pystr :=
  match ws with
  | [] => [93%N]
  | w :: ws' =>
      quoted q w
      ++ match ws' with
         | [] => [93%N]
         | _ :: _ => [comma; 32%N] ++ items_text q ws'
         end
  end.

Definition list_text (q : N) (ws : list pystr) : pystr :=
  91%N :: items_text q ws.

(** The pieces that are left when the blank ones are dropped. *)
Definition not_blank (w : pystr) : bool := negb (bool_decide (strip w = [])).




End Encodings.

(** ** Lines written as text

    The methods below build their log lines and their questions as
    text; the lines are kept with the text itself. *)

Module Console.
Import Py Eff World.

(** A line: a log record, or a line of [print]. *)
Inductive line :=
| Logged (l : level) (text : pystr)
| Printed (text : pystr).

(** The world, and the lines written so far, each with the number of
    events of the world that came before it. *)
Record console := Console_ {
  con_world : world;
  con_lines : list (nat * line)
}.

Definition set_con_world (w : world) (c : console) : console :=
  Console_ w (con_lines c).

Definition on_world {A} (m : M world A) : M console A :=
  zoom con_world set_con_world m.

Definition write (ln : line) : M console unit :=
  modify (λ c,
    Console_ (con_world c)
      (con_lines c ++ [(length (w_trace (con_world c)), ln)])).

(** [str(z)] for an int. *)
Definition str_of_int (z : Z) : pystr :=
  py (NilZero.string_of_int (Z.to_int z)).

Definition newline : N := 10.

End Console.

(** ** movie_query_interface.py, the other methods *)

Module MovieQueryMethods.
Import Py Eff World MovieQueryInterface Console.

(** [except ServiceUnavailable]. *)
Definition is_ServiceUnavailable (e : exn) : bool :=
  match exn_type e with ServiceUnavailable => true | _ => false end.

Definition max_retries : nat := 3.

(** One turn of the loop of [_execute_with_retry], [func] standing for
    the call of the function on its arguments: [Some a] when the call
    returns [a], [None] when the loop goes on. *)
Definition query_attempt {A} (self : interface) (func : M console A)
    (attempt : nat) : M console (option A) := λ c,
  match func c with
  | (Ok a, c') => (Ok (Some a), c')
  | (Raise e, c') =>
      if is_ServiceUnavailable e
      then
        (if attempt =? max_retries - 1 then raise e
         else
           _ ← write (Logged WARNING
                        (py "Query attempt "
                         ++ str_of_int (Z.of_nat (attempt + 1))
                         ++ py " failed, retrying..."));
           _ ← on_world (sleep 2);
           _ ← on_world (initialize_connections self);
           mret None) c'
      else (Raise e, c')
  end.

(** [for attempt in attempts: ...], left by [return]; [None] at the end
    is the function falling off its loop. *)
Fixpoint query_loop {A} (self : interface) (func : M console A)
    (attempts : list nat) : M console (option A) :=
  match attempts with
  | [] => mret None
  | attempt :: rest =>
      r ← query_attempt self func attempt;
      match r with
      | Some a => mret (Some a)
      | None => query_loop self func rest
      end
  end.

Definition execute_with_retry {A} (self : interface) (func : M console A)
  : M console (option A) :=
  query_loop self func (seq 0 max_retries).

Definition indent : pystr := py "        ".

Section Recommendations.

(** [str] of a float, which is not computed here. *)
Variable float_str : pyfloat → pystr.

Definition get_personalized_recommendations (movie_title : pystr)
    (min_rating : pyfloat) : M console pystr :=
  let question :=
    [newline]
    ++ indent ++ py "Find movies similar to '" ++ movie_title ++ py "' that:"
    ++ [newline]
    ++ indent ++ py "1. Share at least 2 genres with it" ++ [newline]
    ++ indent ++ py "2. Have a rating above " ++ float_str min_rating
    ++ [newline]
    ++ indent ++ py "3. Are sorted by popularity" ++ [newline]
    ++ indent ++ py "Limit to top 5 recommendations." ++ [newline]
    ++ indent in
  try_except
    (on_world (request (RunChain question)))
    (λ e,
       _ ← write (Logged ERROR
                    (py "Error getting recommendations: " ++ exn_str e));
       mret (py "Error: " ++ exn_str e)).

End Recommendations.

Definition analyze_genre_trends (year : Z) : M console pystr :=
  let question :=
    [newline]
    ++ indent ++ py "For movies released in " ++ str_of_int year ++ py ":"
    ++ [newline]
    ++ indent ++ py "1. Which genres were most popular?" ++ [newline]
    ++ indent ++ py "2. What was the average rating per genre?" ++ [newline]
    ++ indent ++ py "3. Which genre combinations appeared most frequently?"
    ++ [newline]
    ++ indent in
  try_except
    (on_world (request (RunChain question)))
    (λ e,
       _ ← write (Logged ERROR (py "Error analyzing trends: " ++ exn_str e));
       mret (py "Error: " ++ exn_str e)).

Definition custom_query (question : pystr) : M console pystr :=
  try_except
    (on_world (request (RunChain question)))
    (λ e,
       _ ← write (Logged ERROR (py "Error executing query: " ++ exn_str e));
       mret (py "Error: " ++ exn_str e)).

End MovieQueryMethods.

(** ** What a run has written *)

Module Written.
Import Py Eff World Console.

(** The reply to the [k]-th call from now. *)
Definition reply_from (c : console) (k : nat) : reply :=
  w_reply (con_world c) (k + w_calls (con_world c)).

Definition texts (c : console) : list line := map snd (con_lines c).

Definition events (c : console) : list event := w_trace (con_world c).

(** [m] puts one question to the chain and never raises: it returns the
    answer, or it logs the error after [prefix] and returns its text
    after [Error: ]. *)
Definition answers (question prefix : pystr) (m : M console pystr) : Prop :=
  ∀ c,
    match reply_from c 0 with
    | Returns t =>
        ∃ c', m c = (Ok t, c')
              ∧ texts c' = texts c
              ∧ events c' = events c ++ [EvCall (RunChain question) None]
    | Fails e _ =>
        ∃ c', m c = (Ok (py "Error: " ++ exn_str e), c')
              ∧ texts c' = texts c ++ [Logged ERROR (prefix ++ exn_str e)]
              ∧ events c' = events c ++ [EvCall (RunChain question) (Some e)]
    end.

End Written.

(** * Properties *)

Ltac eff_unfold :=
  unfold Eff.try_except, MovieGraphLoader.in_world, Eff.zoom,
    World.run_probe, World.close_driver, World.open_driver, World.sleep,
    World.log, Eff.modify, Eff.gets, Eff.raise, World.request,
    World.path_exists, World.read_csv,
    mbind, Eff.M_bind, mret, Eff.M_ret in *.

Section Effects.
Import Py Neo4j Eff World MovieGraphLoader Observe.

Lemma trace_emit_all evs w : w_trace (emit_all evs w) = w_trace w ++ evs.
Proof.
  revert w. induction evs as [|ev evs IH]; intros w; simpl.
  - by rewrite app_nil_r.
  - rewrite IH. simpl. by rewrite <- app_assoc.
Qed.

Lemma trace_later evs n s : trace_of (later evs n s) = trace_of s ++ evs.
Proof.
  unfold trace_of, later. simpl.
  induction n as [|n IH]; simpl; [apply trace_emit_all | exact IH].
Qed.

Lemma graph_later evs n s : graph_of (later evs n s) = graph_of s.
Proof.
  unfold graph_of, later. simpl.
  induction n as [|n IH]; simpl; [|exact IH].
  generalize (world_of s). induction evs as [|ev evs IHe]; intros w; simpl.
  - reflexivity.
  - by rewrite IHe.
Qed.

End Effects.

Section EnsureConnection.
Import Py Neo4j Eff World MovieGraphLoader Observe Scenario.

(** [_ensure_connection] by the replies to its calls. *)
Lemma ensure_connection_cases (self : loader) (s : state) :
  let d := self_driver s in
  let d' := Driver (w_drivers (world_of s)) (self_uri self)
              (self_username self) (self_password self) in
  ensure_connection self s =
    match reply_at s 0 with
    | Returns _ => (Ok tt, later [EvCall (RunProbe d) None] 1 s)
    | Fails e _ =>
        match reply_at s 1 with
        | Fails e1 _ =>
            (Raise e1,
             later [EvCall (RunProbe d) (Some e);
                    EvLog INFO MsgReconnecting;
                    EvCall (CloseDriver d) (Some e1)] 2 s)
        | Returns _ =>
            match reply_at s 2 with
            | Fails e2 _ =>
                (Raise e2,
                 later [EvCall (RunProbe d) (Some e);
                        EvLog INFO MsgReconnecting;
                        EvCall (CloseDriver d) None;
                        EvSleep 1;
                        EvCall (OpenDriver d') (Some e2)] 3 s)
            | Returns _ =>
                (Ok tt,
                 adopt d'
                   (later [EvCall (RunProbe d) (Some e);
                           EvLog INFO MsgReconnecting;
                           EvCall (CloseDriver d) None;
                           EvSleep 1;
                           EvCall (OpenDriver d') None] 3 s))
            end
        end
    end.
Proof.
  intros d d'. subst d d'. unfold ensure_connection, reply_at.
  eff_unfold. cbn.
  destruct (w_reply (world_of s) (w_calls (world_of s))); cbn; [done|].
  destruct (w_reply (world_of s) (S (w_calls (world_of s)))); cbn; [|done].
  destruct (w_reply (world_of s) (S (S (w_calls (world_of s))))); cbn; done.
Qed.

(** C9, as amended.  [_ensure_connection] by the replies to its calls:
    when the probe answers, nothing else happens and [self.driver] stays;
    when the probe raises, the driver is closed, and an error of [close]
    is raised on to the caller with no wait and no new driver; after a
    clean close come a sleep of 1 and a single call opening a driver
    from [self.uri], [self.username], [self.password], whose error is
    raised on to the caller, and whose result becomes [self.driver]. *)
Theorem ensure_connection_outcomes (self : loader) (s : state) :
  let d := self_driver s in
  let d' := Driver (w_drivers (world_of s)) (self_uri self)
              (self_username self) (self_password self) in
  ensure_connection self s =
    match reply_at s 0 with
    | Returns _ => (Ok tt, later [EvCall (RunProbe d) None] 1 s)
    | Fails e _ =>
        match reply_at s 1 with
        | Fails e1 _ =>
            (Raise e1,
             later [EvCall (RunProbe d) (Some e);
                    EvLog INFO MsgReconnecting;
                    EvCall (CloseDriver d) (Some e1)] 2 s)
        | Returns _ =>
            match reply_at s 2 with
            | Fails e2 _ =>
                (Raise e2,
                 later [EvCall (RunProbe d) (Some e);
                        EvLog INFO MsgReconnecting;
                        EvCall (CloseDriver d) None;
                        EvSleep 1;
                        EvCall (OpenDriver d') (Some e2)] 3 s)
            | Returns _ =>
                (Ok tt,
                 adopt d'
                   (later [EvCall (RunProbe d) (Some e);
                           EvLog INFO MsgReconnecting;
                           EvCall (CloseDriver d) None;
                           EvSleep 1;
                           EvCall (OpenDriver d') None] 3 s))
            end
        end
    end.
Proof. exact (ensure_connection_cases self s). Qed.

(** C9, as stated, fails: the probe raises and then [close] raises.  The
    error of [close] is not ignored: it is what [_ensure_connection]
    raises, and neither the wait nor the new driver follows. *)
Lemma close_error_is_raised :
  let s := connected [] [Fails unavailable false; Fails broken_pipe false] in
  fst (ensure_connection me s) = Raise broken_pipe
  ∧ List.filter is_sleep (trace_of (snd (ensure_connection me s))) = []
  ∧ List.filter is_open_driver (trace_of (snd (ensure_connection me s))) = []
  ∧ self_driver (snd (ensure_connection me s)) = driver0.
Proof. vm_compute. done. Qed.

End EnsureConnection.

Section InitializeConnections.
Import Py Eff World MovieQueryInterface Observe Attempts.

Lemma trace_app_cons (t : list event) (ev : event) (l : list event) :
  (t ++ [ev]) ++ l = t ++ ev :: l.
Proof. by rewrite <- app_assoc. Qed.

Lemma retry_after_open self k e rest r :
  S k < max_retries →
  attempts_from self (S k) rest r →
  attempts_from self k
    (EvCall (OpenGraph (self_uri self) (self_username self)
               (self_password self)) (Some e)
     :: EvLog WARNING (MsgConnectionAttemptFailed (k + 1))
     :: EvSleep 2 :: rest) r.
Proof.
  intros Hk Hrest.
  exact (attempt_fails_retry self k e _ rest r Hk (open_raises self e) Hrest).
Qed.

Lemma retry_after_query self k e rest r :
  S k < max_retries →
  attempts_from self (S k) rest r →
  attempts_from self k
    (EvCall (OpenGraph (self_uri self) (self_username self)
               (self_password self)) None
     :: EvCall QueryProbe (Some e)
     :: EvLog WARNING (MsgConnectionAttemptFailed (k + 1))
     :: EvSleep 2 :: rest) r.
Proof.
  intros Hk Hrest.
  exact (attempt_fails_retry self k e _ rest r Hk (query_raises self e) Hrest).
Qed.

(** C8.  The connection loop of [_initialize_connections] makes at most
    three attempts; after a failed attempt that is not the third it logs a
    warning and sleeps 2 before the next one; the error of the third failed
    attempt is raised, and [_initialize_connections] raises it on without
    making any further call. *)
Theorem initialize_connections_attempts (self : interface) (w : world) :
  ∃ new,
    w_trace (snd (connection_loop self (seq 0 max_retries) w)) = w_trace w ++ new
    ∧ attempts_from self 0 new
        (fst (connection_loop self (seq 0 max_retries) w))
    ∧ length (List.filter is_open_graph new) ≤ 3
    ∧ match fst (connection_loop self (seq 0 max_retries) w) with
      | Ok _ => True
      | Raise e =>
          length (List.filter is_open_graph new) = 3
          ∧ List.filter is_sleep new = [EvSleep 2; EvSleep 2]
          ∧ initialize_connections self w
            = (Raise e, snd (connection_loop self (seq 0 max_retries) w))
      end.
Proof.
  unfold initialize_connections.
  unfold connection_loop, connection_attempt, max_retries. simpl seq.
  eff_unfold. cbn.
  repeat match goal with
  | |- context [match w_reply w ?n with _ => _ end] =>
      destruct (w_reply w n); cbn
  end.
  all: rewrite ?trace_app_cons.
  all: eexists; split; [reflexivity|].
  all: split; [|cbn; split; [lia|try done]].
  all: try (repeat split; done).
  all: repeat first
    [ apply attempt_succeeds; unfold max_retries; lia
    | apply (attempt_fails_last self); constructor
    | apply retry_after_open; [unfold max_retries; lia|]
    | apply retry_after_query; [unfold max_retries; lia|] ].
Qed.

End InitializeConnections.

Section Insights.
Import Py Eff World MovieQueryInterface Observe Attempts.

Lemma dict_get_set_eq k v d : dict_get k (dict_set k v d) = Some v.
Proof.
  induction d as [|[k' v'] d IH]; simpl.
  - by rewrite decide_True.
  - destruct (decide (k' = k)) as [->|Hne]; simpl.
    + by rewrite decide_True.
    + by rewrite decide_False.
Qed.

Lemma dict_get_set_ne k k' v d :
  k ≠ k' → dict_get k' (dict_set k v d) = dict_get k' d.
Proof.
  intros Hne. induction d as [|[k0 v0] d IH]; simpl.
  - by rewrite decide_False.
  - destruct (decide (k0 = k)) as [->|Hne0]; simpl.
    + by rewrite !decide_False.
    + destruct (decide (k0 = k')); [done | exact IH].
Qed.

Lemma dict_keys_set_new k v d :
  dict_get k d = None → map fst (dict_set k v d) = map fst d ++ [k].
Proof.
  induction d as [|[k0 v0] d IH]; simpl; [done|].
  destruct (decide (k0 = k)); [done|]. intros H. simpl. by rewrite IH.
Qed.

Lemma ask_spec insights question w :
  ∃ o,
    ask insights question w
    = (Ok (dict_set question (slot (w_reply w (w_calls w))) insights),
       emit_all [EvLog INFO (MsgQuerying question);
                 EvCall (RunChain question) o] (count_call w))
      ∨ ∃ e,
        ask insights question w
        = (Ok (dict_set question (slot (w_reply w (w_calls w))) insights),
           emit_all [EvLog INFO (MsgQuerying question);
                     EvCall (RunChain question) o;
                     EvLog ERROR (MsgErrorQuerying question e)]
             (count_call w)).
Proof.
  unfold ask. eff_unfold. cbn.
  destruct (w_reply w (w_calls w)) as [t|e c]; cbn.
  - exists None. by left.
  - exists (Some e). right. by exists e.
Qed.

Lemma ask_all_spec qs : ∀ insights w,
  NoDup qs →
  (∀ q, q ∈ qs → dict_get q insights = None) →
  ∃ d w',
    ask_all qs insights w = (Ok d, w')
    ∧ map fst d = map fst insights ++ qs
    ∧ w_calls w' = length qs + w_calls w
    ∧ w_reply w' = w_reply w
    ∧ (∀ ev, ev ∈ w_trace w → ev ∈ w_trace w')
    ∧ (∀ q, q ∉ qs → dict_get q d = dict_get q insights)
    ∧ (∀ k q, qs !! k = Some q →
         dict_get q d = Some (slot (w_reply w (k + w_calls w)))
         ∧ ∃ o, EvCall (RunChain q) o ∈ w_trace w').
Proof.
  induction qs as [|q0 qs IH]; intros insights w Hnd Hfresh.
  - exists insights, w. simpl. rewrite app_nil_r. repeat split; try done.
  - apply NoDup_cons in Hnd as [Hq0 Hnd].
    set (ins1 := dict_set q0 (slot (w_reply w (w_calls w))) insights).
    assert (Hstep : ∃ w1 o,
      ask insights q0 w = (Ok ins1, w1)
      ∧ w_calls w1 = S (w_calls w) ∧ w_reply w1 = w_reply w
      ∧ (∀ ev, ev ∈ w_trace w → ev ∈ w_trace w1)
      ∧ EvCall (RunChain q0) o ∈ w_trace w1).
    { destruct (ask_spec insights q0 w) as [o [H|[e H]]];
        eexists _, o; (split; [exact H|]); cbn; repeat split;
        try (intros ev Hev); set_solver. }
    destruct Hstep as (w1 & o & Hask & Hcalls & Hreply & Hmono & Hcall).
    destruct (IH ins1 w1 Hnd) as (d & w' & Hrun & Hkeys & Hc & Hr & Hm & Hold & Hnew).
    { intros q Hq. unfold ins1. rewrite dict_get_set_ne.
      - apply Hfresh. by right.
      - intros ->. done. }
    exists d, w'. repeat split.
    + simpl. unfold mbind, M_bind. by rewrite Hask.
    + rewrite Hkeys. unfold ins1. rewrite dict_keys_set_new.
      * by rewrite <- app_assoc.
      * apply Hfresh. by left.
    + rewrite Hc, Hcalls. simpl. lia.
    + by rewrite Hr.
    + intros ev Hev. by apply Hm, Hmono.
    + intros q Hq. rewrite Hold.
      * unfold ins1. apply dict_get_set_ne. intros ->. apply Hq. by left.
      * intros Hin. apply Hq. by right.
    + destruct k as [|k]; simpl in H; simplify_eq.
      * rewrite Hold by done. unfold ins1. simpl. apply dict_get_set_eq.
      * destruct (Hnew k q H) as [Hget _]. rewrite Hget, Hreply, Hcalls.
        do 3 f_equal. lia.
    + destruct k as [|k]; simpl in H; simplify_eq.
      * exists o. by apply Hm.
      * by destruct (Hnew k q H) as [_ Hev].
Qed.

(** C5.  [get_movie_insights] never raises; the mapping it returns has
    the five questions as its keys; every question is put to the chain, and
    its slot holds the answer, or, when that call raised, the text of the
    error after [Error: ]. *)
Theorem get_movie_insights_answers_all (w : world) :
  ∃ insights w',
    get_movie_insights w = (Ok insights, w')
    ∧ map fst insights = questions
    ∧ length questions = 5
    ∧ ∀ k question, questions !! k = Some question →
        (∃ o, EvCall (RunChain question) o ∈ w_trace w')
        ∧ dict_get question insights
          = Some match w_reply w (k + w_calls w) with
                 | Returns answer => PStr answer
                 | Fails e _ => PStr (py "Error: " ++ exn_str e)
                 end.
Proof.
  destruct (ask_all_spec questions [] w) as (d & w' & Hrun & Hkeys & _ & _ & _ & _ & Hq).
  - apply (bool_decide_unpack _). by vm_compute.
  - done.
  - exists d, w'. repeat split; try done.
    + by destruct (Hq k question H).
    + destruct (Hq k question H) as [Hget _]. rewrite Hget. unfold slot.
      by destruct (w_reply w (k + w_calls w)).
Qed.

End Insights.

Section DatasetPath.
Import Py Neo4j Eff World MovieGraphLoader Observe Scenario.

(** C7, as amended.  When [os.path.exists] is false for the path,
    [load_movies] logs one error and raises [FileNotFoundError] to its
    caller: the table is not read, no statement is sent, the store and
    [self.driver] are as they were.  When [os.path.exists] is true and
    the read of the path fails, whatever the error, the guard has let the
    path through: [read_csv] is called once and its error is what
    [load_movies] raises, again with no statement sent and the store as
    it was. *)
Theorem load_movies_missing_path (self : loader) (csv_path : pystr)
    (s : state) :
  (w_exists (world_of s) csv_path = false →
   load_movies self csv_path s
   = (Raise (csv_not_found csv_path),
      later [EvCall (PathExists csv_path) None;
             EvLog ERROR (MsgCsvNotFound csv_path)] 0 s)
   ∧ exn_type (csv_not_found csv_path) = FileNotFoundError
   ∧ w_store (world_of (snd (load_movies self csv_path s)))
     = w_store (world_of s)
   ∧ List.filter is_read_csv (trace_of (snd (load_movies self csv_path s)))
     = List.filter is_read_csv (trace_of s)
   ∧ List.filter is_statement (trace_of (snd (load_movies self csv_path s)))
     = List.filter is_statement (trace_of s))
  ∧ (w_exists (world_of s) csv_path = true →
     ∀ e, w_csv (world_of s) csv_path = Raise e →
     load_movies self csv_path s
     = (Raise e,
        later [EvCall (PathExists csv_path) None;
               EvLog INFO (MsgReadingCsv csv_path);
               EvCall (ReadCsv csv_path) (Some e)] 0 s)
     ∧ w_store (world_of (snd (load_movies self csv_path s)))
       = w_store (world_of s)
     ∧ List.filter is_read_csv (trace_of (snd (load_movies self csv_path s)))
       = List.filter is_read_csv (trace_of s)
         ++ [EvCall (ReadCsv csv_path) (Some e)]
     ∧ List.filter is_statement
         (trace_of (snd (load_movies self csv_path s)))
       = List.filter is_statement (trace_of s)).
Proof.
  split.
  - intros Hmissing.
    assert (Hrun : load_movies self csv_path s
      = (Raise (csv_not_found csv_path),
         later [EvCall (PathExists csv_path) None;
                EvLog ERROR (MsgCsvNotFound csv_path)] 0 s)).
    { unfold load_movies. eff_unfold. cbn -[batch_size py_range load_batch].
      rewrite Hmissing. reflexivity. }
    rewrite Hrun. repeat split; cbn.
    + unfold trace_of. cbn. rewrite !List.filter_app. cbn. by rewrite !app_nil_r.
    + unfold trace_of. cbn. rewrite !List.filter_app. cbn. by rewrite !app_nil_r.
  - intros Hfound e Hread.
    assert (Hrun : load_movies self csv_path s
      = (Raise e,
         later [EvCall (PathExists csv_path) None;
                EvLog INFO (MsgReadingCsv csv_path);
                EvCall (ReadCsv csv_path) (Some e)] 0 s)).
    { unfold load_movies, read_csv. eff_unfold.
      cbn -[batch_size py_range load_batch].
      rewrite Hfound. cbn -[batch_size py_range load_batch].
      rewrite Hread. reflexivity. }
    rewrite Hrun. split; [reflexivity|]. split; [reflexivity|]. split.
    + unfold trace_of. cbn. rewrite !List.filter_app. cbn.
      by rewrite !app_nil_r.
    + unfold trace_of. cbn. rewrite !List.filter_app. cbn.
      by rewrite !app_nil_r.
Qed.

Lemma load_movies_missing_path_witness :
  load_movies me dataset_path no_file
  = (Raise (csv_not_found dataset_path),
     later [EvCall (PathExists dataset_path) None;
            EvLog ERROR (MsgCsvNotFound dataset_path)] 0 no_file)
  ∧ load_movies me dataset_path unreadable_file
    = (Raise is_a_directory,
       later [EvCall (PathExists dataset_path) None;
              EvLog INFO (MsgReadingCsv dataset_path);
              EvCall (ReadCsv dataset_path) (Some is_a_directory)] 0
         unreadable_file).
Proof.
  split.
  - exact (proj1 (proj1 (load_movies_missing_path me dataset_path no_file)
                    eq_refl)).
  - exact (proj1 (proj2 (load_movies_missing_path me dataset_path
                           unreadable_file)
                    eq_refl is_a_directory eq_refl)).
Defined.

(** C7, as stated, fails on a path that exists and is not a readable
    file: [load_movies] goes on to read it, and what it raises is the
    error of the read, not [FileNotFoundError]. *)
Lemma unreadable_path_is_read :
  fst (load_movies me dataset_path unreadable_file) = Raise is_a_directory
  ∧ exn_type is_a_directory ≠ FileNotFoundError
  ∧ List.filter is_read_csv
      (trace_of (snd (load_movies me dataset_path unreadable_file)))
    = [EvCall (ReadCsv dataset_path) (Some is_a_directory)]
  ∧ w_store (world_of (snd (load_movies me dataset_path unreadable_file)))
    = w_store (world_of unreadable_file).
Proof.
  split; [by vm_compute|]. split; [discriminate|].
  split; by vm_compute.
Qed.

End DatasetPath.

Section Batches.
Import Py Pandas Neo4j Eff World MovieGraphLoader Observe Scenario.

Lemma world_ext (w w' : world) :
  w_store w = w_store w' → w_exists w = w_exists w' → w_csv w = w_csv w' →
  w_reply w = w_reply w' → w_calls w = w_calls w' →
  w_drivers w = w_drivers w' → w_trace w = w_trace w' → w = w'.
Proof. destruct w, w'; simpl; congruence. Qed.

Lemma emit_all_app evs evs' w :
  emit_all (evs ++ evs') w = emit_all evs' (emit_all evs w).
Proof. unfold emit_all. apply foldl_app. Qed.

Lemma emit_all_fields evs w :
  w_store (emit_all evs w) = w_store w
  ∧ w_exists (emit_all evs w) = w_exists w
  ∧ w_csv (emit_all evs w) = w_csv w
  ∧ w_reply (emit_all evs w) = w_reply w
  ∧ w_calls (emit_all evs w) = w_calls w
  ∧ w_drivers (emit_all evs w) = w_drivers w.
Proof.
  revert w. induction evs as [|ev evs IH]; intros w; simpl; [done|].
  destruct (IH (emit ev w)) as (-> & -> & -> & -> & -> & ->). done.
Qed.

Lemma store_emit_all evs w : w_store (emit_all evs w) = w_store w.
Proof. apply emit_all_fields. Qed.
Lemma reply_emit_all evs w : w_reply (emit_all evs w) = w_reply w.
Proof. apply emit_all_fields. Qed.
Lemma calls_emit_all evs w : w_calls (emit_all evs w) = w_calls w.
Proof. apply emit_all_fields. Qed.
Lemma drivers_emit_all evs w : w_drivers (emit_all evs w) = w_drivers w.
Proof. apply emit_all_fields. Qed.
Lemma exists_emit_all evs w : w_exists (emit_all evs w) = w_exists w.
Proof. apply emit_all_fields. Qed.
Lemma csv_emit_all evs w : w_csv (emit_all evs w) = w_csv w.
Proof. apply emit_all_fields. Qed.


Lemma clean_record_pure record w :
  clean_record record w
  = (fst (clean_record record blank),
     emit_all (w_trace (snd (clean_record record blank))) w).
Proof.
  unfold clean_record. eff_unfold. cbn.
  destruct (clean_items record []) as [cr|e]; cbn. 2:{ reflexivity. }
  destruct (dict_get (py "genres") cr) as [v|]; cbn; [|done].
  destruct (genres_of v); cbn; done.
Qed.

Lemma clean_batch_pure batch : ∀ w,
  clean_batch batch w = (cleaned batch, emit_all (warnings batch) w).
Proof.
  unfold cleaned, warnings.
  induction batch as [|record rest IH]; intros w; [done|].
  cbn [clean_batch]. unfold mbind, M_bind.
  rewrite (clean_record_pure record w), (clean_record_pure record blank).
  destruct (fst (clean_record record blank)) as [r|e]; cbn [fst snd].
  - rewrite (IH (emit_all _ w)), (IH (emit_all _ blank)).
    destruct (fst (clean_batch rest blank)) as [rs|e]; cbn [fst snd mret M_ret].
    all: f_equal.
    all: rewrite !trace_emit_all; change (w_trace blank) with (@nil event).
    all: by rewrite !app_nil_l, emit_all_app.
  - reflexivity.
Qed.



Lemma process_movie_batch_cases batch s :
  process_movie_batch batch s =
    let s1 := later (warnings batch) 0 s in
    match cleaned batch with
    | Raise e => (Raise e, s1)
    | Ok movies =>
        let call := RunUpsert (self_driver s) movies in
        match upsert movies (graph_of s) with
        | Raise e =>
            match reply_at s 0 with
            | Returns _ => (Raise e, later [EvCall call (Some e)] 1 s1)
            | Fails e' _ => (Raise e', later [EvCall call (Some e')] 1 s1)
            end
        | Ok g =>
            match reply_at s 0 with
            | Returns _ => (Ok tt, with_graph g (later [EvCall call None] 1 s1))
            | Fails e committed =>
                (Raise e,
                 if committed
                 then with_graph g (later [EvCall call (Some e)] 1 s1)
                 else later [EvCall call (Some e)] 1 s1)
            end
        end
    end.
Proof.
  unfold process_movie_batch. eff_unfold. unfold run_upsert, statement.
  cbn [fst snd]. rewrite clean_batch_pure.
  destruct (cleaned batch) as [movies|e]; [|reflexivity].
  unfold reply_at, graph_of, later, with_graph. cbn.
  rewrite !store_emit_all, !calls_emit_all, !reply_emit_all.
  destruct (upsert movies (st_graph (w_store (world_of s)))) as [g|e]; cbn.
  - destruct (w_reply (world_of s) (w_calls (world_of s))) as [t|e c]; cbn.
    + reflexivity.
    + destruct c; reflexivity.
  - destruct (w_reply (world_of s) (w_calls (world_of s))) as [t|e' c]; cbn;
      reflexivity.
Qed.


Lemma try_batch_cases self df batch s :
  try_batch self df batch s =
    match process_movie_batch batch s with
    | (Raise e, s1) => (Raise e, s1)
    | (Ok _, s1) =>
        let s2 := counted (length batch) (length df) s1 in
        if (total_processed s2 `mod` 50000 =? 0)%Z
        then ensure_connection self s2
        else (Ok tt, s2)
    end.
Proof.
  unfold try_batch. unfold mbind at 1. unfold M_bind at 1.
  destruct (process_movie_batch batch s) as [[[]|e] s1]; [|reflexivity].
  unfold counted. eff_unfold. cbn -[Z.modulo Z.eqb].
  destruct (_ =? _)%Z; reflexivity.
Qed.

Lemma except_batch_cases self i batch e s :
  except_batch self i batch e s =
    match ensure_connection self
            (later [EvLog ERROR
                      (MsgErrorProcessingBatch i (i + batch_size) e)] 0 s) with
    | (Raise e', s2) => (Raise e', s2)
    | (Ok _, s2) =>
        match process_movie_batch batch s2 with
        | (Ok _, s3) => (Ok tt, s3)
        | (Raise e2, s3) => (Ok tt, later [EvLog ERROR (MsgRetryFailed e2)] 0 s3)
        end
    end.
Proof.
  unfold except_batch. unfold mbind at 1. unfold M_bind at 1.
  change (in_world (log ERROR (MsgErrorProcessingBatch i (i + batch_size) e)) s)
    with (@Ok unit tt,
          later [EvLog ERROR (MsgErrorProcessingBatch i (i + batch_size) e)] 0 s).
  cbv iota beta. unfold mbind at 1. unfold M_bind at 1.
  destruct (ensure_connection self _) as [[[]|e'] s2]; [|reflexivity].
  unfold try_except.
  destruct (process_movie_batch batch s2) as [[[]|e2] s3]; reflexivity.
Qed.

Lemma load_batch_cases self df i s :
  load_batch self df i s =
    let batch := iloc i (i + batch_size) df in
    match try_batch self df batch s with
    | (Ok _, s1) => (Ok tt, s1)
    | (Raise e, s1) => except_batch self i batch e s1
    end.
Proof.
  unfold load_batch, try_except. cbv zeta.
  destruct (try_batch _ _ _ _) as [[[]|e] s1]; reflexivity.
Qed.


(** What a step leaves untouched, and what it adds to the trace. *)

Lemma no_progress_app evs evs' :
  no_progress evs → no_progress evs' → no_progress (evs ++ evs').
Proof. apply Forall_app_2. Qed.

Lemma no_progress_filter evs : no_progress evs → List.filter is_progress evs = [].
Proof.
  induction 1 as [|ev evs Hev _ IH]; simpl; [done|]. by rewrite Hev.
Qed.

Lemma clean_record_trace record w :
  ∃ evs, w_trace (snd (clean_record record w)) = w_trace w ++ evs
         ∧ no_progress evs.
Proof.
  unfold clean_record. eff_unfold. cbn.
  destruct (clean_items record []) as [cr|e]; cbn;
    [|exists []; split; [by rewrite app_nil_r | constructor]].
  destruct (dict_get (py "genres") cr) as [v|]; cbn;
    [|exists []; split; [by rewrite app_nil_r | constructor]].
  destruct (genres_of v) as [l|e]; cbn.
  - exists []. split; [by rewrite app_nil_r | constructor].
  - eexists [_]. split; [reflexivity|]. by repeat constructor.
Qed.

Lemma clean_batch_trace batch : ∀ w,
  ∃ evs, w_trace (snd (clean_batch batch w)) = w_trace w ++ evs
         ∧ no_progress evs.
Proof.
  induction batch as [|record rest IH]; intros w.
  - exists []. split; [by rewrite app_nil_r | constructor].
  - cbn [clean_batch]. unfold mbind, M_bind.
    destruct (clean_record_trace record w) as (evs1 & Htr1 & Hq1).
    destruct (clean_record record w) as [[r|e] w1]; cbn [snd] in *.
    + destruct (IH w1) as (evs2 & Htr2 & Hq2).
      destruct (clean_batch rest w1) as [[rs|e] w2]; cbn [snd mret M_ret] in *;
        exists (evs1 ++ evs2); rewrite Htr2, Htr1, <- app_assoc;
        (split; [done | by apply no_progress_app]).
    + by exists evs1.
Qed.

Lemma warnings_no_progress batch : no_progress (warnings batch).
Proof.
  destruct (clean_batch_trace batch blank) as (evs & Htr & Hq).
  unfold warnings. by rewrite Htr.
Qed.

Lemma process_movie_batch_frame batch s :
  total_processed (snd (process_movie_batch batch s)) = total_processed s
  ∧ self_driver (snd (process_movie_batch batch s)) = self_driver s
  ∧ w_reply (world_of (snd (process_movie_batch batch s))) = w_reply (world_of s)
  ∧ ∃ evs, trace_of (snd (process_movie_batch batch s)) = trace_of s ++ evs
           ∧ no_progress evs.
Proof.
  rewrite process_movie_batch_cases. cbv zeta.
  pose proof (warnings_no_progress batch) as Hw.
  assert (Hone : ∀ c o, no_progress (warnings batch ++ [EvCall c o])).
  { intros. apply no_progress_app; [done | by repeat constructor]. }
  destruct (cleaned batch) as [movies|e]; cbn [snd].
  - destruct (upsert movies (graph_of s)) as [g|e]; cbn [snd];
      [destruct (reply_at s 0) as [t|e [|]]; cbn [snd]
      |destruct (reply_at s 0) as [t|e' c']; cbn [snd]];
      unfold with_graph;
      cbn [total_processed self_driver set_world later world_of];
      (split; [done|]); (split; [done|]);
      (split; [cbn; by rewrite reply_emit_all|]);
      eexists;
      (split; [unfold trace_of; cbn; rewrite trace_emit_all, <- app_assoc;
               reflexivity | apply Hone]).
  - split; [done|]. split; [done|]. split; [cbn; by rewrite reply_emit_all|].
    exists (warnings batch). split; [|done].
    unfold trace_of. cbn. by rewrite trace_emit_all.
Qed.

Lemma ensure_connection_frame self s :
  total_processed (snd (ensure_connection self s)) = total_processed s
  ∧ graph_of (snd (ensure_connection self s)) = graph_of s
  ∧ w_reply (world_of (snd (ensure_connection self s))) = w_reply (world_of s)
  ∧ ∃ o rest,
      trace_of (snd (ensure_connection self s))
      = trace_of s ++ EvCall (RunProbe (self_driver s)) o :: rest
      ∧ no_progress rest
      ∧ List.filter is_upsert rest = [].
Proof.
  rewrite ensure_connection_cases. cbv zeta.
  destruct (reply_at s 0) as [t|e c]; [|destruct (reply_at s 1) as [t1|e1 c1];
    [destruct (reply_at s 2) as [t2|e2 c2]|]]; cbn [snd];
    (split; [done|]); (split; [done|]); (split; [done|]);
    eexists _, _; (split; [unfold trace_of; cbn; rewrite <- ?app_assoc; reflexivity|]);
    (split; [unfold no_progress; repeat constructor | reflexivity]).
Qed.


Lemma except_batch_frame self i batch e s :
  total_processed (snd (except_batch self i batch e s)) = total_processed s
  ∧ ∃ evs, trace_of (snd (except_batch self i batch e s)) = trace_of s ++ evs
           ∧ no_progress evs.
Proof.
  rewrite except_batch_cases.
  set (s1 := later _ 0 s).
  destruct (ensure_connection_frame self s1) as (Ht1 & _ & _ & o & rest & Htr1 & Hq1 & _).
  assert (Htrs1 : trace_of s1 = trace_of s ++ [EvLog ERROR (MsgErrorProcessingBatch i (i + batch_size) e)])
    by apply trace_later.
  destruct (ensure_connection self s1) as [[[]|e'] s2]; cbn [snd] in *.
  - destruct (process_movie_batch_frame batch s2) as (Ht2 & _ & _ & evs2 & Htr2 & Hq2).
    destruct (process_movie_batch batch s2) as [[[]|e2] s3]; cbn [snd] in *.
    + split; [by rewrite Ht2, Ht1|].
      eexists. split; [rewrite Htr2, Htr1, Htrs1, <- !app_assoc; reflexivity|].
      repeat first [apply no_progress_app | done | by repeat constructor].
    + split; [change (total_processed s3 = total_processed s); by rewrite Ht2, Ht1|].
      eexists. split.
      * rewrite trace_later, Htr2, Htr1, Htrs1, <- !app_assoc. reflexivity.
      * repeat first [apply no_progress_app | done | by repeat constructor].
  - split; [done|].
    eexists. split; [rewrite Htr1, Htrs1, <- !app_assoc; reflexivity|].
    repeat first [apply no_progress_app | done | by repeat constructor].
Qed.

Lemma events_since_app s s' evs :
  trace_of s' = trace_of s ++ evs → events_since s s' = evs.
Proof. intros H. unfold events_since. rewrite H. apply drop_app_length. Qed.

Lemma load_batch_counts self df i s :
  let batch := iloc i (i + batch_size) df in
  let s' := snd (load_batch self df i s) in
  match process_movie_batch batch s with
  | (Ok _, _) =>
      total_processed s' = (total_processed s + Z.of_nat (length batch))%Z
  | (Raise e, s1) =>
      total_processed s' = total_processed s
      ∧ List.filter is_progress (events_since s s') = []
      ∧ ∀ s2 s3,
          ensure_connection self
            (later [EvLog ERROR
                      (MsgErrorProcessingBatch i (i + batch_size) e)] 0 s1)
          = (Ok tt, s2) →
          process_movie_batch batch s2 = (Ok tt, s3) →
          load_batch self df i s = (Ok tt, s3)
          ∧ total_processed s3 = total_processed s
          ∧ ∃ movies, cleaned batch = Ok movies
                      ∧ upsert movies (graph_of s2) = Ok (graph_of s3)
  end.
Proof.
  intros batch s'. subst s'. rewrite load_batch_cases. cbv zeta.
  rewrite try_batch_cases. cbv zeta. fold batch.
  destruct (process_movie_batch_frame batch s) as (Ht & _ & _ & evs & Htr & Hq).
  destruct (process_movie_batch batch s) as [[[]|e] s1] eqn:Hp; cbn [snd] in *.
  - set (s2 := counted _ _ s1).
    assert (Hs2 : total_processed s2 = (total_processed s + Z.of_nat (length batch))%Z).
    { unfold s2, counted. cbn. by rewrite Ht. }
    destruct (_ =? _)%Z; [|done].
    destruct (ensure_connection_frame self s2) as (Ht2 & _).
    destruct (ensure_connection self s2) as [[[]|e] s3]; cbn [snd] in *.
    + by rewrite Ht2.
    + destruct (except_batch_frame self i batch e s3) as [Ht3 _]. by rewrite Ht3, Ht2.
  - destruct (except_batch_frame self i batch e s1) as (Ht1 & evs1 & Htr1 & Hq1).
    split; [by rewrite Ht1|]. split.
    + rewrite (events_since_app s _ (evs ++ evs1)).
      * apply no_progress_filter. by apply no_progress_app.
      * by rewrite Htr1, Htr, <- app_assoc.
    + intros s2 s3 Hens Hretry. rewrite except_batch_cases, Hens, Hretry.
      split; [done|]. split.
      * destruct (process_movie_batch_frame batch s2) as (Hta & _).
        destruct (ensure_connection_frame self (later [EvLog ERROR (MsgErrorProcessingBatch i (i + batch_size) e)] 0 s1)) as (Htb & _).
        rewrite Hretry in Hta. rewrite Hens in Htb. cbn [snd] in *.
        by rewrite Hta, Htb.
      * rewrite process_movie_batch_cases in Hretry. cbv zeta in Hretry.
        destruct (cleaned batch) as [movies|e0]; [|done].
        exists movies. split; [done|].
        destruct (upsert movies (graph_of s2)) as [g|e0];
          [|by destruct (reply_at s2 0)].
        destruct (reply_at s2 0) as [t|e0 c0]; [|done].
        injection Hretry as <-. do 2 f_equal.
Qed.


Lemma load_batch_checkpoint self df i s s1 :
  let batch := iloc i (i + batch_size) df in
  process_movie_batch batch s = (Ok tt, s1) →
  let s2 := counted (length batch) (length df) s1 in
  total_processed s2 = (total_processed s + Z.of_nat (length batch))%Z
  ∧ trace_of s2
    = trace_of s1 ++ [EvLog INFO (MsgProcessed (total_processed s2) (length df));
                      EvSleep (1 # 2)]
  ∧ if (total_processed s2 `mod` 50000 =? 0)%Z
    then ∃ o rest,
           trace_of (snd (load_batch self df i s))
           = trace_of s2 ++ EvCall (RunProbe (self_driver s2)) o :: rest
    else load_batch self df i s = (Ok tt, s2).
Proof.
  intros batch Hp s2.
  destruct (process_movie_batch_frame batch s) as (Ht & _).
  rewrite Hp in Ht. cbn [snd] in Ht.
  split; [unfold s2, counted; cbn; by rewrite Ht|].
  split; [unfold s2, counted; by rewrite trace_later|].
  rewrite load_batch_cases. cbv zeta. rewrite try_batch_cases. fold batch.
  rewrite Hp. cbv zeta. fold s2.
  destruct (_ =? _)%Z; [|done].
  destruct (ensure_connection_frame self s2) as (_ & _ & _ & o & rest & Htr & _).
  destruct (ensure_connection self s2) as [[[]|e] s3]; cbn [snd] in *.
  - by exists o, rest.
  - destruct (except_batch_frame self i batch e s3) as (_ & evs & Htr3 & _).
    exists o, (rest ++ evs). rewrite Htr3, Htr, <- app_assoc. done.
Qed.

End Batches.

Section Checkpoint.
Import Py Pandas Neo4j Eff World MovieGraphLoader Observe Scenario.

Lemma forallb_replicate {A} (p : A → bool) n x :
  p x = true → forallb p (replicate n x) = true.
Proof. intros H. induction n as [|n IH]; simpl; [done|]. by rewrite H, IH. Qed.

Lemma iloc_replicate {A} i j n (x : A) :
  iloc i j (replicate n x) = replicate (Nat.min (j - i) (n - i)) x.
Proof. unfold iloc. by rewrite drop_replicate, take_replicate. Qed.

Lemma cleaned_replicate n r r' :
  clean_record r blank = (Ok r', blank) →
  cleaned (replicate n r) = Ok (replicate n r')
  ∧ warnings (replicate n r) = [].
Proof.
  intros Hr. unfold cleaned, warnings.
  induction n as [|n IH]; [done|].
  cbn [replicate clean_batch]. unfold mbind, M_bind. rewrite Hr.
  destruct (clean_batch (replicate n r) blank) as [res w]. cbn [fst snd] in IH.
  destruct IH as [-> Hw]. done.
Qed.

Lemma upsert_replicate n r g :
  forallb (λ kv, packable (snd kv)) r = true → valid_movie r = true →
  upsert (replicate n r) g = Ok (foldl upsert_movie g (replicate n r)).
Proof.
  intros Hp Hv. unfold upsert.
  rewrite (forallb_replicate (λ r, forallb (λ kv, packable (snd kv)) r) n r Hp).
  by rewrite (forallb_replicate _ n r Hv).
Qed.

Lemma batch_size_pos : 0 < batch_size.
Proof. apply Nat.ltb_lt. by vm_compute. Qed.

Lemma batch_size_Z : Z.of_nat batch_size = 40000%Z.
Proof. by vm_compute. Qed.

Opaque batch_size.

Lemma range_two_batches n :
  (40000 < n ≤ 80000)%Z →
  py_range (length (replicate (Z.to_nat n) movie1)) batch_size
  = [0; batch_size].
Proof.
  intros Hn. unfold py_range. rewrite length_replicate.
  pose proof batch_size_Z as Hbs.
  replace ((Z.to_nat n + batch_size - 1) `div` batch_size) with 2.
  - simpl. by rewrite Nat.add_0_r.
  - apply (Nat.div_unique _ _ 2 (Z.to_nat n - batch_size - 1)); lia.
Qed.

Lemma first_batch n :
  (40000 ≤ n)%Z →
  iloc 0 (0 + batch_size) (replicate (Z.to_nat n) movie1)
  = replicate batch_size movie1.
Proof.
  intros Hn. pose proof batch_size_Z as Hbs.
  rewrite iloc_replicate. f_equal; lia.
Qed.

Lemma second_batch n :
  (40000 ≤ n ≤ 80000)%Z →
  iloc batch_size (batch_size + batch_size) (replicate (Z.to_nat n) movie1)
  = replicate (Z.to_nat (n - 40000)) movie1.
Proof.
  intros Hn. pose proof batch_size_Z as Hbs.
  rewrite iloc_replicate. f_equal; lia.
Qed.

Lemma movie1_clean : clean_record movie1 blank = (Ok movie1, blank).
Proof. by vm_compute. Qed.

Lemma movie1_valid :
  forallb (λ kv, packable (snd kv)) movie1 = true ∧ valid_movie movie1 = true.
Proof. by vm_compute. Qed.

(** A turn of the loop in which the upsert answers at once, and, when the
    total is a multiple of 50,000, so does the probe. *)
Lemma load_batch_ok self df i s movies g t :
  let batch := iloc i (i + batch_size) df in
  cleaned batch = Ok movies →
  upsert movies (graph_of s) = Ok g →
  reply_at s 0 = Returns t →
  let s2 := counted (length batch) (length df)
              (with_graph g
                 (later [EvCall (RunUpsert (self_driver s) movies) None] 1
                    (later (warnings batch) 0 s))) in
  load_batch self df i s
  = if (total_processed s2 `mod` 50000 =? 0)%Z
    then match reply_at s2 0 with
         | Returns _ =>
             (Ok tt, later [EvCall (RunProbe (self_driver s)) None] 1 s2)
         | Fails _ _ => load_batch self df i s
         end
    else (Ok tt, s2).
Proof.
  intros batch Hc Hu Hr s2.
  assert (Hp : process_movie_batch batch s
               = (Ok tt, with_graph g
                    (later [EvCall (RunUpsert (self_driver s) movies) None] 1
                       (later (warnings batch) 0 s)))).
  { rewrite process_movie_batch_cases. cbv zeta. by rewrite Hc, Hu, Hr. }
  destruct (_ =? _)%Z eqn:Hmod.
  - destruct (reply_at s2 0) as [t'|] eqn:Hr2; [|reflexivity].
    rewrite load_batch_cases. cbv zeta. rewrite try_batch_cases. fold batch.
    rewrite Hp. cbv zeta. fold s2. rewrite Hmod.
    rewrite ensure_connection_cases. cbv zeta. by rewrite Hr2.
  - destruct (load_batch_checkpoint self df i s _ Hp) as (_ & _ & Hrun).
    fold batch s2 in Hrun. by rewrite Hmod in Hrun.
Qed.

Lemma load_movies_ready df :
  load_movies me dataset_path (connected df [])
  = (_ ← for_each (py_range (length df) batch_size) (load_batch me df);
     in_world (log INFO MsgFinishedLoading)) (ready df).
Proof. reflexivity. Qed.

Lemma bind_ok {St A B} (m : M St A) (f : A → M St B) s a s' :
  m s = (Ok a, s') → (m ≫= f) s = f a s'.
Proof. intros H. unfold mbind, M_bind. by rewrite H. Qed.

Lemma log_step l m s :
  in_world (log l m) s = (Ok tt, later [EvLog l m] 0 s).
Proof. reflexivity. Qed.

Lemma for_each_cons_ok {St A} (x : A) l (body : A → M St unit) s s' :
  body x s = (Ok tt, s') → for_each (x :: l) body s = for_each l body s'.
Proof. intros H. cbn [for_each]. by rewrite (bind_ok _ _ _ _ _ H). Qed.

Lemma load_movies_ready_run df s' :
  for_each (py_range (length df) batch_size) (load_batch me df) (ready df)
  = (Ok tt, s') →
  load_movies me dataset_path (connected df [])
  = (Ok tt, later [EvLog INFO MsgFinishedLoading] 0 s').
Proof.
  intros H. rewrite load_movies_ready. by rewrite (bind_ok _ _ _ _ _ H).
Qed.

Lemma replies_nil k : replies [] k = Returns [].
Proof. unfold replies. by rewrite lookup_nil. Qed.

Lemma trace_counted n rows s :
  trace_of (counted n rows s)
  = trace_of s ++ [EvLog INFO (MsgProcessed (total_processed s + Z.of_nat n) rows);
                   EvSleep (1 # 2)].
Proof. unfold counted. by rewrite trace_later. Qed.

Lemma trace_with_graph g s : trace_of (with_graph g s) = trace_of s.
Proof. reflexivity. Qed.

(** Loading a table of [n] rows, between 40,001 and 80,000, with no error
    at all: two batches, and one probe exactly when the final total is a
    multiple of 50,000. *)
Lemma load_two_batches n :
  (40000 < n ≤ 80000)%Z →
  let rows := replicate (Z.to_nat n) movie1 in
  let run := load_movies me dataset_path (connected rows []) in
  fst run = Ok tt
  ∧ List.filter is_progress (trace_of (snd run))
    = [EvLog INFO (MsgProcessed 40000 (length rows));
       EvLog INFO (MsgProcessed n (length rows))]
  ∧ List.filter is_probe (trace_of (snd run))
    = (if (n `mod` 50000 =? 0)%Z then [EvCall (RunProbe driver0) None] else [])
  ∧ ∃ before,
      trace_of (snd run)
      = before
        ++ [EvLog INFO (MsgProcessed n (length rows)); EvSleep (1 # 2)]
        ++ (if (n `mod` 50000 =? 0)%Z
            then [EvCall (RunProbe driver0) None] else [])
        ++ [EvLog INFO MsgFinishedLoading].
Proof.
  intros Hn rows run. subst run.
  destruct movie1_valid as [Hpk Hv].
  pose proof (cleaned_replicate batch_size movie1 movie1 movie1_clean) as [Hc1 Hw1].
  pose proof (cleaned_replicate (Z.to_nat (n - 40000)) movie1 movie1 movie1_clean)
    as [Hc2 Hw2].
  pose proof batch_size_Z as Hbs.
  set (movies1 := replicate batch_size movie1) in *.
  set (movies2 := replicate (Z.to_nat (n - 40000)) movie1) in *.
  set (len := length rows).
  assert (Hb1 : iloc 0 (0 + batch_size) rows = movies1)
    by (unfold rows; apply first_batch; lia).
  assert (Hb2 : iloc batch_size (batch_size + batch_size) rows = movies2)
    by (unfold rows; apply second_batch; lia).
  assert (Hlen1 : length movies1 = batch_size) by apply length_replicate.
  assert (Hlen2 : length movies2 = Z.to_nat (n - 40000))
    by apply length_replicate.
  set (s0 := ready rows).
  set (g1 := foldl upsert_movie (graph_of s0) movies1).
  set (s1 := counted batch_size len
               (with_graph g1
                  (later [EvCall (RunUpsert driver0 movies1) None] 1 s0))).
  assert (H1 : load_batch me rows 0 s0 = (Ok tt, s1)).
  { rewrite (load_batch_ok me rows 0 s0 movies1 g1 []).
    - fold len. rewrite Hb1, Hlen1, Hw1.
      change (total_processed _) with (0 + Z.of_nat batch_size)%Z.
      rewrite Hbs. reflexivity.
    - rewrite Hb1. exact Hc1.
    - apply upsert_replicate; assumption.
    - apply replies_nil. }
  set (g2 := foldl upsert_movie (graph_of s1) movies2).
  set (s2 := counted (Z.to_nat (n - 40000)) len
               (with_graph g2
                  (later [EvCall (RunUpsert driver0 movies2) None] 1 s1))).
  assert (Ht2 : total_processed s2 = n).
  { change (total_processed s2)
      with (0 + Z.of_nat batch_size + Z.of_nat (Z.to_nat (n - 40000)))%Z. lia. }
  set (s3 := if (n `mod` 50000 =? 0)%Z
             then later [EvCall (RunProbe driver0) None] 1 s2 else s2).
  assert (H2 : load_batch me rows batch_size s1 = (Ok tt, s3)).
  { rewrite (load_batch_ok me rows batch_size s1 movies2 g2 []).
    - fold len. rewrite Hb2, Hlen2, Hw2.
      change (later [] 0 s1) with s1. change (self_driver s1) with driver0.
      fold s2. rewrite Ht2. unfold s3.
      destruct (_ =? _)%Z; [|reflexivity].
      unfold reply_at. change (w_reply (world_of s2)) with (replies []).
      by rewrite replies_nil.
    - rewrite Hb2. exact Hc2.
    - apply upsert_replicate; assumption.
    - apply replies_nil. }
  assert (Hloop : for_each (py_range (length rows) batch_size)
                    (load_batch me rows) s0 = (Ok tt, s3)).
  { unfold rows at 1. rewrite range_two_batches by lia. fold rows.
    eapply eq_trans; [exact (for_each_cons_ok _ _ _ _ _ H1)|].
    eapply eq_trans; [exact (for_each_cons_ok _ _ _ _ _ H2)|].
    reflexivity. }
  rewrite (load_movies_ready_run rows s3 Hloop). cbn [fst snd].
  split; [reflexivity|]. rewrite trace_later.
  assert (Htr2 : trace_of s2
    = trace_of s0
      ++ [EvCall (RunUpsert driver0 movies1) None]
      ++ [EvLog INFO (MsgProcessed 40000 len); EvSleep (1 # 2)]
      ++ [EvCall (RunUpsert driver0 movies2) None]
      ++ [EvLog INFO (MsgProcessed n len); EvSleep (1 # 2)]).
  { assert (Ht1 : total_processed s1 = 40000%Z).
    { change (total_processed s1) with (0 + Z.of_nat batch_size)%Z. lia. }
    unfold s2. rewrite trace_counted, trace_with_graph, trace_later.
    change (total_processed (with_graph g2 _)) with (total_processed s1).
    rewrite Ht1.
    replace (40000 + Z.of_nat (Z.to_nat (n - 40000)))%Z with n by lia.
    unfold s1. rewrite trace_counted, trace_with_graph, trace_later.
    change (total_processed (with_graph g1 _)) with 0%Z.
    rewrite Hbs, <- !app_assoc. reflexivity. }
  unfold s3. destruct (_ =? _)%Z.
  - rewrite trace_later, Htr2.
    split; [rewrite !List.filter_app; reflexivity|].
    split; [rewrite !List.filter_app; reflexivity|].
    exists (trace_of s0
            ++ [EvCall (RunUpsert driver0 movies1) None]
            ++ [EvLog INFO (MsgProcessed 40000 len); EvSleep (1 # 2)]
            ++ [EvCall (RunUpsert driver0 movies2) None]).
    rewrite <- !app_assoc. reflexivity.
  - rewrite Htr2.
    split; [rewrite !List.filter_app; reflexivity|].
    split; [rewrite !List.filter_app; reflexivity|].
    exists (trace_of s0
            ++ [EvCall (RunUpsert driver0 movies1) None]
            ++ [EvLog INFO (MsgProcessed 40000 len); EvSleep (1 # 2)]
            ++ [EvCall (RunUpsert driver0 movies2) None]).
    rewrite <- !app_assoc. reflexivity.
Qed.

(** C3, as amended.  In a turn of the loop whose upsert succeeds at the
    first attempt, the running total is advanced by the length of the
    batch, the progress line and the pacing sleep follow, and the
    connection is probed next exactly when the new total is a multiple of
    50,000; when it is not, the turn ends there. *)
Theorem checkpoint_on_exact_multiples (self : loader) (df : list pydict)
    (i : nat) (s s1 : state) :
  let batch := iloc i (i + batch_size) df in
  process_movie_batch batch s = (Ok tt, s1) →
  let s2 := counted (length batch) (length df) s1 in
  total_processed s2 = (total_processed s + Z.of_nat (length batch))%Z
  ∧ trace_of s2
    = trace_of s1 ++ [EvLog INFO (MsgProcessed (total_processed s2) (length df));
                      EvSleep (1 # 2)]
  ∧ if (total_processed s2 `mod` 50000 =? 0)%Z
    then ∃ o rest,
           trace_of (snd (load_batch self df i s))
           = trace_of s2 ++ EvCall (RunProbe (self_driver s2)) o :: rest
    else load_batch self df i s = (Ok tt, s2).
Proof. exact (load_batch_checkpoint self df i s s1). Qed.

Lemma checkpoint_on_exact_multiples_witness :
  load_batch me [movie1; movie1] 0 (ready [movie1; movie1])
  = (Ok tt,
     counted 2 2
       (snd (process_movie_batch [movie1; movie1] (ready [movie1; movie1])))).
Proof.
  assert (Hp : process_movie_batch
                 (iloc 0 (0 + batch_size) [movie1; movie1])
                 (ready [movie1; movie1])
               = (Ok tt,
                  snd (process_movie_batch [movie1; movie1]
                         (ready [movie1; movie1]))))
    by (vm_compute; reflexivity).
  destruct (checkpoint_on_exact_multiples me [movie1; movie1] 0 _ _ Hp)
    as (_ & _ & H).
  exact H.
Defined.

(** C3, as stated, fails on a table of 80,000 rows loaded with no error
    at all: the running total goes from 40,000 to 80,000, across 50,000,
    and the connection is never verified. *)
Lemma crossing_50000_without_check :
  let run := load_movies me dataset_path (connected rows_80000 []) in
  fst run = Ok tt
  ∧ List.filter is_progress (trace_of (snd run))
    = [EvLog INFO (MsgProcessed 40000 (length rows_80000));
       EvLog INFO (MsgProcessed 80000 (length rows_80000))]
  ∧ List.filter is_probe (trace_of (snd run)) = [].
Proof.
  destruct (load_two_batches 80000) as (H1 & H2 & H3 & _); [lia|].
  exact (conj H1 (conj H2 H3)).
Qed.

(** On a table of 50,000 rows the total is 50,000 after the second batch,
    and the probe comes after that batch's pacing sleep, before the load
    ends. *)
Lemma checkpoint_at_50000 :
  let run := load_movies me dataset_path (connected rows_50000 []) in
  fst run = Ok tt
  ∧ ∃ before,
      trace_of (snd run)
      = before
        ++ [EvLog INFO (MsgProcessed 50000 (length rows_50000));
            EvSleep (1 # 2);
            EvCall (RunProbe driver0) None;
            EvLog INFO MsgFinishedLoading].
Proof.
  destruct (load_two_batches 50000) as (H1 & _ & _ & H4); [lia|].
  exact (conj H1 H4).
Qed.

(** C10.  The running total is advanced in a turn of the loop exactly
    when the first attempt at the batch succeeds.  When the first attempt
    raises, the total stays as it was and no progress line is logged,
    whatever the retry does; so a batch that the retry applies to the store
    is never counted. *)
Theorem total_processed_counts_first_attempts (self : loader)
    (df : list pydict) (i : nat) (s : state) :
  let batch := iloc i (i + batch_size) df in
  let s' := snd (load_batch self df i s) in
  match process_movie_batch batch s with
  | (Ok _, _) =>
      total_processed s' = (total_processed s + Z.of_nat (length batch))%Z
  | (Raise e, s1) =>
      total_processed s' = total_processed s
      ∧ List.filter is_progress (events_since s s') = []
      ∧ ∀ s2 s3,
          ensure_connection self
            (later [EvLog ERROR
                      (MsgErrorProcessingBatch i (i + batch_size) e)] 0 s1)
          = (Ok tt, s2) →
          process_movie_batch batch s2 = (Ok tt, s3) →
          load_batch self df i s = (Ok tt, s3)
          ∧ total_processed s3 = total_processed s
          ∧ ∃ movies, cleaned batch = Ok movies
                      ∧ upsert movies (graph_of s2) = Ok (graph_of s3)
  end.
Proof. exact (load_batch_counts self df i s). Qed.

End Checkpoint.

Section Finding.
Import Py Neo4j Matching.

(** Searching a list of nodes. *)

Lemma find_from_spec p ns : ∀ k i,
  i ∈ find_from k p ns ↔ k ≤ i ∧ ∃ n, ns !! (i - k) = Some n ∧ p n = true.
Proof.
  induction ns as [|n0 ns IH]; intros k i; simpl.
  - split; [by intros ?%elem_of_nil | by intros (_ & n & ? & _)].
  - assert (Htail : i ∈ find_from (S k) p ns
              ↔ S k ≤ i ∧ ∃ n, ns !! (i - S k) = Some n ∧ p n = true) by apply IH.
    destruct (p n0) eqn:Hp.
    + rewrite elem_of_cons, Htail. split.
      * intros [->|(Hle & n & Hn & Hpn)].
        -- split; [lia|]. exists n0. by rewrite Nat.sub_diag.
        -- split; [lia|]. exists n. split; [|done].
           replace (i - k) with (S (i - S k)) by lia. done.
      * intros (Hle & n & Hn & Hpn).
        destruct (decide (i = k)) as [->|Hne]; [by left|right].
        split; [lia|]. exists n. split; [|done].
        replace (i - k) with (S (i - S k)) in Hn by lia. done.
    + rewrite Htail. split.
      * intros (Hle & n & Hn & Hpn). split; [lia|]. exists n. split; [|done].
        replace (i - k) with (S (i - S k)) by lia. done.
      * intros (Hle & n & Hn & Hpn).
        destruct (decide (i = k)) as [->|Hne].
        -- rewrite Nat.sub_diag in Hn. simpl in Hn. congruence.
        -- split; [lia|]. exists n. split; [|done].
           replace (i - k) with (S (i - S k)) in Hn by lia. done.
Qed.

Lemma find_from_0 p ns i :
  i ∈ find_from 0 p ns ↔ ∃ n, ns !! i = Some n ∧ p n = true.
Proof.
  rewrite find_from_spec, Nat.sub_0_r. split; [by intros [_ H] | intros H].
  split; [lia | done].
Qed.

Lemma find_from_app p ns ms : ∀ k,
  find_from k p (ns ++ ms)
  = find_from k p ns ++ find_from (k + length ns) p ms.
Proof.
  induction ns as [|n ns IH]; intros k; simpl.
  - by rewrite Nat.add_0_r.
  - rewrite IH. replace (S k + length ns) with (k + S (length ns)) by lia.
    by destruct (p n).
Qed.

Lemma find_from_ext p q ns : ∀ k,
  (∀ n, n ∈ ns → p n = q n) → find_from k p ns = find_from k q ns.
Proof.
  induction ns as [|n ns IH]; intros k H; simpl; [done|].
  rewrite (H n) by (by left). rewrite IH; [done|].
  intros n' Hn'. apply H. by right.
Qed.

Lemma find_from_map p f ns : ∀ k,
  find_from k p (map f ns) = find_from k (λ n, p (f n)) ns.
Proof.
  induction ns as [|n ns IH]; intros k; simpl; [done|]. by rewrite IH.
Qed.

Lemma find_from_nil p ns k :
  find_from k p ns = [] ↔ ∀ n, n ∈ ns → p n = false.
Proof.
  revert k. induction ns as [|n ns IH]; intros k; simpl.
  - split; [by intros _ n ?%elem_of_nil | done].
  - destruct (p n) eqn:Hp.
    + split; [done|]. intros H. specialize (H n (list_elem_of_here _ _)). congruence.
    + rewrite IH. split.
      * intros H n' [->|Hn']%elem_of_cons; [done | by apply H].
      * intros H n' Hn'. apply H. by right.
Qed.

Lemma find_from_NoDup p ns : ∀ k, NoDup (find_from k p ns).
Proof.
  induction ns as [|n ns IH]; intros k; simpl; [constructor|].
  destruct (p n); [|apply IH]. constructor; [|apply IH].
  rewrite find_from_spec. lia.
Qed.

(** Altering the nodes a search found is a map over all nodes. *)
Lemma imap_find p (f : node → node) ns :
  imap (λ i n, if bool_decide (i ∈ find_from 0 p ns) then f n else n) ns
  = map (λ n, if p n then f n else n) ns.
Proof.
  apply list_eq. intros i. rewrite list_lookup_imap, list_lookup_fmap.
  destruct (ns !! i) as [n|] eqn:Hi; simpl; [|done].
  f_equal. destruct (p n) eqn:Hp.
  - rewrite bool_decide_eq_true_2; [done|]. apply find_from_0. eauto.
  - rewrite bool_decide_eq_false_2; [done|].
    intros (n' & Hn' & Hp')%find_from_0. congruence.
Qed.

End Finding.

Section Keys.
Import Py Neo4j Matching.

Lemma cy_eqb_spec x v :
  cy_eqb x v = true ↔ ∃ k, cy_key x = Some k ∧ cy_key v = Some k.
Proof.
  unfold cy_eqb. destruct (cy_key x) as [a|], (cy_key v) as [b|]; simpl.
  - rewrite bool_decide_eq_true. split; [intros ->; eauto|].
    intros (k & ? & ?). congruence.
  - split; [done | by intros (k & _ & ?)].
  - split; [done | by intros (k & ? & _)].
  - split; [done | by intros (k & ? & _)].
Qed.

Lemma has_key_spec lbl prop v n :
  has_key lbl prop v n = true
  ↔ ∃ k, node_key lbl prop n = Some k ∧ cy_key v = Some k.
Proof.
  unfold has_key, node_key. rewrite andb_true_iff, bool_decide_eq_true.
  destruct (decide (node_label n = lbl)) as [Hl|Hl].
  - destruct (node_props n !! prop) as [x|]; simpl.
    + rewrite cy_eqb_spec. tauto.
    + split; [by intros [_ ?] | by intros (k & ? & _)].
  - split; [by intros [? _] | by intros (k & ? & _)].
Qed.

Lemma has_key_same_key lbl prop v v' n :
  cy_key v = cy_key v' → has_key lbl prop v n = has_key lbl prop v' n.
Proof.
  intros Hk. apply eq_true_iff_eq. rewrite !has_key_spec.
  by rewrite Hk.
Qed.

Lemma find_nodes_same_key lbl prop v v' g :
  cy_key v = cy_key v' → find_nodes lbl prop v g = find_nodes lbl prop v' g.
Proof.
  intros Hk. unfold find_nodes. apply find_from_ext.
  intros n _. by apply has_key_same_key.
Qed.

Lemma node_key_new lbl prop lbl' prop' v :
  node_key lbl prop (Node lbl' {[ prop' := v ]})
  = if decide (lbl' = lbl ∧ prop' = prop) then cy_key v else None.
Proof.
  unfold node_key. simpl.
  destruct (decide (lbl' = lbl)) as [->|Hl].
  - destruct (decide (prop' = prop)) as [->|Hp].
    + rewrite lookup_singleton_eq. simpl. by rewrite decide_True.
    + rewrite lookup_singleton_ne by done. simpl.
      rewrite decide_False; [done | tauto].
  - rewrite decide_False; [done | tauto].
Qed.

Lemma has_key_new_self lbl prop v :
  key_ok v → has_key lbl prop v (Node lbl {[ prop := v ]}) = true.
Proof.
  intros [k Hk]. apply has_key_spec. exists k.
  rewrite node_key_new, decide_True; done.
Qed.

Lemma node_ext (n n' : node) :
  node_label n = node_label n' → node_props n = node_props n' → n = n'.
Proof. destruct n, n'; simpl; congruence. Qed.

Lemma set_prop_label k v n : node_label (set_prop k v n) = node_label n.
Proof. reflexivity. Qed.

Lemma set_prop_lookup k v n i :
  node_props (set_prop k v n) !! i
  = if decide (k = i) then match v with PNone => None | _ => Some v end
    else node_props n !! i.
Proof.
  unfold set_prop. simpl.
  destruct (decide (k = i)) as [->|Hne].
  - destruct v; by rewrite ?lookup_delete_eq, ?lookup_insert_eq.
  - destruct v; by rewrite ?lookup_delete_ne, ?lookup_insert_ne.
Qed.

Lemma set_movie_props_label r n :
  node_label (set_movie_props r n) = node_label n.
Proof. reflexivity. Qed.

Lemma set_movie_props_lookup r n i :
  node_props (set_movie_props r n) !! i
  = match written r i with Some o => o | None => node_props n !! i end.
Proof.
  unfold set_movie_props, written. rewrite !set_prop_lookup.
  repeat (destruct (decide _); [reflexivity|]). reflexivity.
Qed.

Lemma written_same_keys r s i : written r i = None → written s i = None.
Proof.
  unfold written. repeat (destruct (decide _); [discriminate|]). done.
Qed.

Lemma written_id r : written r (py "id") = None.
Proof.
  unfold written.
  repeat (destruct (decide _) as [H|_]; [by vm_compute in H|]). done.
Qed.

Lemma written_name r : written r (py "name") = None.
Proof.
  unfold written.
  repeat (destruct (decide _) as [H|_]; [by vm_compute in H|]). done.
Qed.

Lemma set_movie_props_twice r s n :
  set_movie_props s (set_movie_props r n) = set_movie_props s n.
Proof.
  apply node_ext; [reflexivity|]. apply map_eq. intros i.
  rewrite !set_movie_props_lookup.
  destruct (written s i) as [o|] eqn:Hs; [done|].
  by rewrite (written_same_keys s r i Hs).
Qed.

Lemma node_key_set lbl prop r n :
  written r prop = None →
  node_key lbl prop (set_movie_props r n) = node_key lbl prop n.
Proof.
  intros Hw. unfold node_key.
  by rewrite set_movie_props_label, set_movie_props_lookup, Hw.
Qed.

Lemma has_key_set lbl prop v r n :
  written r prop = None →
  has_key lbl prop v (set_movie_props r n) = has_key lbl prop v n.
Proof.
  intros Hw. apply eq_true_iff_eq. rewrite !has_key_spec.
  by rewrite node_key_set.
Qed.

Lemma has_key_step lbl prop v r n :
  written r prop = None →
  has_key lbl prop v (step r n) = has_key lbl prop v n.
Proof.
  intros Hw. unfold step. destruct (has_key Movie _ _ n); [|done].
  by apply has_key_set.
Qed.

Lemma has_key_steps lbl prop v rs : ∀ n,
  (∀ r, written r prop = None) →
  has_key lbl prop v (steps rs n) = has_key lbl prop v n.
Proof.
  unfold steps. induction rs as [|r rs IH]; intros n Hw; simpl; [done|].
  rewrite IH by done. by apply has_key_step.
Qed.

Lemma step_genre r n : node_label n = Genre → step r n = n.
Proof.
  intros Hl. unfold step, has_key. rewrite Hl.
  by rewrite bool_decide_eq_false_2.
Qed.

Lemma step_twice r s n :
  has_key Movie (py "id") (movie_id s) n = true →
  step s (step r n) = step s n.
Proof.
  intros Hs. unfold step at 1 3.
  rewrite has_key_step by apply written_id. rewrite Hs.
  unfold step. destruct (has_key Movie _ (movie_id r) n); [|done].
  apply set_movie_props_twice.
Qed.

Lemma step_miss r n :
  has_key Movie (py "id") (movie_id r) n = false → step r n = n.
Proof. intros H. unfold step. by rewrite H. Qed.

Lemma steps_cons r rs n : steps (r :: rs) n = steps rs (step r n).
Proof. reflexivity. Qed.

Lemma steps_snoc rs r n : steps (rs ++ [r]) n = step r (steps rs n).
Proof. unfold steps. by rewrite foldl_app. Qed.

(** A later write of [r] makes an earlier one invisible. *)
Lemma steps_absorb r rs : ∀ n,
  step r (steps rs (step r n)) = step r (steps rs n).
Proof.
  induction rs as [|s rs IH]; intros n.
  - simpl. destruct (has_key Movie (py "id") (movie_id r) n) eqn:Hr.
    + by apply step_twice.
    + by rewrite !(step_miss r n).
  - rewrite !steps_cons.
    destruct (has_key Movie (py "id") (movie_id r) n) eqn:Hr;
      [|by rewrite !(step_miss r n)].
    destruct (has_key Movie (py "id") (movie_id s) n) eqn:Hs.
    + by rewrite step_twice.
    + rewrite (step_miss s (step r n)).
      * rewrite IH. by rewrite (step_miss s n).
      * by rewrite has_key_step by apply written_id.
Qed.

Lemma steps_miss rs : ∀ n,
  (∀ r, r ∈ rs → has_key Movie (py "id") (movie_id r) n = false) →
  steps rs n = n.
Proof.
  induction rs as [|r rs IH]; intros n H; [done|].
  rewrite steps_cons, (step_miss r n) by (apply H; by left).
  apply IH. intros r' Hr'. apply H. by right.
Qed.

End Keys.

Section Merging.
Import Py Neo4j Matching.

Lemma keeps_refl g : keeps g g.
Proof. by split. Qed.

Lemma keeps_trans g1 g2 g3 : keeps g1 g2 → keeps g2 g3 → keeps g1 g3.
Proof.
  intros [Hf12 Hr12] [Hf23 Hr23]. split.
  - intros lbl prop v Hw Hp. rewrite Hf23, Hf12; try done.
    unfold present. by rewrite Hf12.
  - auto.
Qed.

Lemma keeps_present lbl prop v g g' :
  (∀ r, written r prop = None) →
  keeps g g' → present lbl prop v g → present lbl prop v g'.
Proof. intros Hw [Hf _] Hp. unfold present. by rewrite Hf. Qed.

Lemma keeps_foldl {A} (f : graph → A → graph) l :
  (∀ g x, x ∈ l → keeps g (f g x)) → ∀ g, keeps g (foldl f g l).
Proof.
  induction l as [|x l IH]; intros H g; simpl; [apply keeps_refl|].
  eapply keeps_trans; [apply H; by left|].
  apply IH. intros g' y Hy. apply H. by right.
Qed.

Lemma find_nodes_add lbl prop v g n rl :
  find_nodes lbl prop v (Graph (nodes g ++ [n]) rl)
  = find_nodes lbl prop v g
    ++ (if has_key lbl prop v n then [length (nodes g)] else []).
Proof.
  unfold find_nodes. simpl. rewrite find_from_app. simpl.
  by destruct (has_key lbl prop v n).
Qed.

Lemma merge_node_found lbl prop v g :
  present lbl prop v g →
  merge_node lbl prop v g = (g, find_nodes lbl prop v g).
Proof.
  unfold present, merge_node. by destruct (find_nodes lbl prop v g).
Qed.

Lemma merge_node_new lbl prop v g :
  find_nodes lbl prop v g = [] →
  merge_node lbl prop v g
  = (Graph (nodes g ++ [Node lbl {[ prop := v ]}]) (rels g),
     [length (nodes g)]).
Proof. intros H. unfold merge_node. by rewrite H. Qed.

Lemma present_dec lbl prop v g :
  present lbl prop v g ∨ find_nodes lbl prop v g = [].
Proof. unfold present. destruct (find_nodes lbl prop v g); [by right | by left]. Qed.

(** A node MERGE has just made matches no pattern that had a match. *)
Lemma new_node_unseen lbl prop v lbl' prop' v' g :
  find_nodes lbl' prop' v' g = [] →
  present lbl prop v g →
  has_key lbl prop v (Node lbl' {[ prop' := v' ]}) = false.
Proof.
  intros Hnone Hp. apply not_true_is_false. intros Hk.
  apply has_key_spec in Hk as (k & Hnk & Hv).
  rewrite node_key_new in Hnk.
  destruct (decide _) as [[-> ->]|]; [|done].
  apply Hp. rewrite <- Hnone. apply find_nodes_same_key. congruence.
Qed.

Lemma keeps_merge_node lbl prop v g : keeps g (merge_node lbl prop v g).1.
Proof.
  destruct (present_dec lbl prop v g) as [Hp|Hn].
  - rewrite merge_node_found by done. apply keeps_refl.
  - rewrite merge_node_new by done. split; [|done].
    intros lbl0 prop0 v0 _ Hp0. simpl. rewrite find_nodes_add.
    rewrite (new_node_unseen lbl0 prop0 v0 lbl prop v g) by done.
    apply app_nil_r.
Qed.

(** What MERGE binds is what the pattern matches afterwards. *)
Lemma merge_node_binds lbl prop v g :
  key_ok v →
  (merge_node lbl prop v g).2 = find_nodes lbl prop v (merge_node lbl prop v g).1
  ∧ present lbl prop v (merge_node lbl prop v g).1.
Proof.
  intros Hv. destruct (present_dec lbl prop v g) as [Hp|Hn].
  - rewrite merge_node_found by done. done.
  - rewrite merge_node_new by done. simpl. unfold present.
    rewrite find_nodes_add, Hn, has_key_new_self by done. done.
Qed.

Lemma merge_node_nodes lbl prop v g :
  nodes (merge_node lbl prop v g).1 = nodes g
  ∨ (find_nodes lbl prop v g = []
     ∧ nodes (merge_node lbl prop v g).1
       = nodes g ++ [Node lbl {[ prop := v ]}]).
Proof.
  destruct (present_dec lbl prop v g) as [Hp|Hn].
  - rewrite merge_node_found by done. by left.
  - rewrite merge_node_new by done. by right.
Qed.

Lemma merge_node_rels lbl prop v g : rels (merge_node lbl prop v g).1 = rels g.
Proof.
  destruct (present_dec lbl prop v g) as [Hp|Hn].
  - by rewrite merge_node_found.
  - by rewrite merge_node_new.
Qed.

Lemma find_nodes_nodes lbl prop v g g' :
  nodes g = nodes g' → find_nodes lbl prop v g = find_nodes lbl prop v g'.
Proof. unfold find_nodes. by intros ->. Qed.

Lemma merge_rel_nodes m gn g : nodes (merge_rel m gn g) = nodes g.
Proof. unfold merge_rel. by destruct (bool_decide _). Qed.

Lemma merge_rel_in m gn g : (m, gn) ∈ rels (merge_rel m gn g).
Proof.
  unfold merge_rel. destruct (bool_decide _) eqn:H; simpl.
  - by apply bool_decide_eq_true in H.
  - apply elem_of_app. right. by left.
Qed.

Lemma merge_rel_mono m gn g e : e ∈ rels g → e ∈ rels (merge_rel m gn g).
Proof.
  unfold merge_rel. destruct (bool_decide _); simpl; [done|].
  intros. apply elem_of_app. by left.
Qed.

Lemma merge_rel_id m gn g : (m, gn) ∈ rels g → merge_rel m gn g = g.
Proof. intros H. unfold merge_rel. by rewrite bool_decide_eq_true_2. Qed.

Lemma keeps_merge_rel m gn g : keeps g (merge_rel m gn g).
Proof.
  split.
  - intros lbl prop v _ _. apply find_nodes_nodes, merge_rel_nodes.
  - apply merge_rel_mono.
Qed.

Lemma merge_rels_nodes m gs : ∀ g,
  nodes (foldl (λ acc gn, merge_rel m gn acc) g gs) = nodes g.
Proof.
  induction gs as [|gn gs IH]; intros g; simpl; [done|].
  by rewrite IH, merge_rel_nodes.
Qed.

Lemma merge_rels_in m gs : ∀ g gn,
  gn ∈ gs → (m, gn) ∈ rels (foldl (λ acc gn, merge_rel m gn acc) g gs).
Proof.
  induction gs as [|gn0 gs IH]; intros g gn; simpl; [by intros ?%elem_of_nil|].
  intros [->|Hin]%elem_of_cons; [|by apply IH].
  pose proof (keeps_foldl (λ acc gn, merge_rel m gn acc) gs
                (λ g' x _, keeps_merge_rel m x g') (merge_rel m gn0 g)) as [_ Hm].
  apply Hm, merge_rel_in.
Qed.

Lemma merge_rels_id m gs g :
  (∀ gn, gn ∈ gs → (m, gn) ∈ rels g) →
  foldl (λ acc gn, merge_rel m gn acc) g gs = g.
Proof.
  induction gs as [|gn gs IH]; intros H; simpl; [done|].
  rewrite merge_rel_id by (apply H; by left).
  apply IH. intros gn' Hgn'. apply H. by right.
Qed.

Lemma merge_genre_null m g : merge_genre m g PNone = g.
Proof. reflexivity. Qed.

Lemma merge_genre_unfold m g genre :
  is_null genre = false →
  merge_genre m g genre
  = foldl (λ acc gn, merge_rel m gn acc)
      (merge_node Genre (py "name") genre g).1
      (merge_node Genre (py "name") genre g).2.
Proof.
  intros Hn. unfold merge_genre.
  destruct (merge_node Genre (py "name") genre g) as [g' gs].
  by destruct genre.
Qed.

Lemma keeps_merge_genre m g genre : keeps g (merge_genre m g genre).
Proof.
  destruct (is_null genre) eqn:Hn.
  - destruct genre; first [done | apply keeps_refl].
  - rewrite merge_genre_unfold by done.
    eapply keeps_trans; [apply keeps_merge_node|].
    apply keeps_foldl. intros. apply keeps_merge_rel.
Qed.

(** After the two MERGEs of a genre row, the genre has its nodes and the
    movie node is related to each of them. *)
Lemma merge_genre_settles m g genre :
  is_null genre = false → key_ok genre →
  present Genre (py "name") genre (merge_genre m g genre)
  ∧ ∀ gn, gn ∈ find_nodes Genre (py "name") genre (merge_genre m g genre) →
          (m, gn) ∈ rels (merge_genre m g genre).
Proof.
  intros Hn Hk. rewrite merge_genre_unfold by done.
  destruct (merge_node_binds Genre (py "name") genre g Hk) as [Hb Hp].
  set (g1 := (merge_node Genre (py "name") genre g).1) in *.
  set (gs := (merge_node Genre (py "name") genre g).2) in *.
  assert (Hfind : find_nodes Genre (py "name") genre
                    (foldl (λ acc gn, merge_rel m gn acc) g1 gs) = gs).
  { rewrite Hb. apply find_nodes_nodes, merge_rels_nodes. }
  split.
  - unfold present. rewrite Hfind, Hb. exact Hp.
  - intros gn. rewrite Hfind. apply merge_rels_in.
Qed.

Lemma merge_genre_id m g genre :
  (is_null genre = false →
   present Genre (py "name") genre g
   ∧ ∀ gn, gn ∈ find_nodes Genre (py "name") genre g → (m, gn) ∈ rels g) →
  merge_genre m g genre = g.
Proof.
  intros H. destruct (is_null genre) eqn:Hn; [by destruct genre|].
  destruct (H eq_refl) as [Hp Hr].
  rewrite merge_genre_unfold, merge_node_found by done. simpl.
  by apply merge_rels_id.
Qed.

Lemma merge_genres_filter m r : ∀ g,
  foldl (merge_genre m) g (unwind (field (py "genres") r))
  = foldl (merge_genre m) g (genres_of_movie r).
Proof.
  unfold genres_of_movie.
  induction (unwind (field (py "genres") r)) as [|genre l IH]; intros g; [done|].
  simpl. destruct (is_null genre) eqn:Hn; simpl.
  - destruct genre; first [done | apply IH].
  - apply IH.
Qed.

Lemma genres_not_null r genre :
  genre ∈ genres_of_movie r → is_null genre = false.
Proof.
  unfold genres_of_movie. rewrite list_elem_of_In, List.filter_In.
  intros [_ H]. by apply negb_true_iff.
Qed.

End Merging.

Section Upserting.
Import Py Neo4j Matching.

Lemma foldl_preserve {A B} (f : A → B → A) (P : A → Prop) l :
  (∀ a y, P a → P (f a y)) → ∀ a, P a → P (foldl f a l).
Proof.
  intros Hf. induction l as [|y l IH]; intros a Ha; simpl; [done|].
  apply IH, Hf, Ha.
Qed.

Lemma foldl_establish {A B} (f : A → B → A) (Q : B → A → Prop) l :
  (∀ a x, x ∈ l → Q x (f a x)) →
  (∀ a x y, Q x a → Q x (f a y)) →
  ∀ a x, x ∈ l → Q x (foldl f a l).
Proof.
  intros Hnew Hkeep. induction l as [|y l IH]; intros a x Hx; simpl.
  - by apply elem_of_nil in Hx.
  - apply elem_of_cons in Hx as [->|Hx].
    + apply (foldl_preserve f (Q y)); [intros; by apply Hkeep|].
      apply Hnew. by left.
    + apply IH; [|done]. intros a' x' Hx'. apply Hnew. by right.
Qed.

Lemma foldl_id {A B} (f : A → B → A) l a :
  (∀ x, x ∈ l → f a x = a) → foldl f a l = a.
Proof.
  induction l as [|x l IH]; intros H; simpl; [done|].
  rewrite H by (by left). apply IH. intros y Hy. apply H. by right.
Qed.

Lemma find_from_imap p (f : nat → node → node) ns : ∀ k,
  (∀ i n, p (f i n) = p n) →
  find_from k p (imap f ns) = find_from k p ns.
Proof.
  revert f. induction ns as [|n ns IH]; intros f k Hf; simpl; [done|].
  rewrite Hf. rewrite (IH (f ∘ S)); [done|]. intros i n'. apply Hf.
Qed.

Lemma find_nodes_alter lbl prop v r ixs g :
  (∀ r, written r prop = None) →
  find_nodes lbl prop v (alter_nodes (set_movie_props r) ixs g)
  = find_nodes lbl prop v g.
Proof.
  intros Hw. unfold find_nodes, alter_nodes. simpl.
  apply find_from_imap. intros i n.
  destruct (bool_decide _); [|done]. by apply has_key_set.
Qed.

Lemma keeps_alter r ixs g : keeps g (alter_nodes (set_movie_props r) ixs g).
Proof.
  split; [|done]. intros lbl prop v Hw _. by apply find_nodes_alter.
Qed.

Lemma alter_found r g :
  alter_nodes (set_movie_props r)
    (find_nodes Movie (py "id") (movie_id r) g) g
  = overwrite r g.
Proof.
  unfold alter_nodes, overwrite, find_nodes, step. by rewrite imap_find.
Qed.

Lemma find_nodes_overwrite lbl prop v r g :
  (∀ r, written r prop = None) →
  find_nodes lbl prop v (overwrite r g) = find_nodes lbl prop v g.
Proof.
  intros Hw. unfold find_nodes, overwrite. simpl.
  rewrite find_from_map. apply find_from_ext. intros n _.
  by apply has_key_step.
Qed.

Lemma keeps_overwrite r g : keeps g (overwrite r g).
Proof.
  split; [|done]. intros lbl prop v Hw _. by apply find_nodes_overwrite.
Qed.

(** The statement on one record, the null genres set aside. *)
Lemma upsert_movie_unfold g r :
  upsert_movie g r
  = foldl (λ acc m, foldl (merge_genre m) acc (genres_of_movie r))
      (alter_nodes (set_movie_props r)
         (merge_node Movie (py "id") (movie_id r) g).2
         (merge_node Movie (py "id") (movie_id r) g).1)
      (merge_node Movie (py "id") (movie_id r) g).2.
Proof.
  unfold upsert_movie, movie_id.
  destruct (merge_node Movie (py "id") (field (py "id") r) g) as [g1 ms].
  simpl. generalize (alter_nodes (set_movie_props r) ms g1).
  induction ms as [|m ms' IH]; intros g0; simpl; [done|].
  by rewrite merge_genres_filter, IH.
Qed.

Lemma keeps_merge_genres m l g : keeps g (foldl (merge_genre m) g l).
Proof. apply keeps_foldl. intros. apply keeps_merge_genre. Qed.

Lemma keeps_upsert_movie g r : keeps g (upsert_movie g r).
Proof.
  rewrite upsert_movie_unfold.
  eapply keeps_trans; [apply keeps_merge_node|].
  eapply keeps_trans; [apply keeps_alter|].
  apply keeps_foldl. intros. apply keeps_merge_genres.
Qed.

Lemma keeps_settled r g g' : keeps g g' → settled r g → settled r g'.
Proof.
  intros Hk [Hm Hg]. pose proof Hk as [Hf Hr].
  split; [by apply (keeps_present _ _ _ g), Hm; [apply written_id|]|].
  intros genre Hgenre. destruct (Hg genre Hgenre) as [Hp He]. split.
  - by apply (keeps_present _ _ _ g); [apply written_name|..].
  - intros m gn. rewrite !Hf by first [apply written_id | apply written_name | done].
    intros Hm' Hgn'. by apply Hr, He.
Qed.

(** Once a record is settled in the graph, the statement only writes its
    properties. *)
Lemma upsert_movie_settled r g :
  settled r g → upsert_movie g r = overwrite r g.
Proof.
  intros [Hm Hg]. rewrite upsert_movie_unfold, merge_node_found by done.
  simpl. rewrite alter_found.
  pose proof (keeps_overwrite r g) as Hk.
  pose proof (keeps_settled r g _ Hk (conj Hm Hg)) as [Hm' Hg'].
  apply foldl_id. intros m Hmin. apply foldl_id. intros genre Hgenre.
  apply merge_genre_id. intros _.
  destruct (Hg' genre Hgenre) as [Hp He]. split; [done|].
  intros gn Hgn. apply He; [|done].
  rewrite find_nodes_overwrite by apply written_id. done.
Qed.

(** After the statement has run on a record, the record is settled. *)
Lemma upsert_movie_settles r g : keys_ok r → settled r (upsert_movie g r).
Proof.
  intros [Hid Hgenres]. rewrite upsert_movie_unfold.
  destruct (merge_node_binds Movie (py "id") (movie_id r) g Hid) as [Hb Hp].
  set (g1 := (merge_node Movie (py "id") (movie_id r) g).1) in *.
  set (ms := (merge_node Movie (py "id") (movie_id r) g).2) in *.
  set (g2 := alter_nodes (set_movie_props r) ms g1).
  set (final := foldl _ g2 ms).
  assert (Hp2 : present Movie (py "id") (movie_id r) g2).
  { apply (keeps_present _ _ _ g1); [apply written_id | apply keeps_alter | done]. }
  assert (Hf2 : find_nodes Movie (py "id") (movie_id r) g2 = ms).
  { unfold g2. rewrite find_nodes_alter by apply written_id. done. }
  assert (Hkeep : keeps g2 final).
  { apply keeps_foldl. intros. apply keeps_merge_genres. }
  assert (Hff : find_nodes Movie (py "id") (movie_id r) final = ms).
  { destruct Hkeep as [Hf _]. rewrite Hf by first [apply written_id | done]. done. }
  set (P := λ (m : nat) (genre : pyval) (acc : graph),
         present Genre (py "name") genre acc
         ∧ ∀ gn, gn ∈ find_nodes Genre (py "name") genre acc → (m, gn) ∈ rels acc).
  assert (HPkeep : ∀ m genre acc acc', keeps acc acc' → P m genre acc → P m genre acc').
  { intros m genre acc acc' Hk' [Hpg He]. pose proof Hk' as [Hf Hr]. split.
    - by apply (keeps_present _ _ _ acc); [apply written_name|..].
    - intros gn. rewrite Hf by first [apply written_name | done].
      intros Hgn. by apply Hr, He. }
  assert (Hall : ∀ m, m ∈ ms → ∀ genre, genre ∈ genres_of_movie r → P m genre final).
  { intros m Hm.
    apply (foldl_establish
             (λ acc m, foldl (merge_genre m) acc (genres_of_movie r))
             (λ m acc, ∀ genre, genre ∈ genres_of_movie r → P m genre acc));
      [| |done].
    - intros acc m' _ genre Hgenre.
      apply (foldl_establish (merge_genre m') (P m')); [| |done].
      + intros acc' genre' Hg'. apply merge_genre_settles.
        * by apply genres_not_null in Hg'.
        * rewrite Forall_forall in Hgenres. by apply Hgenres.
      + intros acc' genre' y HP. eapply HPkeep; [|exact HP].
        apply keeps_merge_genre.
    - intros acc m' y HQ genre Hgenre. eapply HPkeep; [|by apply HQ].
      apply keeps_merge_genres. }
  split.
  - unfold present. rewrite Hff, Hb. exact Hp.
  - intros genre Hgenre.
    assert (Hne : ∃ m, m ∈ ms).
    { destruct ms as [|m ms'] eqn:Hms; [|exists m; by left].
      exfalso. apply Hp. by rewrite <- Hb. }
    destruct Hne as [m0 Hm0]. split.
    + by destruct (Hall m0 Hm0 genre Hgenre).
    + intros m gn. rewrite Hff. intros Hm Hgn.
      by destruct (Hall m Hm genre Hgenre) as [_ He]; apply He.
Qed.

End Upserting.

Section Idempotence.
Import Py Neo4j Matching.

(** [g'] has the nodes of [g] and then Genre nodes only. *)
Lemma merge_genre_nodes m g genre :
  ∃ extra, nodes (merge_genre m g genre) = nodes g ++ extra
           ∧ Forall (λ n, node_label n = Genre) extra.
Proof.
  destruct (is_null genre) eqn:Hnull.
  - destruct genre; try discriminate. exists []. by rewrite app_nil_r.
  - rewrite merge_genre_unfold, merge_rels_nodes by done.
    destruct (merge_node_nodes Genre (py "name") genre g) as [->|[_ ->]].
    + exists []. by rewrite app_nil_r.
    + eexists. split; [done|]. by repeat constructor.
Qed.

Lemma genre_nodes_foldl {A} (f : graph → A → graph) l :
  (∀ g x, ∃ extra, nodes (f g x) = nodes g ++ extra
                   ∧ Forall (λ n, node_label n = Genre) extra) →
  ∀ g, ∃ extra, nodes (foldl f g l) = nodes g ++ extra
                ∧ Forall (λ n, node_label n = Genre) extra.
Proof.
  intros Hf. induction l as [|x l IH]; intros g; simpl.
  - exists []. by rewrite app_nil_r.
  - destruct (IH (f g x)) as (e2 & -> & H2).
    destruct (Hf g x) as (e1 & -> & H1).
    exists (e1 ++ e2). rewrite app_assoc. split; [done|].
    by apply Forall_app.
Qed.

(** The nodes after the statement has run on one record: the old ones
    and at most one new Movie node, with the properties written, and
    then new Genre nodes. *)
Lemma upsert_movie_nodes g r :
  key_ok (movie_id r) →
  ∃ new extra,
    nodes (upsert_movie g r) = map (step r) (nodes g ++ new) ++ extra
    ∧ Forall (λ n, has_key Movie (py "id") (movie_id r) n = true) new
    ∧ Forall (λ n, node_label n = Genre) extra.
Proof.
  intros Hid. rewrite upsert_movie_unfold.
  destruct (merge_node_binds Movie (py "id") (movie_id r) g Hid) as [Hb _].
  rewrite Hb, alter_found.
  edestruct (genre_nodes_foldl
               (λ acc m, foldl (merge_genre m) acc (genres_of_movie r)))
    as (extra & -> & Hextra).
  { intros g' m. apply genre_nodes_foldl. intros. apply merge_genre_nodes. }
  simpl.
  destruct (merge_node_nodes Movie (py "id") (movie_id r) g) as [->|[_ ->]].
  - exists [], extra. by rewrite app_nil_r.
  - eexists [_], extra. split; [done|]. split; [|done].
    constructor; [|done]. by apply has_key_new_self.
Qed.

Lemma steps_genre rs n : node_label n = Genre → steps rs n = n.
Proof.
  intros Hn. induction rs as [|r rs IH]; [done|].
  by rewrite steps_cons, step_genre.
Qed.

Lemma step_steps r rs : ∀ n,
  has_key Movie (py "id") (movie_id r) n = true →
  step r (steps rs n) = step r n.
Proof.
  induction rs as [|r' rs IH]; intros n Hn; [done|].
  rewrite steps_cons, IH.
  - by apply step_twice.
  - rewrite has_key_step by apply written_id. done.
Qed.

Lemma upsert_movie_up_to_date rs r g :
  key_ok (movie_id r) →
  up_to_date rs g → up_to_date (rs ++ [r]) (upsert_movie g r).
Proof.
  intros Hid Hg. unfold up_to_date.
  destruct (upsert_movie_nodes g r Hid) as (new & extra & -> & Hnew & Hextra).
  rewrite map_app, !Forall_app. split; [split|].
  - apply Forall_map. eapply Forall_impl; [exact Hg|]. simpl.
    intros n Hn. by rewrite steps_snoc, steps_absorb, Hn.
  - apply Forall_map. eapply Forall_impl; [exact Hnew|]. simpl.
    intros n Hn. rewrite steps_snoc, steps_absorb. by apply step_steps.
  - eapply Forall_impl; [exact Hextra|]. simpl.
    intros n Hn. by apply steps_genre.
Qed.

Lemma upsert_up_to_date rs g :
  Forall (λ r, key_ok (movie_id r)) rs →
  up_to_date rs (foldl upsert_movie g rs).
Proof.
  induction rs as [|r rs IH] using rev_ind; intros Hrs.
  - unfold up_to_date. by apply Forall_forall.
  - apply Forall_app in Hrs as [Hrs Hr]. rewrite foldl_app. simpl.
    apply upsert_movie_up_to_date; [by inversion Hr|by apply IH].
Qed.

Lemma overwrite_all rs : ∀ g,
  foldl (λ acc r, overwrite r acc) g rs
  = Graph (map (steps rs) (nodes g)) (rels g).
Proof.
  induction rs as [|r rs IH]; intros g; simpl.
  - destruct g as [ns rl]. simpl. by rewrite map_id.
  - rewrite IH. simpl. by rewrite <- list_fmap_compose.
Qed.

Lemma upsert_settled rs : ∀ g,
  Forall (λ r, settled r g) rs →
  foldl upsert_movie g rs = foldl (λ acc r, overwrite r acc) g rs.
Proof.
  induction rs as [|r rs IH]; intros g Hrs; [done|].
  inversion Hrs as [|? ? Hr Hrs']; subst. simpl.
  rewrite upsert_movie_settled by done. apply IH.
  eapply Forall_impl; [exact Hrs'|]. simpl. intros r'.
  apply keeps_settled, keeps_overwrite.
Qed.

Lemma upsert_settles rs g :
  Forall keys_ok rs → Forall (λ r, settled r (foldl upsert_movie g rs)) rs.
Proof.
  intros Hrs. apply Forall_forall. intros r Hr.
  apply (foldl_establish upsert_movie (λ r acc, settled r acc)); [| |done].
  - intros a x Hx. apply upsert_movie_settles.
    rewrite Forall_forall in Hrs. by apply Hrs.
  - intros a x y. apply keeps_settled, keeps_upsert_movie.
Qed.

(** The statement run again on the same records changes nothing. *)
Lemma upsert_movies_twice rs g :
  Forall keys_ok rs →
  foldl upsert_movie (foldl upsert_movie g rs) rs = foldl upsert_movie g rs.
Proof.
  intros Hrs. rewrite upsert_settled by by apply upsert_settles.
  rewrite overwrite_all.
  assert (Hup : up_to_date rs (foldl upsert_movie g rs)).
  { apply upsert_up_to_date. eapply Forall_impl; [exact Hrs|].
    by intros r [Hid _]. }
  destruct (foldl upsert_movie g rs) as [ns rl]. simpl in *. f_equal.
  unfold up_to_date in Hup. simpl in Hup.
  induction Hup as [|n ns' Hn _ IH]; simpl; [done|]. by rewrite Hn, IH.
Qed.

End Idempotence.

Section Uniqueness.
Import Py Neo4j Matching.

Lemma unique_merge_node lbl prop lbl' prop' v g :
  unique_nodes lbl prop g →
  unique_nodes lbl prop (merge_node lbl' prop' v g).1.
Proof.
  intros Hu v'. destruct (present_dec lbl' prop' v g) as [Hp|Hnone].
  - rewrite merge_node_found by done. apply Hu.
  - rewrite merge_node_new by done. simpl. rewrite find_nodes_add.
    destruct (has_key lbl prop v' _) eqn:Hk.
    + apply has_key_spec in Hk as (k & Hk & Hv').
      rewrite node_key_new in Hk.
      destruct (decide _) as [[-> ->]|]; [|done].
      rewrite (find_nodes_same_key _ _ v' v) by congruence.
      by rewrite Hnone.
    + rewrite app_nil_r. apply Hu.
Qed.

Lemma unique_alter lbl prop r ixs g :
  (∀ r, written r prop = None) →
  unique_nodes lbl prop g →
  unique_nodes lbl prop (alter_nodes (set_movie_props r) ixs g).
Proof. intros Hw Hu v. rewrite find_nodes_alter by done. apply Hu. Qed.

Lemma unique_merge_rel lbl prop m gn g :
  unique_nodes lbl prop g → unique_nodes lbl prop (merge_rel m gn g).
Proof.
  intros Hu v.
  rewrite (find_nodes_nodes _ _ _ _ g) by apply merge_rel_nodes. apply Hu.
Qed.

Lemma NoDup_merge_rel m gn g : NoDup (rels g) → NoDup (rels (merge_rel m gn g)).
Proof.
  intros Hnd. unfold merge_rel. case_bool_decide as Hin; [done|]. simpl.
  apply NoDup_app. split; [done|]. split; [|apply NoDup_singleton].
  intros e He ->%list_elem_of_singleton. done.
Qed.

Lemma no_duplicates_merge_node lbl prop v g :
  no_duplicates g → no_duplicates (merge_node lbl prop v g).1.
Proof.
  intros (Hm & Hg & Hr). repeat split.
  - by apply unique_merge_node.
  - by apply unique_merge_node.
  - by rewrite merge_node_rels.
Qed.

Lemma no_duplicates_merge_rel m gn g :
  no_duplicates g → no_duplicates (merge_rel m gn g).
Proof.
  intros (Hm & Hg & Hr). repeat split.
  - by apply unique_merge_rel.
  - by apply unique_merge_rel.
  - by apply NoDup_merge_rel.
Qed.

Lemma no_duplicates_alter r ixs g :
  no_duplicates g → no_duplicates (alter_nodes (set_movie_props r) ixs g).
Proof.
  intros (Hm & Hg & Hr). repeat split.
  - apply unique_alter; [apply written_id|done].
  - apply unique_alter; [apply written_name|done].
  - done.
Qed.

Lemma no_duplicates_merge_genre m g genre :
  no_duplicates g → no_duplicates (merge_genre m g genre).
Proof.
  intros Hg. destruct (is_null genre) eqn:Hnull.
  - by destruct genre.
  - rewrite merge_genre_unfold by done.
    apply (foldl_preserve _ no_duplicates).
    + intros a y. apply no_duplicates_merge_rel.
    + by apply no_duplicates_merge_node.
Qed.

(** The statement on one record keeps the graph free of duplicates. *)
Lemma no_duplicates_upsert_movie g r :
  no_duplicates g → no_duplicates (upsert_movie g r).
Proof.
  intros Hg. rewrite upsert_movie_unfold.
  apply (foldl_preserve _ no_duplicates).
  - intros a m Ha. apply (foldl_preserve _ no_duplicates); [|done].
    intros a' genre. apply no_duplicates_merge_genre.
  - by apply no_duplicates_alter, no_duplicates_merge_node.
Qed.

Lemma no_duplicates_upsert_movies rs g :
  no_duplicates g → no_duplicates (foldl upsert_movie g rs).
Proof.
  apply (foldl_preserve _ no_duplicates). intros a r.
  apply no_duplicates_upsert_movie.
Qed.

Lemma no_duplicates_empty : no_duplicates empty_graph.
Proof.
  repeat split; try (intros v; simpl; lia). apply NoDup_nil_2.
Qed.

End Uniqueness.


Section Cleaning.
Import Py Pandas Neo4j Eff World MovieGraphLoader Observe Matching.

Lemma clean_value_spec v v' :
  clean_value v = Ok v' → v' = PNone ∨ not_na v'.
Proof.
  unfold clean_value, not_na. destruct (isna_truth v) as [[]|e] eqn:Hna; simpl;
    intros [= <-]; auto.
Qed.

Lemma not_na_key v : not_na v → storable v = true → key_ok v.
Proof.
  unfold not_na, key_ok. destruct v as [|b|z|f|s|l|d]; simpl; try done.
  - destruct f; simpl; try done.
  - destruct l as [|x l]; [done|].
    destruct (prim_kind x) as [k|] eqn:Hk; [|done].
    assert (Hsub : sublists (x :: l) = None) by by destruct x.
    rewrite Hsub. destruct l as [|y l]; [|done].
    intros [= Hx] _. destruct x as [| | |[]| | |]; simpl in *; try done.
Qed.

Lemma clean_items_spec items : ∀ acc d,
  clean_items items acc = Ok d →
  (∀ k v, dict_get k acc = Some v → v = PNone ∨ not_na v) →
  ∀ k v, dict_get k d = Some v → v = PNone ∨ not_na v.
Proof.
  induction items as [|[key value] rest IH]; intros acc d; simpl.
  - by intros [= <-].
  - destruct (clean_value value) as [v'|e] eqn:Hv; simpl; [|done].
    intros Hd Hacc. apply (IH _ _ Hd). intros k v.
    destruct (decide (key = k)) as [<-|Hne].
    + rewrite dict_get_set_eq. intros [= <-]. by apply clean_value_spec in Hv.
    + rewrite dict_get_set_ne by done. apply Hacc.
Qed.

Lemma filter_genres_spec genres : ∀ kept,
  filter_genres genres = Ok kept → Forall not_na kept.
Proof.
  induction genres as [|g rest IH]; intros kept; simpl.
  - by intros [= <-].
  - destruct (truthy g).
    + destruct (isna_truth g) as [na|e] eqn:Hna; simpl; [|done].
      destruct (filter_genres rest) as [kept'|e]; simpl; [|done].
      intros [= <-]. destruct na; simpl; [by apply IH|].
      destruct (str_strip_truthy g); [|by apply IH].
      constructor; [done | by apply IH].
    + simpl. destruct (filter_genres rest) as [kept'|e]; simpl; [|done].
      intros [= <-]. by apply IH.
Qed.

Lemma genres_of_spec v l : genres_of v = Ok l → Forall not_na l.
Proof.
  unfold genres_of. destruct (parse_genres v) as [genres|e]; simpl; [|done].
  destruct (py_iter genres) as [items|e]; simpl; [|done].
  apply filter_genres_spec.
Qed.

Lemma valid_movie_id r : valid_movie r = true → storable (movie_id r) = true.
Proof.
  unfold valid_movie. rewrite !andb_true_iff. by intros [[[[[[[H _] _] _] _] _] _] _].
Qed.

Lemma valid_movie_genres r :
  valid_movie r = true →
  Forall (λ g, storable g = true) (genres_of_movie r).
Proof.
  unfold valid_movie. rewrite !andb_true_iff. intros [_ H].
  unfold genres_of_movie. rewrite forallb_forall in H.
  apply Forall_forall. intros g [Hin Hg]%list_elem_of_In%filter_In.
  apply H in Hin. by destruct g.
Qed.

Lemma field_clean k d :
  (∀ k v, dict_get k d = Some v → v = PNone ∨ not_na v) →
  field k d = PNone ∨ not_na (field k d).
Proof.
  intros Hd. unfold field. destruct (dict_get k d) as [v|] eqn:Hv; simpl.
  - by apply (Hd k).
  - by left.
Qed.

(** A record that has been cleaned and that the statement accepts has
    an id and genres that MERGE can find again. *)
Lemma clean_record_keys record w r w' :
  clean_record record w = (Ok r, w') → valid_movie r = true → keys_ok r.
Proof.
  unfold clean_record. eff_unfold.
  destruct (clean_items record []) as [d|e] eqn:Hd; [|done].
  assert (Hclean : ∀ k v, dict_get k d = Some v → v = PNone ∨ not_na v).
  { apply (clean_items_spec _ _ _ Hd). by intros k v. }
  assert (Hgen : ∀ l, Forall not_na l →
            (∀ k v, dict_get k (dict_set (py "genres") (PList l) d) = Some v
                    → v = PNone ∨ not_na v ∨ v = PList l)).
  { intros l Hl k v. destruct (decide (py "genres" = k)) as [<-|Hne].
    - rewrite dict_get_set_eq. intros [= <-]. auto.
    - rewrite dict_get_set_ne by done. intros H. apply Hclean in H. tauto. }
  assert (Hkeys : ∀ l r', Forall not_na l →
            field (py "id") r' = field (py "id") d →
            (field (py "genres") r' = PList l ∨ field (py "genres") r' = PNone
             ∨ (dict_get (py "genres") d = None ∧ r' = d)) →
            valid_movie r' = true → keys_ok r').
  { intros l r' Hl Hid Hgenres Hvalid. split.
    - apply not_na_key; [|by apply valid_movie_id].
      unfold movie_id. rewrite Hid.
      destruct (field_clean (py "id") d Hclean) as [Hn|Hn]; [|done].
      apply valid_movie_id in Hvalid. unfold movie_id in Hvalid.
      by rewrite Hid, Hn in Hvalid.
    - pose proof (valid_movie_genres r' Hvalid) as Hst.
      assert (Hna : Forall not_na (genres_of_movie r')).
      { unfold genres_of_movie.
        destruct Hgenres as [->|[->|[Hnone ->]]]; simpl.
        - apply Forall_forall. intros g [Hin _]%list_elem_of_In%filter_In.
          rewrite Forall_forall in Hl. by apply Hl, list_elem_of_In.
        - done.
        - unfold field. rewrite Hnone. done. }
      apply Forall_forall. intros g Hg.
      rewrite Forall_forall in Hst, Hna. apply not_na_key; auto. }
  destruct (dict_get (py "genres") d) as [v|] eqn:Hg.
  - destruct (genres_of v) as [l|e] eqn:Hl.
    + intros [= <- <-]. apply (Hkeys l); [by apply genres_of_spec in Hl| |].
      * unfold field. by rewrite dict_get_set_ne.
      * left. unfold field. by rewrite dict_get_set_eq.
    + intros [= <- <-]. apply (Hkeys []); [done| |].
      * unfold field. by rewrite dict_get_set_ne.
      * left. unfold field. by rewrite dict_get_set_eq.
  - intros [= <- <-]. apply (Hkeys []); [done|done|]. by right; right.
Qed.

Lemma clean_batch_keys batch : ∀ w movies w',
  clean_batch batch w = (Ok movies, w') →
  forallb valid_movie movies = true → Forall keys_ok movies.
Proof.
  induction batch as [|record rest IH]; intros w movies w'; simpl.
  - unfold mret, M_ret. by intros [= <- <-].
  - unfold mbind, M_bind, mret, M_ret.
    destruct (clean_record record w) as [[r|e] w1] eqn:Hr; [|done].
    destruct (clean_batch rest w1) as [[rs|e] w2] eqn:Hrs; [|done].
    intros [= <- <-]. simpl. rewrite andb_true_iff. intros [Hv Hvs].
    constructor; [by eapply clean_record_keys | by eapply IH].
Qed.

Lemma cleaned_keys batch movies :
  cleaned batch = Ok movies →
  forallb valid_movie movies = true → Forall keys_ok movies.
Proof.
  unfold cleaned. destruct (clean_batch batch blank) as [res w] eqn:Hc.
  simpl. intros ->. by eapply clean_batch_keys.
Qed.

End Cleaning.


Section Reloading.
Import Py Pandas Neo4j Eff World MovieGraphLoader Observe Matching Scenario.

Lemma outside_later evs n s : outside (later evs n s) = outside s.
Proof.
  unfold outside, later. simpl.
  induction n as [|n IH]; simpl; [|exact IH].
  by rewrite reply_emit_all, exists_emit_all, csv_emit_all.
Qed.

Lemma schema_later evs n s : schema (later evs n s) = schema s.
Proof.
  unfold schema, later. simpl.
  induction n as [|n IH]; simpl; [|exact IH].
  by rewrite store_emit_all.
Qed.

Lemma driver_later evs n s : self_driver (later evs n s) = self_driver s.
Proof. reflexivity. Qed.

Lemma outside_with_graph g s : outside (with_graph g s) = outside s.
Proof. reflexivity. Qed.

Lemma schema_with_graph g s : schema (with_graph g s) = schema s.
Proof. reflexivity. Qed.

Lemma graph_with_graph g s : graph_of (with_graph g s) = g.
Proof. reflexivity. Qed.

Lemma outside_counted n rows s : outside (counted n rows s) = outside s.
Proof. unfold counted. by rewrite outside_later. Qed.

Lemma schema_counted n rows s : schema (counted n rows s) = schema s.
Proof. unfold counted. by rewrite schema_later. Qed.

Lemma graph_counted n rows s : graph_of (counted n rows s) = graph_of s.
Proof. unfold counted. by rewrite graph_later. Qed.

Lemma answering_outside s s' : outside s' = outside s → answering s → answering s'.
Proof.
  unfold outside, answering. intros [= Hr _ _] Hs k. rewrite Hr. apply Hs.
Qed.

Lemma answering_reply s k : answering s → ∃ t, reply_at s k = Returns t.
Proof. intros Hs. apply Hs. Qed.

Lemma ensure_connection_answering self s :
  answering s →
  ensure_connection self s
  = (Ok tt, later [EvCall (RunProbe (self_driver s)) None] 1 s).
Proof.
  intros Hs. rewrite ensure_connection_cases.
  destruct (answering_reply s 0 Hs) as [t ->]. done.
Qed.


Lemma upsert_cases movies :
  (∀ g, upsert movies g = Ok (foldl upsert_movie g movies))
  ∧ forallb valid_movie movies = true
  ∨ (∀ g, upsert movies g = Raise statement_error).
Proof.
  unfold upsert.
  destruct (forallb (λ r, forallb (λ kv, packable kv.2) r) movies); simpl;
    [|by right].
  destruct (forallb valid_movie movies); [left | right]; done.
Qed.

(** With a store that answers, a batch that cannot be cleaned or that the
    statement rejects is tried twice and left out. *)
Lemma load_batch_rejected self df i s e :
  answering s →
  (∀ s', answering s' →
     ∃ s'', process_movie_batch (iloc i (i + batch_size) df) s'
            = (Raise e, s'')
            ∧ same_side s' s'' ∧ graph_of s'' = graph_of s') →
  ∃ s', load_batch self df i s = (Ok tt, s')
        ∧ same_side s s' ∧ graph_of s' = graph_of s.
Proof.
  intros Hs Hraise. rewrite load_batch_cases. cbv zeta.
  rewrite try_batch_cases.
  set (batch := iloc i (i + batch_size) df) in *.
  destruct (Hraise s Hs) as (s1 & -> & (Ho1 & Hc1 & Hd1) & Hg1).
  rewrite except_batch_cases.
  set (s1' := later _ 0 s1).
  assert (Hs1' : answering s1').
  { apply (answering_outside s); [|done]. unfold s1'.
    by rewrite outside_later. }
  rewrite (ensure_connection_answering self s1' Hs1').
  set (s2 := later _ 1 s1').
  assert (Hs2 : answering s2).
  { apply (answering_outside s1'); [|done]. unfold s2.
    by rewrite outside_later. }
  destruct (Hraise s2 Hs2) as (s3 & -> & (Ho3 & Hc3 & Hd3) & Hg3).
  eexists. split; [reflexivity|]. split; [split; [|split]|].
  - rewrite outside_later, Ho3. unfold s2, s1'. by rewrite !outside_later.
  - rewrite schema_later, Hc3. unfold s2, s1'. by rewrite !schema_later.
  - rewrite driver_later, Hd3. unfold s2, s1'. by rewrite !driver_later.
  - rewrite graph_later, Hg3. unfold s2, s1'. by rewrite !graph_later.
Qed.

Lemma load_batch_answering self df i :
  ∃ rs, Forall keys_ok rs
        ∧ ∀ s, answering s →
            ∃ s', load_batch self df i s = (Ok tt, s')
                  ∧ same_side s s'
                  ∧ graph_of s' = foldl upsert_movie (graph_of s) rs.
Proof.
  set (batch := iloc i (i + batch_size) df).
  destruct (cleaned batch) as [movies|e] eqn:Hc.
  - destruct (upsert_cases movies) as [[Hup Hvalid]|Hup].
    + exists movies. split; [by apply (cleaned_keys batch)|].
      intros s Hs. rewrite load_batch_cases. cbv zeta.
      rewrite try_batch_cases, process_movie_batch_cases. cbv zeta.
      fold batch. rewrite Hc, Hup.
      destruct (answering_reply s 0 Hs) as [t ->].
      set (s1 := with_graph _ _).
      set (s2 := counted _ _ s1).
      assert (Hside : same_side s s2).
      { unfold s2, s1. repeat split.
        - by rewrite outside_counted, outside_with_graph, !outside_later.
        - by rewrite schema_counted, schema_with_graph, !schema_later. }
      assert (Hg : graph_of s2 = foldl upsert_movie (graph_of s) movies).
      { unfold s2. by rewrite graph_counted. }
      destruct (_ =? 0)%Z.
      * rewrite ensure_connection_answering.
        2:{ apply (answering_outside s); [apply Hside | done]. }
        eexists. split; [reflexivity|]. destruct Hside as (Ho & Hsc & Hd).
        split; [split; [|split]|].
        -- by rewrite outside_later.
        -- by rewrite schema_later.
        -- by rewrite driver_later.
        -- by rewrite graph_later.
      * by exists s2.
    + exists []. split; [done|]. intros s Hs.
      apply (load_batch_rejected self df i s statement_error Hs).
      intros s' Hs'. rewrite process_movie_batch_cases. cbv zeta. fold batch.
      rewrite Hc, Hup. destruct (answering_reply s' 0 Hs') as [t' ->].
      eexists. split; [reflexivity|]. split; [split; [|split]|].
      * by rewrite !outside_later.
      * by rewrite !schema_later.
      * done.
      * by rewrite !graph_later.
  - exists []. split; [done|]. intros s Hs.
    apply (load_batch_rejected self df i s e Hs).
    intros s' _. rewrite process_movie_batch_cases. cbv zeta. fold batch.
    rewrite Hc. eexists. split; [reflexivity|]. split; [split; [|split]|].
    + by rewrite !outside_later.
    + by rewrite !schema_later.
    + done.
    + by rewrite !graph_later.
Qed.

Lemma same_side_trans s1 s2 s3 :
  same_side s1 s2 → same_side s2 s3 → same_side s1 s3.
Proof.
  intros (H1 & H2 & H3) (H4 & H5 & H6). repeat split; congruence.
Qed.

Lemma load_batches_answering self df ixs :
  ∃ rs, Forall keys_ok rs
        ∧ ∀ s, answering s →
            ∃ s', for_each ixs (load_batch self df) s = (Ok tt, s')
                  ∧ same_side s s'
                  ∧ graph_of s' = foldl upsert_movie (graph_of s) rs.
Proof.
  induction ixs as [|i ixs (rs2 & Hk2 & IH)].
  - exists []. split; [done|]. intros s Hs. by exists s.
  - destruct (load_batch_answering self df i) as (rs1 & Hk1 & H1).
    exists (rs1 ++ rs2). split; [by apply Forall_app|].
    intros s Hs. destruct (H1 s Hs) as (s1 & Hrun1 & Hside1 & Hg1).
    destruct (IH s1) as (s2 & Hrun2 & Hside2 & Hg2).
    { apply (answering_outside s); [apply Hside1 | done]. }
    exists s2. split; [|split].
    + by rewrite (for_each_cons_ok _ _ _ _ _ Hrun1).
    + by apply (same_side_trans _ s1).
    + by rewrite foldl_app, <- Hg1.
Qed.


Lemma load_movies_answering self path s df :
  answering s →
  w_exists (world_of s) path = true →
  w_csv (world_of s) path = Ok df →
  st_movie_id_constraint (w_store (world_of s)) = true
  ∨ movie_ids_unique (graph_of s) = true →
  ∃ s0,
    load_movies self path s
    = (_ ← for_each (py_range (length df) batch_size) (load_batch self df);
       in_world (log INFO MsgFinishedLoading)) s0
    ∧ outside s0 = outside s
    ∧ graph_of s0 = graph_of s
    ∧ st_movie_id_constraint (w_store (world_of s0)) = true.
Proof.
  intros Hs Hex Hcsv Hschema.
  destruct (Hs (w_calls (world_of s))) as [t0 H0].
  destruct (Hs (S (w_calls (world_of s)))) as [t1 H1].
  unfold load_movies, create_constraint, create_index, statement.
  eff_unfold. cbn -[for_each py_range batch_size load_batch].
  rewrite Hex. cbn -[for_each py_range batch_size load_batch].
  rewrite Hcsv. cbn -[for_each py_range batch_size load_batch].
  rewrite H0. unfold graph_of in Hschema.
  destruct (st_movie_id_constraint (w_store (world_of s))) eqn:Hflag.
  - cbn -[for_each py_range batch_size load_batch]. rewrite H1.
    cbn -[for_each py_range batch_size load_batch].
    eexists. split; [reflexivity|]. done.
  - destruct Hschema as [|Hunique]; [done|]. rewrite Hunique.
    cbn -[for_each py_range batch_size load_batch]. rewrite H1.
    cbn -[for_each py_range batch_size load_batch].
    eexists. split; [reflexivity|]. done.
Qed.


Lemma no_duplicates_unique g : no_duplicates g → movie_ids_unique g = true.
Proof.
  intros (Hm & _ & _). unfold movie_ids_unique. apply forallb_forall.
  intros n Hn%list_elem_of_In. destruct (node_props n !! py "id") as [v|] eqn:Hv;
    [|done].
  apply bool_decide_eq_true_2. intros Hl Hk.
  apply list_elem_of_lookup in Hn as [i Hi].
  assert (Hin : i ∈ find_nodes Movie (py "id") v g).
  { apply find_from_0. exists n. split; [done|]. unfold has_key.
    rewrite Hv, bool_decide_true by done. simpl. apply cy_eqb_spec.
    destruct (cy_key v) as [k|]; [by exists k | done]. }
  specialize (Hm v). destruct (find_nodes Movie (py "id") v g) as [|a [|b l]].
  - by apply elem_of_nil in Hin.
  - done.
  - simpl in Hm. lia.
Qed.

(** With a store that answers every call, loading a table into a graph
    free of duplicates returns, loading it again returns too and leaves
    the graph as it is, and the graph is still free of duplicates. *)
Lemma load_movies_twice self path s df :
  answering s →
  w_exists (world_of s) path = true →
  w_csv (world_of s) path = Ok df →
  no_duplicates (graph_of s) →
  ∃ s1 s2,
    load_movies self path s = (Ok tt, s1)
    ∧ load_movies self path s1 = (Ok tt, s2)
    ∧ graph_of s2 = graph_of s1
    ∧ no_duplicates (graph_of s1).
Proof.
  intros Hs Hex Hcsv Hnd.
  destruct (load_batches_answering self df (py_range (length df) batch_size))
    as (rs & Hkeys & Hloop).
  assert (Hrun : ∀ s, answering s →
            w_exists (world_of s) path = true →
            w_csv (world_of s) path = Ok df →
            st_movie_id_constraint (w_store (world_of s)) = true
            ∨ movie_ids_unique (graph_of s) = true →
            ∃ s1, load_movies self path s = (Ok tt, s1)
                  ∧ outside s1 = outside s
                  ∧ graph_of s1 = foldl upsert_movie (graph_of s) rs
                  ∧ st_movie_id_constraint (w_store (world_of s1)) = true).
  { intros s' Hs' Hex' Hcsv' Hschema.
    destruct (load_movies_answering self path s' df Hs' Hex' Hcsv' Hschema)
      as (s0 & -> & Ho0 & Hg0 & Hc0).
    destruct (Hloop s0) as (s0' & Hfor & (Ho & Hsc & _) & Hg).
    { by apply (answering_outside s'). }
    rewrite (bind_ok _ _ _ _ _ Hfor), log_step.
    eexists. split; [reflexivity|]. split; [|split].
    - rewrite outside_later. congruence.
    - rewrite graph_later. congruence.
    - pose proof (schema_later [EvLog INFO MsgFinishedLoading] 0 s0') as Hl.
      unfold schema in Hl, Hsc. congruence. }
  destruct (Hrun s Hs Hex Hcsv) as (s1 & Hrun1 & Ho1 & Hg1 & Hc1).
  { right. by apply no_duplicates_unique. }
  destruct (Hrun s1) as (s2 & Hrun2 & Ho2 & Hg2 & Hc2).
  - by apply (answering_outside s).
  - unfold outside in Ho1. congruence.
  - unfold outside in Ho1. congruence.
  - by left.
  - exists s1, s2. split; [done|]. split; [done|]. split.
    + rewrite Hg2, Hg1. by apply upsert_movies_twice.
    + rewrite Hg1. by apply no_duplicates_upsert_movies.
Qed.

(** C4: loading the same dataset twice gives the graph that loading it
    once gives, and no duplicates.  For every table [df] found at the
    path, with a store that answers every call and a graph free of
    duplicates to start from: [load_movies] returns; run again on the
    state it leaves, it returns again and the nodes and relationships
    are the same; and the graph has at most one Movie node per id, at
    most one Genre node per name and no HAS_GENRE relationship twice. *)
Theorem loading_twice_is_loading_once self path s df :
  answering s →
  w_exists (world_of s) path = true →
  w_csv (world_of s) path = Ok df →
  no_duplicates (graph_of s) →
  ∃ s1 s2,
    load_movies self path s = (Ok tt, s1)
    ∧ load_movies self path s1 = (Ok tt, s2)
    ∧ graph_of s2 = graph_of s1
    ∧ no_duplicates (graph_of s1).
Proof. exact (load_movies_twice self path s df). Qed.

Lemma loading_twice_is_loading_once_witness :
  ∃ s1 s2,
    load_movies me dataset_path (connected two_movies []) = (Ok tt, s1)
    ∧ load_movies me dataset_path s1 = (Ok tt, s2)
    ∧ graph_of s2 = graph_of s1
    ∧ no_duplicates (graph_of s1).
Proof.
  apply (loading_twice_is_loading_once me dataset_path
           (connected two_movies []) two_movies).
  - intros k. exists []. apply replies_nil.
  - reflexivity.
  - reflexivity.
  - apply no_duplicates_empty.
Defined.

End Reloading.


Section Defaults.
Import Py Pandas Neo4j Eff World MovieGraphLoader Observe Matching Scenario.

Lemma has_key_other lbl prop v v' n :
  has_key lbl prop v n = true → cy_key v' ≠ cy_key v →
  has_key lbl prop v' n = false.
Proof.
  intros (k & Hn & Hv)%has_key_spec Hne.
  destruct (has_key lbl prop v' n) eqn:Hk'; [|done].
  apply has_key_spec in Hk' as (k' & Hn' & Hv'). congruence.
Qed.

Lemma find_nodes_lookup lbl prop v g ix :
  ix ∈ find_nodes lbl prop v g ↔
  ∃ n, nodes g !! ix = Some n ∧ has_key lbl prop v n = true.
Proof. apply find_from_0. Qed.

(** The nodes the statement binds for a record have what its SET clause
    writes. *)
Lemma upsert_movie_written g r ix n k o :
  key_ok (movie_id r) →
  ix ∈ find_nodes Movie (py "id") (movie_id r) (upsert_movie g r) →
  nodes (upsert_movie g r) !! ix = Some n →
  written r k = Some o → node_props n !! k = o.
Proof.
  intros Hid (n' & Hn' & Hk)%find_nodes_lookup Hn Hw.
  assert (n' = n) as -> by congruence.
  destruct (upsert_movie_nodes g r Hid) as (new & extra & Hnodes & _ & Hextra).
  rewrite Hnodes in Hn. apply lookup_app_Some in Hn as [Hn|[_ Hn]].
  - apply list_lookup_fmap_Some in Hn as (n0 & -> & _).
    rewrite has_key_step in Hk by apply written_id.
    unfold step. rewrite Hk, set_movie_props_lookup, Hw. done.
  - apply list_elem_of_lookup_2 in Hn. rewrite Forall_forall in Hextra.
    apply Hextra in Hn. unfold has_key in Hk. rewrite Hn in Hk. done.
Qed.

(** The statement on a record with another id leaves them alone. *)
Lemma upsert_movie_other g r v k d :
  key_ok (movie_id r) → cy_key (movie_id r) ≠ cy_key v →
  stored v k d g → stored v k d (upsert_movie g r).
Proof.
  intros Hid Hne [Hp Hst].
  pose proof (keeps_upsert_movie g r) as Hkeep.
  destruct (Hkeep) as [Hfind _].
  split; [by apply (keeps_present _ _ _ g); [apply written_id|..]|].
  intros ix n. rewrite Hfind by first [apply written_id | done].
  intros Hix Hn. pose proof Hix as (n0 & Hn0 & Hk)%find_nodes_lookup.
  destruct (upsert_movie_nodes g r Hid) as (new & extra & Hnodes & _ & _).
  rewrite Hnodes in Hn.
  assert (Hlook : (map (step r) (nodes g ++ new) ++ extra) !! ix
                  = Some (step r n0)).
  { apply lookup_app_l_Some. rewrite list_lookup_fmap.
    by rewrite (lookup_app_l_Some _ _ _ _ Hn0). }
  rewrite Hlook in Hn. injection Hn as <-.
  rewrite step_miss by by apply (has_key_other _ _ v).
  by apply (Hst ix).
Qed.

Lemma upsert_movie_stores g r k d :
  keys_ok r → written r k = Some d →
  stored (movie_id r) k d (upsert_movie g r).
Proof.
  intros Hkeys Hw. split; [by apply upsert_movie_settles|].
  intros ix n Hix Hn. destruct Hkeys as [Hid _].
  by apply (upsert_movie_written g r ix n k d).
Qed.

Lemma upsert_movies_other rs v k d : ∀ g,
  Forall (λ r, key_ok (movie_id r) ∧ cy_key (movie_id r) ≠ cy_key v) rs →
  stored v k d g → stored v k d (foldl upsert_movie g rs).
Proof.
  induction rs as [|r rs IH]; intros g Hrs Hst; [done|].
  inversion Hrs as [|? ? [Hid Hne] Hrs']; subst. simpl.
  apply IH; [done|]. by apply upsert_movie_other.
Qed.


Lemma checknull_isna v : checknull v = true → isna_truth v = Ok true.
Proof. by destruct v as [| | |[]| | |]. Qed.

Lemma clean_items_absent k items : ∀ acc d,
  clean_items items acc = Ok d →
  (∀ v, (k, v) ∈ items → checknull v = true) →
  field k acc = PNone → field k d = PNone.
Proof.
  induction items as [|[key value] rest IH]; intros acc d; simpl.
  - by intros [= <-].
  - destruct (clean_value value) as [v'|e] eqn:Hv; simpl; [|done].
    intros Hd Habs Hacc. apply (IH _ _ Hd).
    + intros v Hin. apply Habs. by right.
    + unfold field. destruct (decide (key = k)) as [->|Hne].
      * rewrite dict_get_set_eq. simpl.
        unfold clean_value in Hv.
        rewrite (checknull_isna value) in Hv by (apply Habs; by left).
        change (Ok PNone = Ok v') in Hv. congruence.
      * by rewrite dict_get_set_ne.
Qed.

Lemma clean_record_absent k record w r w' :
  clean_record record w = (Ok r, w') →
  k ≠ py "genres" → absent k record → field k r = PNone.
Proof.
  unfold clean_record. eff_unfold. intros Hrun Hk Habs.
  destruct (clean_items record []) as [d|e] eqn:Hd; [|done].
  assert (Hfield : field k d = PNone).
  { by apply (clean_items_absent k record [] d). }
  assert (Hset : ∀ l, field k (dict_set (py "genres") l d) = PNone).
  { intros l. unfold field. rewrite dict_get_set_ne by done. exact Hfield. }
  destruct (dict_get (py "genres") d) as [v|].
  - destruct (genres_of v) as [l|e]; injection Hrun as <- _; apply Hset.
  - by injection Hrun as <- _.
Qed.

Lemma clean_batch_lookup batch : ∀ w movies w' i record,
  clean_batch batch w = (Ok movies, w') → batch !! i = Some record →
  ∃ r w1 w2, movies !! i = Some r ∧ clean_record record w1 = (Ok r, w2).
Proof.
  induction batch as [|record0 rest IH]; intros w movies w' i record; simpl.
  - by intros _ ?.
  - unfold mbind, M_bind, mret, M_ret.
    destruct (clean_record record0 w) as [[r0|e] w1] eqn:Hr; [|done].
    destruct (clean_batch rest w1) as [[rs|e] w2] eqn:Hrs; [|done].
    intros [= <- <-]. destruct i as [|i]; simpl.
    + intros [= <-]. by exists r0, w, w1.
    + intros Hi. by apply (IH w1 rs w2).
Qed.

Lemma cleaned_absent batch movies i record r k :
  cleaned batch = Ok movies → batch !! i = Some record →
  movies !! i = Some r →
  k ≠ py "genres" → absent k record → field k r = PNone.
Proof.
  unfold cleaned. destruct (clean_batch batch blank) as [res w] eqn:Hc.
  simpl. intros -> Hi Hr Hk Habs.
  destruct (clean_batch_lookup _ _ _ _ _ _ Hc Hi) as (r' & w1 & w2 & Hr' & Hclean).
  assert (r' = r) as -> by congruence.
  by apply (clean_record_absent k record w1 r w2).
Qed.

(** What a call of [_process_movie_batch] that returns has done. *)
Lemma process_movie_batch_ok batch movies s s' :
  process_movie_batch batch s = (Ok tt, s') →
  cleaned batch = Ok movies →
  graph_of s' = foldl upsert_movie (graph_of s) movies
  ∧ Forall keys_ok movies.
Proof.
  rewrite process_movie_batch_cases. cbv zeta. intros Hrun Hc.
  rewrite Hc in Hrun.
  destruct (upsert_cases movies) as [[Hup Hvalid]|Hup];
    rewrite Hup in Hrun; [|by destruct (reply_at s 0)].
  split; [|by apply (cleaned_keys batch)].
  destruct (reply_at s 0); [|done]. injection Hrun as <-.
  by rewrite graph_with_graph.
Qed.

Lemma stored_after batch movies i r s s' k d :
  process_movie_batch batch s = (Ok tt, s') →
  cleaned batch = Ok movies →
  movies !! i = Some r →
  written r k = Some d →
  stored (movie_id r) k d
    (foldl upsert_movie (graph_of s) (take (S i) movies))
  ∧ (Forall (λ r', cy_key (movie_id r') ≠ cy_key (movie_id r))
       (drop (S i) movies) →
     stored (movie_id r) k d (graph_of s')).
Proof.
  intros Hrun Hc Hr Hw.
  destruct (process_movie_batch_ok _ _ _ _ Hrun Hc) as [Hg Hkeys].
  assert (Hhere : stored (movie_id r) k d
            (foldl upsert_movie (graph_of s) (take (S i) movies))).
  { rewrite (take_S_r _ _ _ Hr), foldl_app. simpl.
    apply upsert_movie_stores; [|done].
    rewrite Forall_forall in Hkeys. apply Hkeys.
    by apply list_elem_of_lookup_2 in Hr. }
  split; [done|]. intros Hlast.
  rewrite Hg, <- (take_drop (S i) movies), foldl_app.
  apply upsert_movies_other; [|done].
  apply Forall_forall. intros r' Hr'. split.
  - rewrite Forall_forall in Hkeys.
    destruct (Hkeys r') as [Hid _]; [|done].
    apply list_elem_of_lookup in Hr' as [j Hj].
    rewrite lookup_drop in Hj. by apply list_elem_of_lookup_2 in Hj.
  - rewrite Forall_forall in Hlast. by apply Hlast.
Qed.


Lemma written_vote_average r :
  written r (py "vote_average")
  = Some (kept_value (coalesce (field (py "vote_average") r) (PFloat (FFin 0)))).
Proof.
  unfold written.
  repeat (destruct (decide _) as [H|H];
          first [done | by vm_compute in H | idtac]).
Qed.

Lemma written_vote_count r :
  written r (py "vote_count")
  = Some (kept_value (coalesce (field (py "vote_count") r) (PInt 0))).
Proof.
  unfold written.
  repeat (destruct (decide _) as [H|H];
          first [done | by vm_compute in H | idtac]).
Qed.

Lemma written_popularity r :
  written r (py "popularity")
  = Some (kept_value (coalesce (field (py "popularity") r) (PFloat (FFin 0)))).
Proof.
  unfold written.
  repeat (destruct (decide _) as [H|H];
          first [done | by vm_compute in H | idtac]).
Qed.

Lemma written_text r k :
  k ∈ [py "title"; py "overview"; py "release_date"] →
  written r k = Some (kept_value (field k r)).
Proof.
  rewrite !elem_of_cons, elem_of_nil. intros [->|[->|[->|[]]]]; unfold written.
  all: repeat (destruct (decide _) as [H|H];
               first [done | by vm_compute in H | idtac]).
Qed.

(** X1: a record whose vote_average, vote_count or popularity cell is
    missing, None or NaN is cleaned to None there, and once
    [_process_movie_batch] has returned, the Movie nodes with its id hold
    0.0, 0 and 0.0 there; this for a record that no later record of the
    batch follows with the same id. *)
Theorem absent_numbers_get_defaults batch movies i record r s s' :
  process_movie_batch batch s = (Ok tt, s') →
  cleaned batch = Ok movies →
  batch !! i = Some record →
  movies !! i = Some r →
  Forall (λ r', cy_key (movie_id r') ≠ cy_key (movie_id r))
    (drop (S i) movies) →
  (absent (py "vote_average") record →
   field (py "vote_average") r = PNone
   ∧ stored (movie_id r) (py "vote_average") (Some (PFloat (FFin 0)))
       (graph_of s'))
  ∧ (absent (py "vote_count") record →
     field (py "vote_count") r = PNone
     ∧ stored (movie_id r) (py "vote_count") (Some (PInt 0)) (graph_of s'))
  ∧ (absent (py "popularity") record →
     field (py "popularity") r = PNone
     ∧ stored (movie_id r) (py "popularity") (Some (PFloat (FFin 0)))
         (graph_of s')).
Proof.
  intros Hrun Hc Hi Hr Hlast.
  assert (Hnone : ∀ k, k ≠ py "genres" → absent k record → field k r = PNone).
  { intros k. by apply (cleaned_absent batch movies i). }
  assert (Hst : ∀ k o, written r k = Some o →
            stored (movie_id r) k o (graph_of s')).
  { intros k o Hw.
    by destruct (stored_after batch movies i r s s' k o Hrun Hc Hr Hw)
      as [_ H]; apply H. }
  split; [|split]; intros Habs.
  - assert (Hf : field (py "vote_average") r = PNone).
    { apply Hnone; [by vm_compute|done]. }
    split; [done|]. apply Hst. by rewrite written_vote_average, Hf.
  - assert (Hf : field (py "vote_count") r = PNone).
    { apply Hnone; [by vm_compute|done]. }
    split; [done|]. apply Hst. by rewrite written_vote_count, Hf.
  - assert (Hf : field (py "popularity") r = PNone).
    { apply Hnone; [by vm_compute|done]. }
    split; [done|]. apply Hst. by rewrite written_popularity, Hf.
Qed.


Lemma two_movies_cleaned : cleaned two_movies = Ok [heat_clean; ronin_clean].
Proof. by vm_compute. Qed.

Lemma two_movies_processed :
  process_movie_batch two_movies (connected two_movies [])
  = (Ok tt, snd (process_movie_batch two_movies (connected two_movies []))).
Proof. by vm_compute. Qed.

Lemma absent_numbers_get_defaults_witness :
  stored (PInt 949) (py "vote_average") (Some (PFloat (FFin 0)))
    (graph_of (snd (process_movie_batch two_movies (connected two_movies [])))).
Proof.
  destruct (absent_numbers_get_defaults two_movies [heat_clean; ronin_clean] 0
              heat heat_clean (connected two_movies [])
              (snd (process_movie_batch two_movies (connected two_movies []))))
    as [Hva _].
  - by vm_compute.
  - by vm_compute.
  - reflexivity.
  - reflexivity.
  - repeat constructor. by vm_compute.
  - apply Hva. intros v Hin. unfold heat in Hin.
    rewrite !elem_of_cons, elem_of_nil in Hin.
    repeat destruct Hin as [Hin|Hin]; try done.
    all: injection Hin; intros; subst; try reflexivity.
    all: match goal with H : py _ = py _ |- _ => by vm_compute in H end.
Defined.

(** X2: once [_process_movie_batch] has returned, the Movie nodes with
    the id of a record hold its title, overview and release date as
    cleaned, and nothing where the cell was missing, None or NaN: what the
    node had there before is gone.  This for a record that no later
    record of the batch follows with the same id. *)
Theorem text_properties_follow_the_record batch movies i record r s s' k :
  process_movie_batch batch s = (Ok tt, s') →
  cleaned batch = Ok movies →
  batch !! i = Some record →
  movies !! i = Some r →
  Forall (λ r', cy_key (movie_id r') ≠ cy_key (movie_id r))
    (drop (S i) movies) →
  k ∈ [py "title"; py "overview"; py "release_date"] →
  stored (movie_id r) k (kept_value (field k r)) (graph_of s')
  ∧ (absent k record → stored (movie_id r) k None (graph_of s')).
Proof.
  intros Hrun Hc Hi Hr Hlast Hk.
  assert (Hst : stored (movie_id r) k (kept_value (field k r)) (graph_of s')).
  { destruct (stored_after batch movies i r s s' k _ Hrun Hc Hr
                (written_text r k Hk)) as [_ H]. by apply H. }
  split; [done|]. intros Habs.
  rewrite (cleaned_absent batch movies i record r k Hc Hi Hr) in Hst; [done| |done].
  rewrite !elem_of_cons, elem_of_nil in Hk.
  destruct Hk as [->|[->|[->|[]]]]; by vm_compute.
Qed.

Lemma text_properties_follow_the_record_witness :
  stored (PInt 949) (py "title") (Some (PStr (py "Heat")))
    (graph_of (snd (process_movie_batch two_movies (connected two_movies [])))).
Proof.
  destruct (text_properties_follow_the_record two_movies
              [heat_clean; ronin_clean] 0 heat heat_clean
              (connected two_movies [])
              (snd (process_movie_batch two_movies (connected two_movies [])))
              (py "title"))
    as [Hst _].
  - by vm_compute.
  - by vm_compute.
  - reflexivity.
  - reflexivity.
  - repeat constructor. by vm_compute.
  - by left.
  - exact Hst.
Defined.

End Defaults.

Section CleaningErrors.
Import Py Pandas Neo4j Eff World MovieGraphLoader Observe Matching Scenario.

Lemma isna_raises v e : isna_truth v = Raise e → e = ambiguous_truth.
Proof.
  destruct v as [| | | | |l|]; unfold isna_truth; try done.
  destruct (ravel 31 l) as [|x [|y l']]; try done. intros; congruence.
Qed.

Lemma clean_value_raises v e :
  clean_value v = Raise e ↔ e = ambiguous_truth ∧ isna_truth v = Raise e.
Proof.
  unfold clean_value. destruct (isna_truth v) as [na|e'] eqn:Hna; simpl.
  - split; [done | by intros [_ ?]].
  - split.
    + intros [= ->]. split; [by apply isna_raises in Hna | done].
    + by intros [_ [= ->]].
Qed.

(** Which cell of a record stops the cleaning. *)
Lemma clean_items_raises items : ∀ acc e,
  clean_items items acc = Raise e
  ↔ e = ambiguous_truth
    ∧ ∃ k v, (k, v) ∈ items ∧ isna_truth v = Raise ambiguous_truth.
Proof.
  induction items as [|[key value] rest IH]; intros acc e; simpl.
  - split; [done|]. intros [_ (k & v & Hin & _)]. by apply elem_of_nil in Hin.
  - destruct (clean_value value) as [v'|e'] eqn:Hv; simpl.
    + rewrite IH. split; intros [-> (k & v & Hin & Hr)]; (split; [done|]).
      * exists k, v. split; [by right | done].
      * apply elem_of_cons in Hin as [[= -> ->]|Hin]; [|by exists k, v].
        unfold clean_value in Hv. rewrite Hr in Hv. done.
    + apply clean_value_raises in Hv as [-> Hv]. split.
      * intros [= <-]. split; [done|]. exists key, value. split; [by left|done].
      * by intros [-> _].
Qed.

Lemma clean_record_raises record w e :
  (clean_record record w).1 = Raise e ↔ clean_items record [] = Raise e.
Proof.
  unfold clean_record. eff_unfold.
  destruct (clean_items record []) as [d|e'] eqn:Hd; [|done].
  destruct (dict_get (py "genres") d) as [v|]; [|done].
  destruct (genres_of v); done.
Qed.

Lemma clean_batch_raises batch : ∀ w e,
  (clean_batch batch w).1 = Raise e
  ↔ e = ambiguous_truth
    ∧ ∃ record k v, record ∈ batch ∧ (k, v) ∈ record
                    ∧ isna_truth v = Raise ambiguous_truth.
Proof.
  induction batch as [|record rest IH]; intros w e; simpl.
  - split; [done|]. intros [_ (r & k & v & Hin & _)].
    by apply elem_of_nil in Hin.
  - unfold mbind, M_bind, mret, M_ret.
    pose proof (clean_record_raises record w) as Hrec.
    destruct (clean_record record w) as [[r|e'] w1] eqn:Hr; simpl in Hrec.
    + specialize (IH w1 e).
      destruct (clean_batch rest w1) as [[rs|e''] w2] eqn:Hrs; simpl in *.
      * split; [done|]. intros [-> (r0 & k & v & Hin & Hkv & Hna)].
        apply elem_of_cons in Hin as [->|Hin].
        -- assert (clean_items record [] = Raise ambiguous_truth) as H0.
           { apply clean_items_raises. split; [done|]. by exists k, v. }
           by apply Hrec in H0.
        -- assert (Ok rs = Raise ambiguous_truth) as Habs; [|done].
           apply IH. split; [done|]. by exists r0, k, v.
      * rewrite IH. split; intros [-> (r0 & k & v & Hin & Hkv & Hna)];
          (split; [done|]).
        -- exists r0, k, v. split; [by right|done].
        -- apply elem_of_cons in Hin as [->|Hin]; [|by exists r0, k, v].
           assert (clean_items record [] = Raise ambiguous_truth) as H0.
           { apply clean_items_raises. split; [done|]. by exists k, v. }
           by apply Hrec in H0.
    + assert (He' : e' = ambiguous_truth
                    ∧ ∃ k v, (k, v) ∈ record
                             ∧ isna_truth v = Raise ambiguous_truth).
      { by apply (clean_items_raises record []), Hrec. }
      destruct He' as [-> (k & v & Hkv & Hna)]. split.
      * intros [= <-]. split; [done|]. exists record, k, v.
        split; [by left|done].
      * by intros [-> _].
Qed.

(** A list of two or more items that are not lists themselves: [pd.isna]
    gives an array of as many entries, which has no truth value. *)
Lemma isna_list_raises l :
  2 ≤ length l → Forall not_a_list l →
  isna_truth (PList l) = Raise ambiguous_truth.
Proof.
  intros Hlen Hl. unfold isna_truth.
  assert (Hsub : sublists l = None).
  { destruct l as [|x l']; [done|]. inversion Hl as [|? ? Hx _]; subst.
    by destruct x. }
  change (ravel 31 l) with
    (match sublists l with Some sub => ravel 30 sub | None => l end).
  rewrite Hsub. destruct l as [|x [|y l']]; simpl in *; [lia|lia|done].
Qed.


(** X3: the cleaning loop of [_process_movie_batch] raises exactly when
    some cell of some record is a value on which [pd.isna] has no truth
    value, and what it raises is that ValueError; nothing in a genres
    cell makes it raise otherwise. *)
Theorem cleaning_raises_on_ambiguous_cells_only batch e :
  cleaned batch = Raise e
  ↔ e = ambiguous_truth
    ∧ ∃ record k v, record ∈ batch ∧ (k, v) ∈ record
                    ∧ isna_truth v = Raise ambiguous_truth.
Proof. exact (clean_batch_raises batch blank e). Qed.

Lemma calls_later evs s : w_calls (world_of (later evs 0 s)) = w_calls (world_of s).
Proof. unfold later. simpl. apply calls_emit_all. Qed.

(** X4: a record that holds, under any key, a list of two or more items
    that are not lists makes [_process_movie_batch] raise ValueError for
    the whole batch; no call is made and the graph is as it was. *)
Theorem list_cell_fails_the_batch batch record k l s :
  record ∈ batch → (k, PList l) ∈ record →
  2 ≤ length l → Forall not_a_list l →
  ∃ s', process_movie_batch batch s = (Raise ambiguous_truth, s')
        ∧ w_calls (world_of s') = w_calls (world_of s)
        ∧ graph_of s' = graph_of s.
Proof.
  intros Hrecord Hcell Hlen Hl.
  assert (Hc : cleaned batch = Raise ambiguous_truth).
  { apply clean_batch_raises. split; [done|].
    exists record, k, (PList l). by rewrite isna_list_raises. }
  rewrite process_movie_batch_cases. cbv zeta. rewrite Hc.
  eexists. split; [reflexivity|]. by rewrite calls_later, graph_later.
Qed.

Lemma list_cell_fails_the_batch_witness :
  ∃ s', process_movie_batch [heat; listed] (connected [heat; listed] [])
        = (Raise ambiguous_truth, s')
        ∧ w_calls (world_of s') = w_calls (world_of (connected [heat; listed] []))
        ∧ graph_of s' = graph_of (connected [heat; listed] []).
Proof.
  apply (list_cell_fails_the_batch [heat; listed] listed (py "genres")
           [PStr (py "Action"); PStr (py "Drama")]).
  - right. by left.
  - right. by left.
  - simpl. lia.
  - by repeat constructor.
Defined.

Lemma filter_genres_kept genres : ∀ kept,
  filter_genres genres = Ok kept → Forall kept_genre kept.
Proof.
  induction genres as [|g rest IH]; intros kept; simpl.
  - by intros [= <-].
  - destruct (truthy g) eqn:Ht.
    + destruct (isna_truth g) as [na|e] eqn:Hna; simpl; [|done].
      destruct (filter_genres rest) as [kept'|e]; simpl; [|done].
      intros [= <-]. destruct na; simpl; [by apply IH|].
      destruct (str_strip_truthy g) eqn:Hs; [|by apply IH].
      constructor; [done | by apply IH].
    + simpl. destruct (filter_genres rest) as [kept'|e]; simpl; [|done].
      intros [= <-]. by apply IH.
Qed.

Lemma genres_of_kept v l : genres_of v = Ok l → Forall kept_genre l.
Proof.
  unfold genres_of. destruct (parse_genres v) as [genres|e]; simpl; [|done].
  destruct (py_iter genres) as [items|e]; simpl; [|done].
  apply filter_genres_kept.
Qed.

(** X5: the genres never fail a record.  When the cells of a record
    clean, the record is cleaned: every column but genres is as cleaned;
    without a genres column nothing else happens; with one, the cleaned
    record holds a list there, of items that are true, present and not
    blank, and at most one line is logged, a warning. *)
Theorem genres_never_fail_a_record record d w :
  clean_items record [] = Ok d →
  ∃ r evs,
    clean_record record w = (Ok r, emit_all evs w)
    ∧ (∀ k, k ≠ py "genres" → dict_get k r = dict_get k d)
    ∧ length evs ≤ 1 ∧ forallb is_warning evs = true
    ∧ match dict_get (py "genres") d with
      | None => r = d ∧ evs = []
      | Some _ =>
          ∃ l, dict_get (py "genres") r = Some (PList l) ∧ Forall kept_genre l
      end.
Proof.
  intros Hd. unfold clean_record. eff_unfold. rewrite Hd.
  destruct (dict_get (py "genres") d) as [v|] eqn:Hg.
  - destruct (genres_of v) as [l|e] eqn:Hl.
    + exists (dict_set (py "genres") (PList l) d), [].
      split; [done|]. split; [intros k Hk; by rewrite dict_get_set_ne|].
      split; [simpl; lia|]. split; [done|].
      exists l. split; [apply dict_get_set_eq | by apply genres_of_kept in Hl].
    + eexists (dict_set (py "genres") (PList []) d), [_].
      split; [reflexivity|]. split; [intros k Hk; by rewrite dict_get_set_ne|].
      split; [simpl; lia|]. split; [done|].
      exists []. split; [apply dict_get_set_eq | done].
  - exists d, []. repeat split; simpl; first [done | lia].
Qed.

Lemma genres_never_fail_a_record_witness :
  (∃ r evs,
     clean_record heat blank = (Ok r, emit_all evs blank)
     ∧ (∀ k, k ≠ py "genres" → dict_get k r = dict_get k heat_cells)
     ∧ length evs ≤ 1 ∧ forallb is_warning evs = true
     ∧ ∃ l, dict_get (py "genres") r = Some (PList l) ∧ Forall kept_genre l)
  ∧ (∃ r evs,
       clean_record numbered blank = (Ok r, emit_all evs blank)
       ∧ (∀ k, k ≠ py "genres" → dict_get k r = dict_get k numbered)
       ∧ length evs ≤ 1 ∧ forallb is_warning evs = true
       ∧ ∃ l, dict_get (py "genres") r = Some (PList l)
              ∧ Forall kept_genre l).
Proof.
  split.
  - apply (genres_never_fail_a_record heat heat_cells blank).
    by vm_compute.
  - apply (genres_never_fail_a_record numbered numbered blank).
    by vm_compute.
Defined.

End CleaningErrors.

Section GenreParsing.
Import Py Pandas Neo4j Eff World MovieGraphLoader Observe Matching Scenario
  Encodings.

Lemma lstrip_app_last u c :
  is_space c = false → lstrip (u ++ [c]) = lstrip u ++ [c].
Proof.
  intros Hc. induction u as [|a u IH]; simpl; [by rewrite Hc|].
  by destruct (is_space a).
Qed.

Lemma lstrip_head s :
  lstrip s = [] ∨ ∃ c t, lstrip s = c :: t ∧ is_space c = false.
Proof.
  induction s as [|a s IH]; simpl; [by left|].
  destruct (is_space a) eqn:Ha; [done|]. right. by exists a, s.
Qed.

Lemma lstrip_idem s : lstrip (lstrip s) = lstrip s.
Proof.
  destruct (lstrip_head s) as [->|(c & t & -> & Hc)]; [done|].
  simpl. by rewrite Hc.
Qed.

Lemma strip_head s :
  strip s = [] ∨ ∃ c t, strip s = c :: t ∧ is_space c = false.
Proof.
  unfold strip. destruct (lstrip_head s) as [->|(c & t & -> & Hc)]; [by left|].
  right. simpl. rewrite lstrip_app_last by done.
  rewrite rev_app_distr. simpl. by eexists _, _.
Qed.

Lemma strip_idem s : strip (strip s) = strip s.
Proof.
  assert (Hl : lstrip (strip s) = strip s).
  { destruct (strip_head s) as [->|(c & t & -> & Hc)]; [done|].
    simpl. by rewrite Hc. }
  unfold strip at 1. rewrite Hl. unfold strip.
  by rewrite rev_involutive, lstrip_idem.
Qed.

Lemma strip_nil_inv s : s = [] → strip s = [].
Proof. by intros ->. Qed.

(** The filter on a list of str keeps the ones that are not blank. *)
Lemma filter_genres_strs ps :
  filter_genres (map PStr ps) = Ok (map PStr (List.filter not_blank ps)).
Proof.
  induction ps as [|p ps IH]; [done|].
  cbn [map filter_genres List.filter]. rewrite IH.
  unfold truthy, not_blank. simpl.
  destruct (bool_decide (p = [])) eqn:Hp; simpl.
  - apply bool_decide_eq_true_1 in Hp as ->. done.
  - by destruct (bool_decide (strip p = [])).
Qed.

Lemma not_blank_strip p : not_blank (strip p) = not_blank p.
Proof. unfold not_blank. by rewrite strip_idem. Qed.

(** X6: a genres cell that is text and that [json.loads] does not take.
    When the error is a [JSONDecodeError] the text is split at the commas;
    every piece is trimmed, and the pieces that are blank are dropped.
    Any other error of [json.loads] leaves the record without genres. *)
Theorem comma_separated_genres s e :
  s ≠ [] →
  Json.loads (replace apostrophe quotation_mark s) = Raise e →
  (is_JSONDecodeError e = true →
   normalize_genres (PStr s)
   = map PStr (List.filter not_blank (map strip (split comma s))))
  ∧ (is_JSONDecodeError e = false → normalize_genres (PStr s) = []).
Proof.
  intros Hs Hloads. unfold normalize_genres, genres_of, parse_genres.
  assert (Ht : truthy (PStr s) = true).
  { simpl. by rewrite bool_decide_false. }
  rewrite Ht, Hloads. split; intros ->; cbn [mbind result_bind py_iter].
  - rewrite <- (map_map strip PStr), filter_genres_strs. done.
  - done.
Qed.

Lemma comma_separated_genres_witness :
  normalize_genres (PStr (py "Action, Drama"))
  = map PStr (List.filter not_blank
                (map strip (split comma (py "Action, Drama"))))
  ∧ normalize_genres (PStr (replicate 4301 49%N ++ py ", Drama")) = [].
Proof.
  split.
  - apply (comma_separated_genres (py "Action, Drama") Json.decode_error).
    + by vm_compute.
    + by vm_compute.
    + reflexivity.
  - apply (comma_separated_genres (replicate 4301 49%N ++ py ", Drama")
             (Json.digits_error 4301)).
    + by vm_compute.
    + by vm_compute.
    + reflexivity.
Defined.

(** The two errors of [json.loads] that are no [JSONDecodeError]: an
    integer of 4301 digits, and arrays nested one level too deep. *)
Lemma loads_long_integer :
  Json.loads (replicate 4301 49%N) = Raise (Json.digits_error 4301).
Proof. by vm_compute. Qed.

Lemma loads_deep_nesting :
  Json.loads (replicate (S Json.recursion_left) 91%N)
  = Raise (Json.recursion_error (py "array")).
Proof. by vm_compute. Qed.

Lemma loads_nesting_at_the_limit :
  Json.loads (replicate Json.recursion_left 91%N
              ++ replicate Json.recursion_left 93%N)
  = Ok (Nat.iter (pred Json.recursion_left) (λ v, PList [v]) (PList [])).
Proof. by vm_compute. Qed.


Lemma plain_spec c :
  plain c = true →
  (c =? 34)%N = false ∧ (c =? 39)%N = false ∧ (c =? 92)%N = false
  ∧ (c <? 32)%N = false.
Proof.
  unfold plain, quotation_mark, apostrophe.
  rewrite !andb_true_iff, !negb_true_iff, N.leb_le, N.ltb_ge. tauto.
Qed.

Lemma scanstring_plain w : ∀ acc rest,
  forallb plain w = true →
  Json.scanstring (w ++ 34%N :: rest) acc = Some (rev acc ++ w, rest).
Proof.
  induction w as [|c w IH]; intros acc rest Hw.
  - simpl. by rewrite app_nil_r.
  - simpl in Hw. apply andb_true_iff in Hw as [Hc Hw].
    destruct (plain_spec c Hc) as (H34 & _ & H92 & H32).
    cbn [app Json.scanstring]. rewrite H34, H92, H32, IH by done.
    simpl. by rewrite <- app_assoc.
Qed.

Lemma replace_plain w :
  forallb plain w = true → replace apostrophe quotation_mark w = w.
Proof.
  unfold replace. induction w as [|c w IH]; simpl; [done|].
  intros [Hc Hw]%andb_true_iff.
  destruct (plain_spec c Hc) as (_ & H39 & _ & _).
  unfold apostrophe in *. by rewrite H39, IH.
Qed.

Lemma replace_app a b s t : replace a b (s ++ t) = replace a b s ++ replace a b t.
Proof. unfold replace. apply map_app. Qed.

Lemma replace_quoted q w :
  q = apostrophe ∨ q = quotation_mark →
  forallb plain w = true →
  replace apostrophe quotation_mark (quoted q w) = quoted quotation_mark w.
Proof.
  intros Hq Hw. unfold quoted.
  change (q :: w ++ [q]) with ([q] ++ w ++ [q]).
  rewrite !replace_app, (replace_plain w Hw).
  by destruct Hq as [->| ->].
Qed.

Lemma scan_once_quoted fuel depth w rest :
  forallb plain w = true →
  Json.scan_once (S fuel) depth (quoted quotation_mark w ++ rest)
  = Ok (PStr w, rest).
Proof.
  intros Hw. unfold quoted, quotation_mark.
  cbn [app Json.scan_once]. rewrite N.eqb_refl.
  rewrite <- app_assoc. cbn [app].
  by rewrite (scanstring_plain w [] rest Hw).
Qed.

Lemma loads_quoted w :
  forallb plain w = true →
  Json.loads (quoted quotation_mark w) = Ok (PStr w).
Proof.
  intros Hw. unfold Json.loads.
  change (Json.skip_ws (quoted quotation_mark w)) with (quoted quotation_mark w).
  replace (2 * length (quoted quotation_mark w) + 2)
    with (S (2 * length (quoted quotation_mark w) + 1)) by lia.
  rewrite <- (app_nil_r (quoted quotation_mark w)) at 2.
  by rewrite scan_once_quoted.
Qed.

Lemma filter_genres_chars w :
  filter_genres (map (λ c, PStr [c]) w)
  = Ok (map (λ c, PStr [c]) (List.filter (λ c, negb (is_space c)) w)).
Proof.
  rewrite <- (map_map (λ c, [c]) PStr), filter_genres_strs. f_equal.
  rewrite <- (map_map (λ c, [c]) PStr). f_equal.
  induction w as [|c w IH]; [done|]. cbn [map List.filter]. rewrite IH.
  unfold not_blank, strip. cbn [lstrip].
  destruct (is_space c) eqn:Hc; cbn [rev app lstrip]; rewrite ?Hc; done.
Qed.

(** X7: a genres cell that is one word between apostrophes or between
    quotation marks is read as a JSON string, and its characters are
    taken for the genres, one each, the white space dropped. *)
Theorem quoted_word_gives_its_characters q w :
  q = apostrophe ∨ q = quotation_mark →
  forallb plain w = true →
  normalize_genres (PStr (quoted q w))
  = map (λ c, PStr [c]) (List.filter (λ c, negb (is_space c)) w).
Proof.
  intros Hq Hw. unfold normalize_genres, genres_of, parse_genres.
  assert (Ht : truthy (PStr (quoted q w)) = true) by done.
  rewrite Ht, (replace_quoted q w Hq Hw), (loads_quoted w Hw).
  cbn [mbind result_bind py_iter]. by rewrite filter_genres_chars.
Qed.

Lemma quoted_word_gives_its_characters_witness :
  normalize_genres (PStr (quoted apostrophe (py "Action")))
  = map (λ c, PStr [c])
      (List.filter (λ c, negb (is_space c)) (py "Action")).
Proof.
  apply (quoted_word_gives_its_characters apostrophe (py "Action")).
  - by left.
  - by vm_compute.
Defined.


Lemma items_text_cons q w ws :
  items_text q (w :: ws)
  = quoted q w ++ match ws with
                  | [] => [93%N]
                  | _ :: _ => [comma; 32%N] ++ items_text q ws
                  end.
Proof. done. Qed.

Lemma replace_items q ws :
  q = apostrophe ∨ q = quotation_mark →
  forallb (forallb plain) ws = true →
  replace apostrophe quotation_mark (items_text q ws)
  = items_text quotation_mark ws.
Proof.
  intros Hq. induction ws as [|w ws IH]; [done|].
  intros [Hw Hws]%andb_true_iff. rewrite !items_text_cons, replace_app.
  rewrite (replace_quoted q w Hq Hw). f_equal.
  destruct ws as [|w' ws']; [done|].
  rewrite replace_app, IH by done. done.
Qed.

Lemma items_text_length q ws : length ws ≤ length (items_text q ws).
Proof.
  induction ws as [|w ws IH]; [simpl; lia|].
  rewrite items_text_cons, length_app. unfold quoted. simpl.
  destruct ws as [|w' ws']; [simpl; lia|].
  rewrite length_app. simpl in *. lia.
Qed.

Lemma items_text_head ws :
  ws ≠ [] → ∃ t, items_text quotation_mark ws = 34%N :: t.
Proof. destruct ws as [|w ws]; [done|]. intros _. by eexists. Qed.

Lemma array_items_text depth ws : ∀ fuel acc,
  ws ≠ [] → forallb (forallb plain) ws = true → length ws < fuel →
  Json.array_items fuel depth (items_text quotation_mark ws) acc
  = Ok (rev acc ++ map PStr ws, []).
Proof.
  induction ws as [|w ws IH]; intros fuel acc Hne Hws Hfuel; [done|].
  apply andb_true_iff in Hws as [Hw Hws].
  destruct fuel as [|[|fuel]]; simpl in Hfuel; [lia|lia|].
  rewrite items_text_cons.
  change (Json.array_items (S (S fuel)) depth ?s acc)
    with ('(v, r) ← Json.scan_once (S fuel) depth s;
          match Json.skip_ws r with
          | c :: r' =>
              if (c =? 93)%N then Ok (rev (v :: acc), r')
              else if (c =? 44)%N
              then Json.array_items (S fuel) depth (Json.skip_ws r') (v :: acc)
              else Raise Json.decode_error
          | [] => Raise Json.decode_error
          end).
  rewrite (scan_once_quoted fuel depth w _ Hw). cbn [mbind result_bind].
  destruct ws as [|w' ws'].
  - simpl. by rewrite <- ?app_assoc.
  - destruct (items_text_head (w' :: ws')) as [t Ht]; [done|].
    cbn [app Json.skip_ws Json.is_ws comma N.eqb orb Pos.eqb].
    rewrite Ht. cbn [Json.skip_ws Json.is_ws N.eqb orb Pos.eqb].
    rewrite <- Ht, IH; [|done|done|simpl in *; lia].
    simpl. by rewrite <- ?app_assoc.
Qed.

Lemma loads_list_text ws :
  forallb (forallb plain) ws = true →
  Json.loads (list_text quotation_mark ws) = Ok (PList (map PStr ws)).
Proof.
  intros Hws. unfold Json.loads, list_text.
  change (Json.skip_ws (91%N :: ?s)) with (91%N :: s).
  pose proof (items_text_length quotation_mark ws) as Hlen.
  replace (2 * length (91%N :: items_text quotation_mark ws) + 2)
    with (S (S (2 * length (items_text quotation_mark ws) + 2)))
    by (simpl; lia).
  destruct ws as [|w ws]; [done|].
  destruct (items_text_head (w :: ws)) as [t Ht]; [done|].
  unfold Json.recursion_left.
  change (Json.scan_once (S (S ?f)) (S ?d) (91%N :: ?r))
    with (match Json.skip_ws r with
          | c' :: r' =>
              if (c' =? 93)%N then Ok (PList [], r')
              else '(l, r'') ← Json.array_items (S f) d (c' :: r') [];
                   Ok (PList l, r'')
          | [] => Raise Json.decode_error
          end).
  rewrite Ht. cbn [Json.skip_ws Json.is_ws N.eqb orb Pos.eqb].
  rewrite <- Ht, array_items_text; [done|done|done|simpl in *; lia].
Qed.

(** X8: a genres cell that spells a list of words the way Python prints
    one, between apostrophes or between quotation marks, gives these
    words back, as they are and in their order, the blank ones dropped. *)
Theorem listed_genres_round_trip q ws :
  q = apostrophe ∨ q = quotation_mark →
  forallb (forallb plain) ws = true →
  normalize_genres (PStr (list_text q ws))
  = map PStr (List.filter not_blank ws).
Proof.
  intros Hq Hws. unfold normalize_genres, genres_of, parse_genres.
  assert (Ht : truthy (PStr (list_text q ws)) = true) by done.
  assert (Hr : replace apostrophe quotation_mark (list_text q ws)
               = list_text quotation_mark ws).
  { unfold list_text. change (91%N :: ?s) with ([91%N] ++ s).
    by rewrite replace_app, replace_items. }
  rewrite Ht, Hr, (loads_list_text ws Hws).
  cbn [mbind result_bind py_iter]. by rewrite filter_genres_strs.
Qed.

Lemma listed_genres_round_trip_witness :
  normalize_genres (PStr (list_text apostrophe [py "Action"; py "Thriller"]))
  = map PStr (List.filter not_blank [py "Action"; py "Thriller"]).
Proof.
  apply (listed_genres_round_trip apostrophe [py "Action"; py "Thriller"]).
  - by left.
  - by vm_compute.
Defined.

End GenreParsing.

Section Store.
Import Py Pandas Neo4j Eff World MovieGraphLoader Observe Matching Scenario.

Lemma merge_node_bound lbl prop v g i :
  i ∈ (merge_node lbl prop v g).2 →
  i ∈ find_nodes lbl prop v g ∨ i = length (nodes g).
Proof.
  destruct (present_dec lbl prop v g) as [Hp|Hnone].
  - rewrite merge_node_found by done. by left.
  - rewrite merge_node_new by done. simpl.
    intros ->%list_elem_of_singleton. by right.
Qed.

Lemma merge_node_lookup lbl prop v g i n :
  nodes g !! i = Some n → nodes (merge_node lbl prop v g).1 !! i = Some n.
Proof.
  intros Hi. destruct (merge_node_nodes lbl prop v g) as [->|[_ ->]]; [done|].
  by apply lookup_app_l_Some.
Qed.

(** What the statement on one record does to a node that was there: it
    leaves it, or it is a Movie node and the SET clause writes on it. *)
Lemma upsert_movie_node g r i n :
  nodes g !! i = Some n →
  ∃ n', nodes (upsert_movie g r) !! i = Some n'
        ∧ (n' = n ∨ n' = set_movie_props r n ∧ node_label n = Movie).
Proof.
  intros Hi. rewrite upsert_movie_unfold.
  edestruct (genre_nodes_foldl
               (λ acc m, foldl (merge_genre m) acc (genres_of_movie r)))
    as (extra & -> & _).
  { intros g' m. apply genre_nodes_foldl. intros. apply merge_genre_nodes. }
  unfold alter_nodes. simpl.
  pose proof (merge_node_lookup Movie (py "id") (movie_id r) g i n Hi) as Hi1.
  eexists. split.
  { apply lookup_app_l_Some. rewrite list_lookup_imap, Hi1. reflexivity. }
  simpl. case_bool_decide as Hin; [|by left]. right. split; [done|].
  apply merge_node_bound in Hin as [Hin| ->].
  - apply find_nodes_lookup in Hin as (n0 & Hn0 & Hk).
    assert (n0 = n) as -> by congruence.
    unfold has_key in Hk. apply andb_true_iff in Hk as [Hl _].
    by apply bool_decide_eq_true_1 in Hl.
  - apply lookup_lt_Some in Hi. lia.
Qed.

Lemma upsert_movie_rels g r e : e ∈ rels g → e ∈ rels (upsert_movie g r).
Proof. intros He. by apply (keeps_upsert_movie g r). Qed.

Lemma nothing_lost_refl g : nothing_lost g g.
Proof. split; [done|]. intros i n Hi. by exists n. Qed.

Lemma nothing_lost_trans g1 g2 g3 :
  nothing_lost g1 g2 → nothing_lost g2 g3 → nothing_lost g1 g3.
Proof.
  intros [Hr1 Hn1] [Hr2 Hn2]. split; [by auto|].
  intros i n Hi. destruct (Hn1 i n Hi) as (n' & Hi' & Hl & Hid & Hname & Hg).
  destruct (Hn2 i n' Hi') as (n'' & Hi'' & Hl' & Hid' & Hname' & Hg').
  exists n''. split; [done|]. repeat split; try congruence.
  intros Hgenre. rewrite <- (Hg Hgenre). apply Hg'. by rewrite Hl.
Qed.

Lemma nothing_lost_upsert_movie g r : nothing_lost g (upsert_movie g r).
Proof.
  split; [intros e; apply upsert_movie_rels|].
  intros i n Hi. destruct (upsert_movie_node g r i n Hi) as (n' & Hi' & Hn').
  exists n'. split; [done|]. destruct Hn' as [->|[-> Hl]]; [done|].
  split; [|split; [|split]].
  - apply set_movie_props_label.
  - by rewrite set_movie_props_lookup, written_id.
  - by rewrite set_movie_props_lookup, written_name.
  - by rewrite Hl.
Qed.

Lemma nothing_lost_upsert_movies rs : ∀ g,
  nothing_lost g (foldl upsert_movie g rs).
Proof.
  induction rs as [|r rs IH]; intros g; [apply nothing_lost_refl|].
  simpl. eapply nothing_lost_trans; [apply nothing_lost_upsert_movie | apply IH].
Qed.


(** X9: whatever the outcome of [_process_movie_batch], no
    relationship and no node of the graph is lost: each node is where it
    was, with its label, its id and its name, and a Genre node is
    untouched. *)
Theorem process_movie_batch_loses_nothing batch s :
  nothing_lost (graph_of s) (graph_of (snd (process_movie_batch batch s))).
Proof.
  rewrite process_movie_batch_cases. cbv zeta.
  destruct (cleaned batch) as [movies|e]; simpl snd.
  2:{ rewrite graph_later. apply nothing_lost_refl. }
  destruct (upsert_cases movies) as [[Hup _]|Hup]; rewrite Hup.
  2:{ destruct (reply_at s 0); simpl snd; rewrite !graph_later;
      apply nothing_lost_refl. }
  destruct (reply_at s 0) as [t|e []]; simpl snd;
    rewrite ?graph_with_graph, ?graph_later;
    first [apply nothing_lost_upsert_movies | apply nothing_lost_refl].
Qed.

(** X10: once [_process_movie_batch] has returned, every record of the
    batch is in the graph: there is a Movie node with its id, a Genre
    node for each of its genres, and a HAS_GENRE relationship from each
    such Movie node to each such Genre node. *)
Theorem every_record_is_linked batch movies s s' r :
  process_movie_batch batch s = (Ok tt, s') →
  cleaned batch = Ok movies →
  r ∈ movies →
  settled r (graph_of s').
Proof.
  intros Hrun Hc Hr.
  destruct (process_movie_batch_ok _ _ _ _ Hrun Hc) as [-> Hkeys].
  pose proof (upsert_settles movies (graph_of s) Hkeys) as Hall.
  rewrite Forall_forall in Hall. by apply Hall.
Qed.

Lemma every_record_is_linked_witness :
  settled heat_clean
    (graph_of (snd (process_movie_batch two_movies (connected two_movies [])))).
Proof.
  apply (every_record_is_linked two_movies [heat_clean; ronin_clean]
           (connected two_movies [])).
  - by vm_compute.
  - by vm_compute.
  - by left.
Defined.

Lemma valid_movie_has_id r : field (py "id") r = PNone → valid_movie r = false.
Proof. intros Hid. unfold valid_movie. by rewrite Hid. Qed.

Lemma cleaned_lookup batch movies i record :
  cleaned batch = Ok movies → batch !! i = Some record →
  ∃ r, movies !! i = Some r.
Proof.
  unfold cleaned. destruct (clean_batch batch blank) as [res w] eqn:Hc.
  simpl. intros -> Hi.
  destruct (clean_batch_lookup _ _ _ _ _ _ Hc Hi) as (r & _ & _ & Hr & _).
  by exists r.
Qed.

(** X11: with a store that answers every call, a batch that holds a
    record without an id (no such column, or None or NaN in it) is left
    out as a whole: the turn of the loop ends without an error, the graph
    is as it was, and the count of processed rows does not move. *)
Theorem record_without_id_loses_its_batch self df i j record s :
  answering s →
  iloc i (i + batch_size) df !! j = Some record →
  absent (py "id") record →
  ∃ s', load_batch self df i s = (Ok tt, s')
        ∧ graph_of s' = graph_of s
        ∧ total_processed s' = total_processed s.
Proof.
  intros Hs Hj Habs.
  set (batch := iloc i (i + batch_size) df) in *.
  assert (Hraise : ∃ e, ∀ s0, answering s0 → ∃ s1,
            process_movie_batch batch s0 = (Raise e, s1)
            ∧ same_side s0 s1 ∧ graph_of s1 = graph_of s0).
  { destruct (cleaned batch) as [movies|e] eqn:Hc.
    - exists statement_error. intros s0 Hs0.
      rewrite process_movie_batch_cases. cbv zeta. rewrite Hc.
      destruct (cleaned_lookup batch movies j record Hc Hj) as [r Hr].
      assert (Hid : field (py "id") r = PNone).
      { apply (cleaned_absent batch movies j record r); [done..| |done].
        by vm_compute. }
      destruct (upsert_cases movies) as [[_ Hvalid]|Hup].
      + rewrite forallb_forall in Hvalid.
        apply list_elem_of_lookup_2, list_elem_of_In, Hvalid in Hr.
        by rewrite (valid_movie_has_id r Hid) in Hr.
      + rewrite Hup. destruct (answering_reply s0 0 Hs0) as [t0 ->].
        eexists. split; [reflexivity|].
        split; [split; [|split]|].
        * by rewrite !outside_later.
        * by rewrite !schema_later.
        * done.
        * by rewrite !graph_later.
    - exists e. intros s0 _. rewrite process_movie_batch_cases. cbv zeta.
      rewrite Hc. eexists. split; [reflexivity|]. split; [split; [|split]|].
      + by rewrite !outside_later.
      + by rewrite !schema_later.
      + done.
      + by rewrite !graph_later. }
  destruct Hraise as [e Hraise].
  destruct (load_batch_rejected self df i s e Hs Hraise) as (s' & Hrun & _ & Hg).
  exists s'. split; [done|]. split; [done|].
  pose proof (load_batch_counts self df i s) as Hcount. cbv zeta in Hcount.
  fold batch in Hcount. destruct (Hraise s Hs) as (s1 & Hp & _).
  rewrite Hp, Hrun in Hcount. by destruct Hcount as [Ht _].
Qed.

Lemma record_without_id_loses_its_batch_witness :
  ∃ s', load_batch me [heat; nameless] 0 (connected [heat; nameless] [])
        = (Ok tt, s')
        ∧ graph_of s' = graph_of (connected [heat; nameless] [])
        ∧ total_processed s'
          = total_processed (connected [heat; nameless] []).
Proof.
  apply (record_without_id_loses_its_batch me [heat; nameless] 0 1 nameless).
  - intros k. exists []. apply replies_nil.
  - by vm_compute.
  - intros v Hin. unfold nameless in Hin.
    rewrite !elem_of_cons, elem_of_nil in Hin.
    repeat destruct Hin as [Hin|Hin]; try done.
    all: injection Hin; intros; subst; try reflexivity.
    all: match goal with H : py _ = py _ |- _ => by vm_compute in H end.
Defined.

End Store.

Section Batching.
Import Py Pandas Neo4j Eff World MovieGraphLoader Observe Matching Scenario.

Lemma py_range_nil step : 0 < step → py_range 0 step = [].
Proof.
  intros Hstep. unfold py_range.
  replace ((0 + step - 1) `div` step) with 0; [done|].
  symmetry. apply Nat.div_small. lia.
Qed.

Lemma py_range_cons stop step :
  0 < step → 0 < stop →
  py_range stop step = 0 :: map (λ i, i + step) (py_range (stop - step) step).
Proof.
  intros Hstep Hstop. unfold py_range.
  assert (Hn : (stop + step - 1) `div` step
               = S ((stop - step + step - 1) `div` step)).
  { destruct (decide (step ≤ stop)) as [Hle|Hlt].
    - replace (stop + step - 1) with ((stop - step + step - 1) + 1 * step) by lia.
      rewrite Nat.div_add by lia. lia.
    - replace (stop - step) with 0 by lia.
      rewrite (Nat.div_small (0 + step - 1)) by lia.
      symmetry. apply (Nat.div_unique _ _ _ (stop - 1)); lia. }
  rewrite Hn. cbn [seq map]. f_equal.
  rewrite <- seq_shift, !map_map. apply map_ext. intros k. simpl. lia.
Qed.

Lemma iloc_shift {A} i step (df : list A) :
  iloc (i + step) (i + step + step) df = iloc i (i + step) (drop step df).
Proof.
  unfold iloc. rewrite drop_drop.
  replace (i + step + step - (i + step)) with (i + step - i) by lia.
  by rewrite (Nat.add_comm step i).
Qed.

(** The slices the loop takes are the table, cut in order into pieces of
    [step] rows, the last one shorter when the rows do not fill it. *)
Lemma slices_partition {A} step (df : list A) :
  0 < step →
  concat (map (λ i, iloc i (i + step) df) (py_range (length df) step)) = df.
Proof.
  intros Hstep. remember (length df) as n eqn:Hn.
  revert df Hn. induction n as [n IH] using lt_wf_ind. intros df ->.
  destruct df as [|x df']; [by rewrite py_range_nil|].
  set (df := x :: df') in *.
  rewrite py_range_cons by (simpl; lia). cbn [map concat].
  rewrite map_map.
  rewrite (map_ext _ (λ i, iloc i (i + step) (drop step df)))
    by (intros i; apply iloc_shift).
  rewrite <- (length_drop df step).
  rewrite (IH (length (drop step df))); [| |done].
  - unfold iloc. simpl drop at 1. rewrite Nat.add_0_l, Nat.sub_0_r.
    apply take_drop.
  - rewrite length_drop. simpl. lia.
Qed.

Lemma slices_sizes {A} step (df : list A) :
  0 < step →
  Forall (λ i, 0 < length (iloc i (i + step) df) ≤ step)
    (py_range (length df) step).
Proof.
  intros Hstep. unfold py_range. apply Forall_forall.
  intros i (k & -> & Hk)%list_elem_of_fmap.
  apply elem_of_seq in Hk as [_ Hk]. simpl in Hk.
  unfold iloc. rewrite length_take, length_drop.
  replace (k * step + step - k * step) with step by lia.
  assert (k * step < length df); [|lia].
  assert (Hdiv : (length df + step - 1) `div` step * step ≤ length df + step - 1).
  { rewrite Nat.mul_comm. apply Nat.Div0.mul_div_le. }
  nia.
Qed.

(** X12: the batches [load_movies] takes are the table: the slices
    [df.iloc[i:i + batch_size]] for [i] in [range(0, len(df), batch_size)],
    put end to end, are the rows of [df] in their order; none is empty
    and none has more than [batch_size] rows. *)
Theorem batches_partition_the_table (df : list pydict) :
  concat (map (λ i, iloc i (i + batch_size) df)
            (py_range (length df) batch_size)) = df
  ∧ Forall (λ i, 0 < length (iloc i (i + batch_size) df) ≤ batch_size)
      (py_range (length df) batch_size).
Proof.
  split.
  - apply slices_partition, batch_size_pos.
  - apply slices_sizes, batch_size_pos.
Qed.

End Batching.

Section Loading.
Import Py Pandas Neo4j Eff World MovieGraphLoader Observe Matching Scenario.

Lemma iter_count_call n w :
  w_calls (Nat.iter n count_call w) = n + w_calls w
  ∧ w_reply (Nat.iter n count_call w) = w_reply w.
Proof. induction n as [|n [IH1 IH2]]; simpl; [done|]. by rewrite IH1, IH2. Qed.

Lemma reply_at_later evs n s k :
  reply_at (later evs n s) k = reply_at s (k + n).
Proof.
  unfold reply_at, later. simpl.
  destruct (iter_count_call n (emit_all evs (world_of s))) as [-> ->].
  rewrite reply_emit_all, calls_emit_all. f_equal. lia.
Qed.

Lemma reply_at_with_graph g s k : reply_at (with_graph g s) k = reply_at s k.
Proof. reflexivity. Qed.

Lemma total_later evs n s : total_processed (later evs n s) = total_processed s.
Proof. reflexivity. Qed.

(** [load_movies] up to the loop, when the path is found, the table is
    read and the two schema statements answer. *)
Lemma load_movies_started self path s df t0 t1 :
  w_exists (world_of s) path = true →
  w_csv (world_of s) path = Ok df →
  reply_at s 0 = Returns t0 →
  reply_at s 1 = Returns t1 →
  st_movie_id_constraint (w_store (world_of s)) = true
  ∨ movie_ids_unique (graph_of s) = true →
  ∃ s0,
    load_movies self path s
    = (_ ← for_each (py_range (length df) batch_size) (load_batch self df);
       in_world (log INFO MsgFinishedLoading)) s0
    ∧ trace_of s0
      = trace_of s ++ [EvCall (PathExists path) None;
                       EvLog INFO (MsgReadingCsv path);
                       EvCall (ReadCsv path) None;
                       EvLog INFO (MsgFoundMovies (length df));
                       EvCall (CreateConstraint (self_driver s)) None;
                       EvCall (CreateIndex (self_driver s)) None]
    ∧ graph_of s0 = graph_of s
    ∧ total_processed s0 = 0%Z
    ∧ self_driver s0 = self_driver s
    ∧ outside s0 = outside s
    ∧ w_calls (world_of s0) = 2 + w_calls (world_of s).
Proof.
  intros Hex Hcsv H0 H1 Hschema. unfold reply_at in H0, H1. simpl in H0, H1.
  unfold load_movies, create_constraint, create_index, statement.
  eff_unfold. cbn -[for_each py_range batch_size load_batch].
  rewrite Hex. cbn -[for_each py_range batch_size load_batch].
  rewrite Hcsv. cbn -[for_each py_range batch_size load_batch].
  rewrite H0. unfold graph_of in Hschema.
  destruct (st_movie_id_constraint (w_store (world_of s))) eqn:Hflag.
  - cbn -[for_each py_range batch_size load_batch]. rewrite H1.
    cbn -[for_each py_range batch_size load_batch].
    eexists. split; [reflexivity|]. unfold trace_of. simpl.
    rewrite <- !app_assoc. done.
  - destruct Hschema as [|Hunique]; [done|]. rewrite Hunique.
    cbn -[for_each py_range batch_size load_batch]. rewrite H1.
    cbn -[for_each py_range batch_size load_batch].
    eexists. split; [reflexivity|]. unfold trace_of. simpl.
    rewrite <- !app_assoc. done.
Qed.

(** X13: an empty table.  When the file is found and read and has no
    row, and the two schema statements answer, [load_movies] returns
    having sent the two schema statements and no batch; the graph is as
    it was. *)
Theorem empty_table_sends_no_batch self path s t0 t1 :
  w_exists (world_of s) path = true →
  w_csv (world_of s) path = Ok [] →
  reply_at s 0 = Returns t0 →
  reply_at s 1 = Returns t1 →
  st_movie_id_constraint (w_store (world_of s)) = true
  ∨ movie_ids_unique (graph_of s) = true →
  ∃ s',
    load_movies self path s = (Ok tt, s')
    ∧ events_since s s'
      = [EvCall (PathExists path) None;
         EvLog INFO (MsgReadingCsv path);
         EvCall (ReadCsv path) None;
         EvLog INFO (MsgFoundMovies 0);
         EvCall (CreateConstraint (self_driver s)) None;
         EvCall (CreateIndex (self_driver s)) None;
         EvLog INFO MsgFinishedLoading]
    ∧ graph_of s' = graph_of s.
Proof.
  intros Hex Hcsv H0 H1 Hschema.
  destruct (load_movies_started self path s [] t0 t1 Hex Hcsv H0 H1 Hschema)
    as (s0 & -> & Htrace & Hg & _).
  simpl length. rewrite (py_range_nil batch_size batch_size_pos).
  cbn [for_each]. rewrite (bind_ok _ _ s0 tt s0) by done. rewrite log_step.
  eexists. split; [reflexivity|]. split.
  - apply events_since_app. rewrite trace_later, Htrace, <- app_assoc. done.
  - by rewrite graph_later.
Qed.

Lemma empty_table_sends_no_batch_witness :
  ∃ s',
    load_movies me dataset_path (connected [] []) = (Ok tt, s')
    ∧ events_since (connected [] []) s'
      = [EvCall (PathExists dataset_path) None;
         EvLog INFO (MsgReadingCsv dataset_path);
         EvCall (ReadCsv dataset_path) None;
         EvLog INFO (MsgFoundMovies 0);
         EvCall (CreateConstraint (self_driver (connected [] []))) None;
         EvCall (CreateIndex (self_driver (connected [] []))) None;
         EvLog INFO MsgFinishedLoading]
    ∧ graph_of s' = graph_of (connected [] []).
Proof.
  apply (empty_table_sends_no_batch me dataset_path (connected [] []) [] []).
  - reflexivity.
  - reflexivity.
  - reflexivity.
  - reflexivity.
  - right. reflexivity.
Defined.


(** X14: a first attempt that fails although the store answers the
    connection check, and a retry that returns: the graph is what one run
    of the statement on the batch gives, whether or not the failed attempt
    had been committed, and the count of processed rows does not move. *)
Theorem retried_batch_is_applied_once self df i s movies g e c t1 t2 :
  cleaned (iloc i (i + batch_size) df) = Ok movies →
  upsert movies (graph_of s) = Ok g →
  reply_at s 0 = Fails e c →
  reply_at s 1 = Returns t1 →
  reply_at s 2 = Returns t2 →
  ∃ s', load_batch self df i s = (Ok tt, s')
        ∧ graph_of s' = g
        ∧ total_processed s' = total_processed s.
Proof.
  intros Hc Hg H0 H1 H2.
  set (batch := iloc i (i + batch_size) df) in *.
  destruct (upsert_cases movies) as [[Hup Hvalid]|Hup];
    [|by rewrite Hup in Hg].
  assert (g = foldl upsert_movie (graph_of s) movies) as Hgdef.
  { rewrite Hup in Hg. congruence. }
  assert (Hidem : foldl upsert_movie g movies = g).
  { rewrite Hgdef. apply upsert_movies_twice. by apply (cleaned_keys batch). }
  rewrite load_batch_cases. cbv zeta. fold batch.
  rewrite try_batch_cases, process_movie_batch_cases. cbv zeta.
  rewrite Hc, Hup, H0, <- Hgdef.
  set (s1 := later (warnings batch) 0 s).
  set (sent := later [EvCall (RunUpsert (self_driver s) movies) (Some e)] 1 s1).
  set (sA := if c then with_graph g sent else sent).
  assert (HsA : ∀ k, reply_at sA k = reply_at s (k + 1)).
  { intros k. unfold sA, sent, s1. destruct c;
      rewrite ?reply_at_with_graph, !reply_at_later; f_equal; lia. }
  assert (HgA : graph_of sA = g ∨ graph_of sA = graph_of s).
  { unfold sA, sent, s1. destruct c.
    - left. apply graph_with_graph.
    - right. by rewrite !graph_later. }
  assert (HtA : total_processed sA = total_processed s).
  { unfold sA. by destruct c. }
  rewrite except_batch_cases.
  set (sB := later _ 0 sA).
  rewrite ensure_connection_cases. cbv zeta.
  assert (HsB : reply_at sB 0 = Returns t1).
  { unfold sB. by rewrite reply_at_later, HsA. }
  rewrite HsB.
  set (sC := later _ 1 sB).
  rewrite process_movie_batch_cases. cbv zeta. rewrite Hc, Hup.
  assert (HsC : reply_at sC 0 = Returns t2).
  { unfold sC, sB. by rewrite !reply_at_later, HsA. }
  rewrite HsC.
  eexists. split; [reflexivity|]. split.
  - rewrite graph_with_graph. unfold sC, sB. rewrite !graph_later.
    destruct HgA as [->| ->]; [done | by symmetry].
  - done.
Qed.

Lemma retried_batch_is_applied_once_witness :
  ∃ s', load_batch me two_movies 0
          (connected two_movies [Fails unavailable true]) = (Ok tt, s')
        ∧ graph_of s' = foldl upsert_movie empty_graph [heat_clean; ronin_clean]
        ∧ total_processed s'
          = total_processed (connected two_movies [Fails unavailable true]).
Proof.
  apply (retried_batch_is_applied_once me two_movies 0
           (connected two_movies [Fails unavailable true])
           [heat_clean; ronin_clean] _ unavailable true [] []).
  - by vm_compute.
  - by vm_compute.
  - reflexivity.
  - reflexivity.
  - reflexivity.
Defined.


Lemma last_later evs ev n s :
  last (trace_of (later (evs ++ [ev]) n s)) = Some ev.
Proof. by rewrite trace_later, app_assoc, last_snoc. Qed.

Lemma ensure_connection_raises self s e s' :
  ensure_connection self s = (Raise e, s') →
  ∃ d, last (trace_of s') = Some (EvCall (CloseDriver d) (Some e))
       ∨ last (trace_of s') = Some (EvCall (OpenDriver d) (Some e)).
Proof.
  rewrite ensure_connection_cases. cbv zeta.
  destruct (reply_at s 0) as [t|e0 c0]; [done|].
  destruct (reply_at s 1) as [t|e1 c1].
  - destruct (reply_at s 2) as [t'|e2 c2]; [done|].
    intros [= <- <-]. eexists. right.
    apply (last_later [_; _; _; _]).
  - intros [= <- <-]. eexists. left. apply (last_later [_; _]).
Qed.

(** X15: what a turn of the loop raises.  An error leaves
    [load_batch] only from the connection check of the [except] block,
    and it is then the error of closing the old driver or of opening the
    new one; nothing the cleaning, the statement or the retry raises
    gets out. *)
Theorem only_a_failed_reconnect_escapes self df i s e s' :
  load_batch self df i s = (Raise e, s') →
  ∃ d, last (trace_of s') = Some (EvCall (CloseDriver d) (Some e))
       ∨ last (trace_of s') = Some (EvCall (OpenDriver d) (Some e)).
Proof.
  rewrite load_batch_cases. cbv zeta.
  destruct (try_batch self df _ s) as [[[]|e0] s1]; [done|].
  rewrite except_batch_cases.
  destruct (ensure_connection self _) as [[[]|e1] s2] eqn:Hens.
  - by destruct (process_movie_batch _ s2) as [[[]|e2] s3].
  - intros [= <- <-]. by apply ensure_connection_raises in Hens.
Qed.

Lemma only_a_failed_reconnect_escapes_witness :
  ∃ d,
    last (trace_of
            (snd (load_batch me [movie1] 0
                    (connected [movie1]
                       [Fails unavailable false; Fails unavailable false;
                        Fails broken_pipe false]))))
    = Some (EvCall (CloseDriver d) (Some broken_pipe))
    ∨ last (trace_of
              (snd (load_batch me [movie1] 0
                      (connected [movie1]
                         [Fails unavailable false; Fails unavailable false;
                          Fails broken_pipe false]))))
      = Some (EvCall (OpenDriver d) (Some broken_pipe)).
Proof.
  assert (H : fst (load_batch me [movie1] 0
                     (connected [movie1]
                        [Fails unavailable false; Fails unavailable false;
                         Fails broken_pipe false]))
              = Raise broken_pipe) by (by vm_compute).
  apply (only_a_failed_reconnect_escapes me [movie1] 0
           (connected [movie1]
              [Fails unavailable false; Fails unavailable false;
               Fails broken_pipe false])).
  rewrite <- H. apply surjective_pairing.
Defined.

(** X16: a schema statement that fails.  When the call of CREATE
    CONSTRAINT fails, be it that the call itself fails or that the store
    rejects the constraint because two Movie nodes share an id, or when
    it is accepted and the call of CREATE INDEX fails, [load_movies]
    raises that error at once: no batch is sent and the graph is as it
    was. *)
Theorem failed_schema_statement_ends_the_load self path s df e :
  w_exists (world_of s) path = true →
  w_csv (world_of s) path = Ok df →
  (∃ c, reply_at s 0 = Fails e c)
  ∨ ((∃ t, reply_at s 0 = Returns t)
     ∧ st_movie_id_constraint (w_store (world_of s)) = false
     ∧ movie_ids_unique (graph_of s) = false
     ∧ e = constraint_error)
  ∨ ((∃ t, reply_at s 0 = Returns t)
     ∧ (st_movie_id_constraint (w_store (world_of s)) = true
        ∨ movie_ids_unique (graph_of s) = true)
     ∧ ∃ c, reply_at s 1 = Fails e c) →
  ∃ s', load_movies self path s = (Raise e, s')
        ∧ List.filter is_upsert (events_since s s') = []
        ∧ graph_of s' = graph_of s.
Proof.
  intros Hex Hcsv Hfail. unfold reply_at in Hfail. simpl in Hfail.
  unfold load_movies, create_constraint, create_index, statement.
  eff_unfold. cbn -[for_each py_range batch_size load_batch].
  rewrite Hex. cbn -[for_each py_range batch_size load_batch].
  rewrite Hcsv. cbn -[for_each py_range batch_size load_batch].
  unfold graph_of in Hfail.
  assert (Hev : ∀ s' evs, trace_of s' = trace_of s ++ evs →
            List.filter is_upsert evs = [] →
            List.filter is_upsert (events_since s s') = []).
  { intros s' evs Ht Hf. by rewrite (events_since_app s s' evs Ht). }
  destruct Hfail as [[c H0]|[([t H0] & Hflag & Hdup & ->)|([t H0] & Hok & [c H1])]];
    rewrite H0; cbn -[for_each py_range batch_size load_batch].
  - destruct (st_movie_id_constraint (w_store (world_of s)));
      [|destruct (movie_ids_unique (st_graph (w_store (world_of s))))];
      destruct c; cbn -[for_each py_range batch_size load_batch].
    all: eexists; split; [reflexivity|]; split;
      [eapply Hev; [unfold trace_of; simpl; rewrite <- ?app_assoc; reflexivity
                   | reflexivity]
      | done].
  - rewrite Hflag, Hdup. cbn -[for_each py_range batch_size load_batch].
    eexists; split; [reflexivity|]; split;
      [eapply Hev; [unfold trace_of; simpl; rewrite <- ?app_assoc; reflexivity
                   | reflexivity]
      | done].
  - destruct (st_movie_id_constraint (w_store (world_of s))) eqn:Hflag;
      [|destruct Hok as [|Hunique]; [done|]; rewrite Hunique].
    all: cbn -[for_each py_range batch_size load_batch]; rewrite H1;
      cbn -[for_each py_range batch_size load_batch].
    all: destruct c; cbn -[for_each py_range batch_size load_batch].
    all: eexists; split; [reflexivity|]; split;
      [eapply Hev; [unfold trace_of; simpl; rewrite <- ?app_assoc; reflexivity
                   | reflexivity]
      | done].
Qed.

Lemma failed_schema_statement_ends_the_load_witness :
  (∃ s', load_movies me dataset_path twice_stored = (Raise constraint_error, s')
         ∧ List.filter is_upsert (events_since twice_stored s') = []
         ∧ graph_of s' = graph_of twice_stored)
  ∧ (∃ s', load_movies me dataset_path
             (connected two_movies [Fails unavailable false])
           = (Raise unavailable, s')
           ∧ List.filter is_upsert
               (events_since (connected two_movies [Fails unavailable false]) s')
             = []
           ∧ graph_of s'
             = graph_of (connected two_movies [Fails unavailable false]))
  ∧ (∃ s', load_movies me dataset_path
             (connected two_movies [Returns []; Fails broken_pipe true])
           = (Raise broken_pipe, s')
           ∧ List.filter is_upsert
               (events_since
                  (connected two_movies [Returns []; Fails broken_pipe true]) s')
             = []
           ∧ graph_of s'
             = graph_of (connected two_movies [Returns []; Fails broken_pipe true])).
Proof.
  split; [|split].
  - apply (failed_schema_statement_ends_the_load me dataset_path
             twice_stored [movie1] constraint_error).
    + reflexivity.
    + reflexivity.
    + right. left. split; [by exists []|]. split; [reflexivity|].
      split; [by vm_compute | reflexivity].
  - apply (failed_schema_statement_ends_the_load me dataset_path
             (connected two_movies [Fails unavailable false]) two_movies
             unavailable).
    + reflexivity.
    + reflexivity.
    + left. by exists false.
  - apply (failed_schema_statement_ends_the_load me dataset_path
             (connected two_movies [Returns []; Fails broken_pipe true])
             two_movies broken_pipe).
    + reflexivity.
    + reflexivity.
    + right. right. split; [by exists []|]. split; [by right|]. by exists true.
Defined.

End Loading.

Section Init.
Import Py Neo4j Eff World MovieGraphLoader Observe Scenario.

(** X17: [MovieGraphLoader.__init__] logs the attempt, opens a driver
    and probes it.  When both calls answer, it logs the connection and
    the loader holds that driver; when one of them fails, it logs the
    failure and raises the same error, and the driver, if it was opened,
    is not closed.  The store is not written. *)
Theorem init_connects_or_raises uri username password w :
  let d := Driver (w_drivers w) uri username password in
  let run := init uri username password w in
  ∃ new,
    w_trace (snd run)
    = w_trace w ++ EvLog INFO (MsgAttemptingToConnect uri) :: new
    ∧ w_store (snd run) = w_store w
    ∧ match fst run with
      | Ok s =>
          new = [EvCall (OpenDriver d) None; EvCall (RunProbe d) None;
                 EvLog INFO MsgConnected]
          ∧ self_driver s = d ∧ total_processed s = 0%Z
          ∧ world_of s = snd run
      | Raise e =>
          new = [EvCall (OpenDriver d) (Some e);
                 EvLog ERROR (MsgFailedToConnect e)]
          ∨ new = [EvCall (OpenDriver d) None;
                   EvCall (RunProbe d) (Some e);
                   EvLog ERROR (MsgFailedToConnect e)]
      end.
Proof.
  intros d run. subst d run. unfold init, open_driver. eff_unfold. cbn.
  destruct (w_reply w (w_calls w)) as [t|e c]; cbn.
  - destruct (w_reply w (S (w_calls w))) as [t'|e c]; cbn.
    + eexists. split; [by rewrite <- !app_assoc|]. done.
    + eexists. split; [by rewrite <- !app_assoc|]. split; [done|]. by right.
  - eexists. split; [by rewrite <- !app_assoc|]. split; [done|]. by left.
Qed.

End Init.

Section QueryMethods.
Import Py Eff World MovieQueryInterface Console MovieQueryMethods Written
  Scenario.

Ltac con_unfold :=
  unfold on_world, write, Eff.try_except, Eff.zoom, World.request, World.sleep,
    World.log, Eff.modify, Eff.gets, Eff.raise, reply_from, texts, events,
    mbind, Eff.M_bind, mret, Eff.M_ret in *.

Lemma run_or_report_answers question prefix :
  answers question prefix
    (try_except
       (on_world (request (RunChain question)))
       (λ e,
          _ ← write (Logged ERROR (prefix ++ exn_str e));
          mret (py "Error: " ++ exn_str e))).
Proof.
  intros c. con_unfold. cbn.
  destruct (w_reply (con_world c) (w_calls (con_world c))) as [t|e b]; cbn.
  - by eexists.
  - eexists. split; [reflexivity|]. cbn. by rewrite map_app.
Qed.

(** X18: the three methods that put one question to the chain never
    raise.  Each makes one call; it returns the answer, or, when the call
    raises, it logs one ERROR line with the text of the error and returns
    that text after [Error: ]; nothing is retried. *)
Theorem single_question_methods_never_raise :
  (∀ question,
     answers question (py "Error executing query: ") (custom_query question))
  ∧ (∀ year, ∃ question,
       answers question (py "Error analyzing trends: ")
         (analyze_genre_trends year))
  ∧ (∀ float_str movie_title min_rating, ∃ question,
       answers question (py "Error getting recommendations: ")
         (get_personalized_recommendations float_str movie_title min_rating)).
Proof.
  split; [|split].
  - intros question. apply run_or_report_answers.
  - intros year. eexists. apply run_or_report_answers.
  - intros float_str movie_title min_rating. eexists.
    apply run_or_report_answers.
Qed.


(** X19: [_execute_with_retry] ends by returning what the call returned
    or by raising: it never falls off its loop.  What the first call
    returns is returned, and an error of the first call that is not
    ServiceUnavailable is raised as it is, with nothing logged and no
    wait. *)
Theorem execute_with_retry_returns_or_raises {A} self (func : M console A) c :
  fst (execute_with_retry self func c) ≠ Ok None
  ∧ (∀ a c', func c = (Ok a, c') →
       execute_with_retry self func c = (Ok (Some a), c'))
  ∧ (∀ e c', func c = (Raise e, c') → is_ServiceUnavailable e = false →
       execute_with_retry self func c = (Raise e, c')).
Proof.
  unfold execute_with_retry, MovieQueryMethods.max_retries. simpl seq.
  cbn [query_loop]. unfold query_attempt, MovieQueryMethods.max_retries.
  con_unfold. split; [|split].
  - repeat first
      [ done
      | match goal with
        | |- context [func ?x] =>
            destruct (func x) as [[?|?] ?]; cbn -[initialize_connections]
        | |- context [is_ServiceUnavailable ?e] =>
            destruct (is_ServiceUnavailable e); cbn -[initialize_connections]
        | |- context [initialize_connections self ?w] =>
            destruct (initialize_connections self w) as [[[]|?] ?];
            cbn -[initialize_connections]
        end ].
  - intros a c' ->. done.
  - intros e c' -> ->. done.
Qed.


(** X20: a query that keeps failing with ServiceUnavailable while the
    connections can be made again.  [_execute_with_retry] calls it three
    times; after the first and the second failure it logs a warning with
    the number of the attempt, sleeps 2 and runs
    [_initialize_connections]; the third failure is raised. *)
Theorem three_failed_queries_are_raised self call c e1 e2 e3 b1 b2 b3 :
  reply_from c 0 = Fails e1 b1 → is_ServiceUnavailable e1 = true →
  (∀ k, 1 ≤ k ≤ 4 → ∃ t, reply_from c k = Returns t) →
  reply_from c 5 = Fails e2 b2 → is_ServiceUnavailable e2 = true →
  (∀ k, 6 ≤ k ≤ 9 → ∃ t, reply_from c k = Returns t) →
  reply_from c 10 = Fails e3 b3 → is_ServiceUnavailable e3 = true →
  ∃ c',
    execute_with_retry self (on_world (request call)) c = (Raise e3, c')
    ∧ texts c'
      = texts c
        ++ [Logged WARNING (py "Query attempt 1 failed, retrying...");
            Logged WARNING (py "Query attempt 2 failed, retrying...")]
    ∧ events c'
      = events c
        ++ [EvCall call (Some e1); EvSleep 2;
            EvCall (OpenGraph (self_uri self) (self_username self)
                      (self_password self)) None;
            EvCall QueryProbe None;
            EvCall (MakeLLM (self_gemini_api_key self)) None;
            EvCall MakeChain None;
            EvCall call (Some e2); EvSleep 2;
            EvCall (OpenGraph (self_uri self) (self_username self)
                      (self_password self)) None;
            EvCall QueryProbe None;
            EvCall (MakeLLM (self_gemini_api_key self)) None;
            EvCall MakeChain None;
            EvCall call (Some e3)].
Proof.
  intros H0 Hu1 Ha H5 Hu2 Hb H10 Hu3.
  destruct (Ha 1) as [t1 H1]; [lia|]. destruct (Ha 2) as [t2 H2]; [lia|].
  destruct (Ha 3) as [t3 H3]; [lia|]. destruct (Ha 4) as [t4 H4]; [lia|].
  destruct (Hb 6) as [t6 H6]; [lia|]. destruct (Hb 7) as [t7 H7]; [lia|].
  destruct (Hb 8) as [t8 H8]; [lia|]. destruct (Hb 9) as [t9 H9]; [lia|].
  clear Ha Hb.
  unfold execute_with_retry, MovieQueryMethods.max_retries. simpl seq.
  cbn [query_loop]. unfold query_attempt, MovieQueryMethods.max_retries.
  unfold initialize_connections, connection_loop, connection_attempt,
    MovieQueryInterface.max_retries. simpl seq.
  con_unfold. simpl in H0, H1, H2, H3, H4, H5, H6, H7, H8, H9, H10.
  cbn. rewrite H0. cbn. rewrite Hu1. cbn. rewrite H1. cbn. rewrite H2. cbn.
  rewrite H3. cbn. rewrite H4. cbn. rewrite H5. cbn. rewrite Hu2. cbn.
  rewrite H6. cbn. rewrite H7. cbn. rewrite H8. cbn. rewrite H9. cbn.
  rewrite H10. cbn. rewrite Hu3. cbn.
  eexists. split; [reflexivity|]. cbn. split.
  - rewrite !map_app, <- !app_assoc. f_equal.
  - rewrite <- !app_assoc. reflexivity.
Qed.

Lemma three_failed_queries_are_raised_witness :
  ∃ c',
    execute_with_retry
      (Interface (py "neo4j+s://example") (py "neo4j") (py "secret") (py "key"))
      (on_world (request (RunChain (py "Which genres have the most movies?"))))
      (Console_
         (MovieGraphLoader.world_of
            (connected []
               [Fails unavailable false; Returns []; Returns []; Returns [];
                Returns []; Fails unavailable false; Returns []; Returns [];
                Returns []; Returns []; Fails unavailable false])) [])
    = (Raise unavailable, c').
Proof.
  destruct (three_failed_queries_are_raised
              (Interface (py "neo4j+s://example") (py "neo4j") (py "secret")
                 (py "key"))
              (RunChain (py "Which genres have the most movies?"))
              (Console_
                 (MovieGraphLoader.world_of
                    (connected []
                       [Fails unavailable false; Returns []; Returns [];
                        Returns []; Returns []; Fails unavailable false;
                        Returns []; Returns []; Returns []; Returns [];
                        Fails unavailable false])) [])
              unavailable unavailable unavailable false false false)
    as (c' & Hrun & _).
  - reflexivity.
  - reflexivity.
  - intros k Hk. exists [].
    destruct k as [|[|[|[|[|k]]]]]; first [reflexivity | lia].
  - reflexivity.
  - reflexivity.
  - intros k Hk. exists [].
    do 6 (destruct k as [|k]; [lia|]).
    destruct k as [|[|[|[|k]]]]; first [reflexivity | lia].
  - reflexivity.
  - reflexivity.
  - by exists c'.
Defined.

End QueryMethods.

Section CleanRun.
Import Py Pandas Neo4j Eff World MovieGraphLoader Observe Matching Scenario.

Lemma total_with_graph g s : total_processed (with_graph g s) = total_processed s.
Proof. reflexivity. Qed.

Lemma total_counted n rows s :
  total_processed (counted n rows s) = (total_processed s + Z.of_nat n)%Z.
Proof. reflexivity. Qed.

(** A turn of the loop on a batch that is accepted, with a store that
    answers. *)
Lemma load_batch_accepted self df i s movies :
  answering s →
  cleaned (iloc i (i + batch_size) df) = Ok movies →
  (∀ g, upsert movies g = Ok (foldl upsert_movie g movies)) →
  ∃ s', load_batch self df i s = (Ok tt, s')
        ∧ same_side s s'
        ∧ graph_of s' = foldl upsert_movie (graph_of s) movies
        ∧ total_processed s'
          = (total_processed s
             + Z.of_nat (length (iloc i (i + batch_size) df)))%Z.
Proof.
  intros Hs Hc Hup. set (batch := iloc i (i + batch_size) df) in *.
  rewrite load_batch_cases. cbv zeta.
  rewrite try_batch_cases, process_movie_batch_cases. cbv zeta.
  fold batch. rewrite Hc, Hup.
  destruct (answering_reply s 0 Hs) as [t ->].
  set (s1 := with_graph _ _).
  set (s2 := counted _ _ s1).
  assert (Hside : same_side s s2).
  { unfold s2, s1. repeat split.
    - by rewrite outside_counted, outside_with_graph, !outside_later.
    - by rewrite schema_counted, schema_with_graph, !schema_later. }
  assert (Hg : graph_of s2 = foldl upsert_movie (graph_of s) movies).
  { unfold s2. by rewrite graph_counted. }
  assert (Ht : total_processed s2
               = (total_processed s + Z.of_nat (length batch))%Z).
  { unfold s2. by rewrite total_counted. }
  destruct (_ =? 0)%Z.
  - rewrite ensure_connection_answering.
    2:{ apply (answering_outside s); [apply Hside | done]. }
    eexists. split; [reflexivity|]. destruct Hside as (Ho & Hsc & Hd).
    split; [split; [|split]|split].
    + by rewrite outside_later.
    + by rewrite schema_later.
    + by rewrite driver_later.
    + by rewrite graph_later.
    + by rewrite total_later.
  - by exists s2.
Qed.

Lemma accepted_upsert batch :
  accepted batch →
  ∃ movies, cleaned batch = Ok movies
            ∧ Forall keys_ok movies
            ∧ ∀ g, upsert movies g = Ok (foldl upsert_movie g movies).
Proof.
  intros (movies & g & Hc & Hg). exists movies. split; [done|].
  destruct (upsert_cases movies) as [[Hup Hvalid]|Hup].
  - split; [by apply (cleaned_keys batch) | done].
  - by rewrite Hup in Hg.
Qed.

Lemma settled_upsert_movies r rs g :
  settled r g → settled r (foldl upsert_movie g rs).
Proof.
  apply keeps_settled, keeps_foldl. intros. apply keeps_upsert_movie.
Qed.

(** The loop on batches that are all accepted. *)
Lemma load_batches_accepted self df ixs : ∀ s,
  answering s →
  Forall (λ i, accepted (iloc i (i + batch_size) df)) ixs →
  ∃ s' rs,
    for_each ixs (load_batch self df) s = (Ok tt, s')
    ∧ same_side s s'
    ∧ graph_of s' = foldl upsert_movie (graph_of s) rs
    ∧ total_processed s'
      = (total_processed s
         + Z.of_nat (length (concat (map (λ i, iloc i (i + batch_size) df)
                                        ixs))))%Z
    ∧ ∀ i movies r, i ∈ ixs →
        cleaned (iloc i (i + batch_size) df) = Ok movies → r ∈ movies →
        settled r (graph_of s').
Proof.
  induction ixs as [|i ixs IH]; intros s Hs Hacc.
  - exists s, []. split; [done|]. split; [done|]. split; [done|].
    split; [simpl; lia|]. intros i movies r Hi. by apply elem_of_nil in Hi.
  - inversion Hacc as [|? ? Hi Hrest]; subst.
    destruct (accepted_upsert _ Hi) as (movies & Hc & Hkeys & Hup).
    destruct (load_batch_accepted self df i s movies Hs Hc Hup)
      as (s1 & Hrun1 & Hside1 & Hg1 & Ht1).
    destruct (IH s1) as (s2 & rs & Hrun2 & Hside2 & Hg2 & Ht2 & Hset2);
      [by apply (answering_outside s); [apply Hside1|] | done |].
    exists s2, (movies ++ rs). split; [|split; [|split; [|split]]].
    + by rewrite (for_each_cons_ok _ _ _ _ _ Hrun1).
    + by apply (same_side_trans _ s1).
    + by rewrite foldl_app, <- Hg1.
    + rewrite Ht2, Ht1. cbn [map concat]. rewrite length_app. lia.
    + intros j movies' r Hj Hc' Hr.
      apply elem_of_cons in Hj as [->|Hj]; [|by apply (Hset2 j movies')].
      assert (movies' = movies) as -> by congruence.
      rewrite Hg2. apply settled_upsert_movies. rewrite Hg1.
      pose proof (upsert_settles movies (graph_of s) Hkeys) as Hall.
      rewrite Forall_forall in Hall. by apply Hall.
Qed.

(** X21: a run where nothing fails.  With a store that answers every
    call, a table that is found and read, and batches that are all
    accepted, [load_movies] returns, every row has been counted, and
    every cleaned record of every batch is in the graph with its genres
    linked. *)
Theorem clean_run_loads_every_row self path s df :
  answering s →
  w_exists (world_of s) path = true →
  w_csv (world_of s) path = Ok df →
  no_duplicates (graph_of s) →
  Forall (λ i, accepted (iloc i (i + batch_size) df))
    (py_range (length df) batch_size) →
  ∃ s',
    load_movies self path s = (Ok tt, s')
    ∧ total_processed s' = Z.of_nat (length df)
    ∧ ∀ i movies r, i ∈ py_range (length df) batch_size →
        cleaned (iloc i (i + batch_size) df) = Ok movies → r ∈ movies →
        settled r (graph_of s').
Proof.
  intros Hs Hex Hcsv Hnd Hacc.
  destruct (answering_reply s 0 Hs) as [t0 H0].
  destruct (answering_reply s 1 Hs) as [t1 H1].
  destruct (load_movies_started self path s df t0 t1 Hex Hcsv H0 H1)
    as (s0 & -> & _ & Hg0 & Ht0 & _ & Ho0 & _).
  { right. by apply no_duplicates_unique. }
  destruct (load_batches_accepted self df
              (py_range (length df) batch_size) s0) as
    (s1 & rs & Hrun & _ & _ & Ht & Hset); [|done|].
  { by apply (answering_outside s). }
  rewrite (bind_ok _ _ _ _ _ Hrun), log_step.
  eexists. split; [reflexivity|]. split.
  - rewrite total_later, Ht, Ht0.
    rewrite (slices_partition batch_size df batch_size_pos). lia.
  - intros i movies r Hi Hc Hr. rewrite graph_later. by apply (Hset i movies).
Qed.

Lemma clean_run_loads_every_row_witness :
  ∃ s',
    load_movies me dataset_path (connected two_movies []) = (Ok tt, s')
    ∧ total_processed s' = Z.of_nat (length two_movies).
Proof.
  destruct (clean_run_loads_every_row me dataset_path
              (connected two_movies []) two_movies)
    as (s' & Hrun & Htotal & _).
  - intros k. exists []. apply replies_nil.
  - reflexivity.
  - reflexivity.
  - apply no_duplicates_empty.
  - assert (py_range (length two_movies) batch_size = [0]) as ->
      by (by vm_compute).
    constructor; [|done].
    exists [heat_clean; ronin_clean],
      (foldl upsert_movie empty_graph [heat_clean; ronin_clean]).
    split; by vm_compute.
  - exists s'. split; [exact Hrun | exact Htotal].
Defined.

End CleanRun.

Section Resend.
Import Py Pandas Neo4j Eff World MovieGraphLoader Observe Matching Scenario.

Lemma clean_record_warnings record w :
  ∃ evs, w_trace (snd (clean_record record w)) = w_trace w ++ evs
         ∧ forallb is_warning evs = true.
Proof.
  unfold clean_record. eff_unfold. cbn.
  destruct (clean_items record []) as [cr|e]; cbn;
    [|exists []; split; [by rewrite app_nil_r | done]].
  destruct (dict_get (py "genres") cr) as [v|]; cbn;
    [|exists []; split; [by rewrite app_nil_r | done]].
  destruct (genres_of v) as [l|e]; cbn.
  - exists []. split; [by rewrite app_nil_r | done].
  - eexists [_]. split; [reflexivity|]. done.
Qed.

Lemma clean_batch_warnings batch : ∀ w,
  ∃ evs, w_trace (snd (clean_batch batch w)) = w_trace w ++ evs
         ∧ forallb is_warning evs = true.
Proof.
  induction batch as [|record rest IH]; intros w.
  - exists []. split; [by rewrite app_nil_r | done].
  - cbn [clean_batch]. unfold mbind, M_bind.
    destruct (clean_record_warnings record w) as (evs1 & Htr1 & Hq1).
    destruct (clean_record record w) as [[r|e] w1]; cbn [snd] in *.
    + destruct (IH w1) as (evs2 & Htr2 & Hq2).
      destruct (clean_batch rest w1) as [[rs|e] w2]; cbn [snd mret M_ret] in *;
        exists (evs1 ++ evs2); rewrite Htr2, Htr1, <- app_assoc;
        (split; [done | by rewrite forallb_app, Hq1, Hq2]).
    + by exists evs1.
Qed.

(** What cleaning logs is warnings about genres, nothing else. *)
Lemma warnings_are_warnings batch : forallb is_warning (warnings batch) = true.
Proof.
  destruct (clean_batch_warnings batch blank) as (evs & Htr & Hq).
  unfold warnings. by rewrite Htr.
Qed.

Lemma warnings_not_upserts batch : List.filter is_upsert (warnings batch) = [].
Proof.
  pose proof (warnings_are_warnings batch) as H.
  induction (warnings batch) as [|ev evs IH]; [done|].
  simpl in H. apply andb_true_iff in H as [Hev Hevs]. simpl.
  rewrite (IH Hevs). by destruct ev as [[] []| |].
Qed.

Lemma reply_at_counted n rows s k : reply_at (counted n rows s) k = reply_at s k.
Proof. unfold counted. rewrite reply_at_later. unfold reply_at. simpl. f_equal. lia. Qed.

Lemma driver_counted n rows s : self_driver (counted n rows s) = self_driver s.
Proof. reflexivity. Qed.

Lemma driver_with_graph g s : self_driver (with_graph g s) = self_driver s.
Proof. reflexivity. Qed.


(** X22: a connection check of the checkpoint that raises.  The check
    runs inside the [try], so when its reconnection fails after the batch
    has been applied and counted, the [except] block takes it for a
    failure of the batch: it checks the connection again and sends the
    same batch a second time.  The graph is what one run of the statement
    gives, and the batch is counted once. *)
Theorem failed_checkpoint_check_resends_the_batch
    self df i s movies g t0 e1 b1 e2 b2 t3 t4 :
  cleaned (iloc i (i + batch_size) df) = Ok movies →
  upsert movies (graph_of s) = Ok g →
  ((total_processed s + Z.of_nat (length (iloc i (i + batch_size) df)))
     `mod` 50000 = 0)%Z →
  reply_at s 0 = Returns t0 →
  reply_at s 1 = Fails e1 b1 →
  reply_at s 2 = Fails e2 b2 →
  reply_at s 3 = Returns t3 →
  reply_at s 4 = Returns t4 →
  ∃ s', load_batch self df i s = (Ok tt, s')
        ∧ List.filter is_upsert (events_since s s')
          = [EvCall (RunUpsert (self_driver s) movies) None;
             EvCall (RunUpsert (self_driver s) movies) None]
        ∧ graph_of s' = g
        ∧ total_processed s'
          = (total_processed s
             + Z.of_nat (length (iloc i (i + batch_size) df)))%Z.
Proof.
  intros Hc Hg Hmod H0 H1 H2 H3 H4.
  set (batch := iloc i (i + batch_size) df) in *.
  destruct (upsert_cases movies) as [[Hup Hvalid]|Hup];
    [|by rewrite Hup in Hg].
  assert (g = foldl upsert_movie (graph_of s) movies) as Hgdef.
  { rewrite Hup in Hg. congruence. }
  assert (Hidem : foldl upsert_movie g movies = g).
  { rewrite Hgdef. apply upsert_movies_twice. by apply (cleaned_keys batch). }
  rewrite load_batch_cases. cbv zeta. fold batch.
  rewrite try_batch_cases, process_movie_batch_cases. cbv zeta.
  rewrite Hc, Hup, H0, <- Hgdef.
  set (s1 := with_graph g _).
  set (s2 := counted _ _ s1).
  assert (Hs1 : ∀ k, reply_at s1 k = reply_at s (k + 1)).
  { intros k. unfold s1.
    rewrite reply_at_with_graph, !reply_at_later. f_equal. lia. }
  assert (Ht2 : total_processed s2
                = (total_processed s + Z.of_nat (length batch))%Z).
  { reflexivity. }
  rewrite Ht2, Hmod. cbn [Z.eqb].
  rewrite ensure_connection_cases. cbv zeta.
  assert (H21 : reply_at s2 0 = Fails e1 b1).
  { unfold s2. by rewrite reply_at_counted, Hs1. }
  assert (H22 : reply_at s2 1 = Fails e2 b2).
  { unfold s2. by rewrite reply_at_counted, Hs1. }
  rewrite H21, H22.
  set (s3 := later _ 2 s2).
  rewrite except_batch_cases.
  set (s4 := later _ 0 s3).
  assert (Hs4 : ∀ k, reply_at s4 k = reply_at s (k + 3)).
  { intros k. unfold s4, s3, s2.
    rewrite !reply_at_later, reply_at_counted, Hs1. f_equal. lia. }
  assert (H40 : reply_at s4 0 = Returns t3) by (rewrite Hs4; exact H3).
  rewrite ensure_connection_cases. cbv zeta. rewrite H40.
  set (s5 := later _ 1 s4).
  assert (Hg5 : graph_of s5 = g).
  { unfold s5, s4, s3, s2, s1.
    by rewrite !graph_later, graph_counted, graph_with_graph. }
  rewrite process_movie_batch_cases. cbv zeta. rewrite Hc, Hup, Hg5, Hidem.
  assert (H5 : reply_at s5 0 = Returns t4).
  { unfold s5. by rewrite reply_at_later, Hs4. }
  rewrite H5.
  eexists. split; [reflexivity|]. split; [|split].
  - erewrite events_since_app.
    2:{ rewrite trace_with_graph, !trace_later. unfold s5.
        rewrite trace_later. unfold s4. rewrite trace_later. unfold s3.
        rewrite trace_later. unfold s2. rewrite trace_counted. unfold s1.
        rewrite trace_with_graph, !trace_later.
        rewrite <- !app_assoc. reflexivity. }
    rewrite !List.filter_app, !warnings_not_upserts. reflexivity.
  - apply graph_with_graph.
  - reflexivity.
Qed.

Lemma failed_checkpoint_check_resends_the_batch_witness :
  ∃ s',
    load_batch me two_movies 0
      (State driver0 49998
         (world_of
            (connected two_movies
               [Returns []; Fails unavailable false; Fails broken_pipe false;
                Returns []; Returns []])))
    = (Ok tt, s')
    ∧ total_processed s' = 50000%Z.
Proof.
  destruct (failed_checkpoint_check_resends_the_batch me two_movies 0
              (State driver0 49998
                 (world_of
                    (connected two_movies
                       [Returns []; Fails unavailable false;
                        Fails broken_pipe false; Returns []; Returns []])))
              [heat_clean; ronin_clean]
              (foldl upsert_movie empty_graph [heat_clean; ronin_clean])
              [] unavailable false broken_pipe false [] [])
    as (s' & Hrun & _ & _ & Htotal).
  - by vm_compute.
  - by vm_compute.
  - by vm_compute.
  - reflexivity.
  - reflexivity.
  - reflexivity.
  - reflexivity.
  - reflexivity.
  - exists s'. split; [exact Hrun|]. rewrite Htotal. by vm_compute.
Defined.

End Resend.

Section Closing.
Import Py Pandas Neo4j Eff World MovieGraphLoader Observe Matching Scenario.

Lemma close_cases s :
  close s
  = match reply_at s 0 with
    | Returns _ =>
        (Ok tt, later [EvCall (CloseDriver (self_driver s)) None] 1 s)
    | Fails e _ =>
        (Raise e, later [EvCall (CloseDriver (self_driver s)) (Some e)] 1 s)
    end.
Proof.
  unfold close, reply_at. eff_unfold. cbn.
  by destruct (w_reply (world_of s) (w_calls (world_of s))).
Qed.

(** X23: [close] after a connection check that returned.  When the
    probe answered, the loader still holds its driver and [close] closes
    it; when the check reconnected, the loader holds the new driver, made
    from the stored credentials, the old one was closed by the check, and
    [close] closes the new one.  Each driver is closed once. *)
Theorem close_after_the_check_closes_each_driver_once self s s1 :
  ensure_connection self s = (Ok tt, s1) →
  ∃ o,
    match reply_at s 0 with
    | Returns _ =>
        self_driver s1 = self_driver s
        ∧ List.filter is_close_driver (events_since s (snd (close s1)))
          = [EvCall (CloseDriver (self_driver s)) o]
    | Fails _ _ =>
        self_driver s1
        = Driver (w_drivers (world_of s)) (self_uri self)
            (self_username self) (self_password self)
        ∧ List.filter is_close_driver (events_since s (snd (close s1)))
          = [EvCall (CloseDriver (self_driver s)) None;
             EvCall (CloseDriver (self_driver s1)) o]
    end.
Proof.
  rewrite ensure_connection_cases. cbv zeta.
  destruct (reply_at s 0) as [t|e0 c0].
  - intros [= <-]. rewrite close_cases.
    destruct (reply_at _ 0) as [t'|e c]; eexists; (split; [reflexivity|]);
      simpl snd;
      (erewrite events_since_app; [|by rewrite !trace_later, <- app_assoc]);
      reflexivity.
  - destruct (reply_at s 1) as [t1|e1 c1]; [|done].
    destruct (reply_at s 2) as [t2|e2 c2]; [|done].
    intros [= <-]. rewrite close_cases.
    destruct (reply_at _ 0) as [t'|e c]; eexists; (split; [reflexivity|]);
      simpl snd;
      (erewrite events_since_app;
       [|rewrite trace_later;
         change (trace_of (adopt ?d ?s0)) with (trace_of s0);
         rewrite trace_later, <- app_assoc; reflexivity]);
      reflexivity.
Qed.

Lemma close_after_the_check_closes_each_driver_once_witness :
  ∃ o,
    List.filter is_close_driver
      (events_since (connected [] [Fails unavailable false])
         (snd (close
                 (snd (ensure_connection me
                         (connected [] [Fails unavailable false]))))))
    = [EvCall (CloseDriver driver0) None;
       EvCall (CloseDriver
                 (self_driver
                    (snd (ensure_connection me
                            (connected [] [Fails unavailable false])))))
         o].
Proof.
  destruct (close_after_the_check_closes_each_driver_once me
              (connected [] [Fails unavailable false])
              (snd (ensure_connection me
                      (connected [] [Fails unavailable false]))))
    as [o Ho].
  - reflexivity.
  - exists o. exact (proj2 Ho).
Defined.

End Closing.

Section NumericDefaults.
Import Py Pandas Neo4j Eff World MovieGraphLoader Observe Matching Scenario.

(** C6: a record whose vote_average, vote_count or popularity cell is
    absent (no such column, None or NaN) has None there once cleaned, and
    the statement stores the default under that property, 0.0, 0 and 0.0
    respectively: every Movie node with the id of the record holds it
    when the row of the record has run, and still holds it when
    [_process_movie_batch] returns unless a later record of the batch has
    the same id. *)
Theorem absent_numbers_are_stored_as_defaults batch movies i record r s s'
    k d :
  process_movie_batch batch s = (Ok tt, s') →
  cleaned batch = Ok movies →
  batch !! i = Some record →
  movies !! i = Some r →
  (k, d) ∈ [(py "vote_average", PFloat (FFin 0)); (py "vote_count", PInt 0);
            (py "popularity", PFloat (FFin 0))] →
  absent k record →
  field k r = PNone
  ∧ graph_of s'
    = foldl upsert_movie
        (foldl upsert_movie (graph_of s) (take (S i) movies))
        (drop (S i) movies)
  ∧ stored (movie_id r) k (Some d)
      (foldl upsert_movie (graph_of s) (take (S i) movies))
  ∧ (Forall (λ r', cy_key (movie_id r') ≠ cy_key (movie_id r))
       (drop (S i) movies) →
     stored (movie_id r) k (Some d) (graph_of s')).
Proof.
  intros Hrun Hc Hi Hr Hk Habs.
  assert (Hf : field k r = PNone).
  { apply (cleaned_absent batch movies i record r k Hc Hi Hr); [|done].
    rewrite !elem_of_cons, elem_of_nil in Hk.
    destruct Hk as [[= -> _]|[[= -> _]|[[= -> _]|[]]]]; by vm_compute. }
  assert (Hw : written r k = Some (Some d)).
  { rewrite !elem_of_cons, elem_of_nil in Hk.
    destruct Hk as [[= -> ->]|[[= -> ->]|[[= -> ->]|[]]]].
    - by rewrite written_vote_average, Hf.
    - by rewrite written_vote_count, Hf.
    - by rewrite written_popularity, Hf. }
  destruct (stored_after batch movies i r s s' k (Some d) Hrun Hc Hr Hw)
    as [Hhere Hlast].
  split; [done|]. split; [|done].
  destruct (process_movie_batch_ok batch movies s s' Hrun Hc) as [-> _].
  by rewrite <- foldl_app, take_drop.
Qed.

Lemma absent_numbers_are_stored_as_defaults_witness :
  field (py "vote_count") heat_clean = PNone
  ∧ stored (PInt 949) (py "vote_count") (Some (PInt 0))
      (graph_of (snd (process_movie_batch two_movies (connected two_movies [])))).
Proof.
  destruct (absent_numbers_are_stored_as_defaults two_movies
              [heat_clean; ronin_clean] 0 heat heat_clean
              (connected two_movies [])
              (snd (process_movie_batch two_movies (connected two_movies [])))
              (py "vote_count") (PInt 0))
    as (Hf & _ & _ & Hst).
  - by vm_compute.
  - by vm_compute.
  - reflexivity.
  - reflexivity.
  - right. by left.
  - intros v Hin. unfold heat in Hin.
    rewrite !elem_of_cons, elem_of_nil in Hin.
    repeat destruct Hin as [Hin|Hin]; try done.
    all: injection Hin; intros; subst; try reflexivity.
    all: match goal with H : py _ = py _ |- _ => by vm_compute in H end.
  - split; [exact Hf|]. apply Hst. repeat constructor. by vm_compute.
Defined.
End NumericDefaults.

Section GenreEncodings.
Import Py Pandas Neo4j Eff World MovieGraphLoader Observe Matching Scenario
  Encodings.


End GenreEncodings.

Section Retry.
Import Py Pandas Neo4j Eff World MovieGraphLoader Observe Matching Scenario.

(** The graph after one call of [_process_movie_batch]: as it was, or
    with the statement run once on the cleaned batch. *)
Lemma process_movie_batch_graph batch s :
  graph_of (snd (process_movie_batch batch s)) = graph_of s
  ∨ ∃ movies, cleaned batch = Ok movies ∧ Forall keys_ok movies
              ∧ graph_of (snd (process_movie_batch batch s))
                = foldl upsert_movie (graph_of s) movies.
Proof.
  rewrite process_movie_batch_cases. cbv zeta.
  destruct (cleaned batch) as [movies|e] eqn:Hc; cbn [snd];
    [|left; by rewrite graph_later].
  destruct (upsert_cases movies) as [[Hup Hvalid]|Hup]; rewrite Hup.
  - pose proof (cleaned_keys batch movies Hc Hvalid) as Hkeys.
    destruct (reply_at s 0) as [t|e [|]]; cbn [snd].
    + right. exists movies. by rewrite graph_with_graph.
    + right. exists movies. by rewrite graph_with_graph.
    + left. by rewrite !graph_later.
  - left. destruct (reply_at s 0); cbn [snd]; by rewrite !graph_later.
Qed.

Lemma process_movie_batch_upserts batch s :
  ∃ evs, trace_of (snd (process_movie_batch batch s)) = trace_of s ++ evs
         ∧ length (List.filter is_upsert evs) ≤ 1.
Proof.
  assert (H : ∃ evs, trace_of (snd (process_movie_batch batch s))
                     = trace_of s ++ warnings batch ++ evs ∧ length evs ≤ 1).
  { rewrite process_movie_batch_cases. cbv zeta.
    destruct (cleaned batch) as [movies|e]; cbn [snd].
    - destruct (upsert movies (graph_of s)) as [g|e];
        destruct (reply_at s 0) as [t|e' [|]]; cbn [snd];
        rewrite ?trace_with_graph, !trace_later, <- ?app_assoc;
        eexists; (split; [reflexivity|simpl; lia]).
    - exists []. rewrite trace_later, app_nil_r. split; [done|simpl; lia]. }
  destruct H as (evs & Htr & Hlen). exists (warnings batch ++ evs).
  split; [done|]. rewrite List.filter_app, warnings_not_upserts.
  simpl. pose proof (List.filter_length_le is_upsert evs). lia.
Qed.

(** C2, as amended.  A first attempt on a batch that raises, whatever
    the error: the error is logged and the connection is checked.  When
    the probe answers, nothing is closed and nothing is opened.  When the
    check raises, the batch is not tried again and the error ends the
    loop: no later batch is sent.  When the check returns, the batch is
    sent once more and the turn ends without an error, the count of
    processed rows unmoved; if this second attempt returns, the graph is
    what one run of the statement on the batch gives, whether or not the
    first attempt had been committed; if it raises, its error is logged
    and the loop goes on with the next batch. *)
Theorem failed_batch_is_checked_and_retried_once self df i s e s1 rest :
  process_movie_batch (iloc i (i + batch_size) df) s = (Raise e, s1) →
  (∀ t, reply_at s1 0 = Returns t →
     ensure_connection self
       (later [EvLog ERROR (MsgErrorProcessingBatch i (i + batch_size) e)]
          0 s1)
     = (Ok tt,
        later [EvCall (RunProbe (self_driver s)) None] 1
          (later [EvLog ERROR (MsgErrorProcessingBatch i (i + batch_size) e)]
             0 s1)))
  ∧ (∀ e' s2,
       ensure_connection self
         (later [EvLog ERROR (MsgErrorProcessingBatch i (i + batch_size) e)]
            0 s1)
       = (Raise e', s2) →
       load_batch self df i s = (Raise e', s2)
       ∧ for_each (i :: rest) (load_batch self df) s = (Raise e', s2)
       ∧ (∃ o evs,
            events_since s1 s2
            = EvLog ERROR (MsgErrorProcessingBatch i (i + batch_size) e)
              :: EvCall (RunProbe (self_driver s)) o :: evs
            ∧ List.filter is_upsert evs = [])
       ∧ graph_of s2 = graph_of s1)
  ∧ (∀ s2,
       ensure_connection self
         (later [EvLog ERROR (MsgErrorProcessingBatch i (i + batch_size) e)]
            0 s1)
       = (Ok tt, s2) →
       ∃ s', load_batch self df i s = (Ok tt, s')
             ∧ for_each (i :: rest) (load_batch self df) s
               = for_each rest (load_batch self df) s'
             ∧ total_processed s' = total_processed s
             ∧ (∃ o evs,
                  events_since s1 s2
                  = EvLog ERROR (MsgErrorProcessingBatch i (i + batch_size) e)
                    :: EvCall (RunProbe (self_driver s)) o :: evs
                  ∧ List.filter is_upsert evs = [])
             ∧ length (List.filter is_upsert (events_since s2 s')) ≤ 1
             ∧ (graph_of s' = graph_of s
                ∨ ∃ movies, cleaned (iloc i (i + batch_size) df) = Ok movies
                            ∧ graph_of s'
                              = foldl upsert_movie (graph_of s) movies)
             ∧ (∀ s3,
                  process_movie_batch (iloc i (i + batch_size) df) s2
                  = (Ok tt, s3) →
                  s' = s3
                  ∧ ∃ movies, cleaned (iloc i (i + batch_size) df) = Ok movies
                              ∧ graph_of s'
                                = foldl upsert_movie (graph_of s) movies)
             ∧ (∀ e2 s3,
                  process_movie_batch (iloc i (i + batch_size) df) s2
                  = (Raise e2, s3) →
                  s' = later [EvLog ERROR (MsgRetryFailed e2)] 0 s3)).
Proof.
  intros Hfirst.
  set (batch := iloc i (i + batch_size) df) in *.
  set (logged := later [EvLog ERROR
                          (MsgErrorProcessingBatch i (i + batch_size) e)] 0 s1).
  destruct (process_movie_batch_frame batch s) as (Ht1 & Hd1 & _ & _).
  pose proof (process_movie_batch_graph batch s) as Hg1.
  rewrite Hfirst in Ht1, Hd1, Hg1. cbn [snd] in Ht1, Hd1, Hg1.
  assert (Hturn : load_batch self df i s
            = match ensure_connection self logged with
              | (Raise e', s2) => (Raise e', s2)
              | (Ok _, s2) =>
                  match process_movie_batch batch s2 with
                  | (Ok _, s3) => (Ok tt, s3)
                  | (Raise e2, s3) =>
                      (Ok tt, later [EvLog ERROR (MsgRetryFailed e2)] 0 s3)
                  end
              end).
  { rewrite load_batch_cases. cbv zeta. fold batch.
    by rewrite try_batch_cases, Hfirst, except_batch_cases. }
  destruct (ensure_connection_frame self logged)
    as (Ht2 & Hg2 & _ & o & evs & Htr2 & _ & Hup2).
  assert (Hcheck : ∃ o evs,
            events_since s1 (snd (ensure_connection self logged))
            = EvLog ERROR (MsgErrorProcessingBatch i (i + batch_size) e)
              :: EvCall (RunProbe (self_driver s)) o :: evs
            ∧ List.filter is_upsert evs = []).
  { exists o, evs. split; [|exact Hup2]. apply events_since_app.
    rewrite Htr2. unfold logged. rewrite trace_later, <- app_assoc.
    change (self_driver (later _ 0 s1)) with (self_driver s1).
    by rewrite Hd1. }
  assert (Hlogged : graph_of logged = graph_of s1
                    ∧ total_processed logged = total_processed s1).
  { unfold logged. by rewrite graph_later, total_later. }
  destruct Hlogged as [Hgl Htl].
  split; [|split].
  - intros t Ht. rewrite ensure_connection_cases. cbv zeta.
    assert (reply_at logged 0 = Returns t) as ->.
    { unfold logged. by rewrite reply_at_later. }
    change (self_driver logged) with (self_driver s1). by rewrite Hd1.
  - intros e' s2 Hens. rewrite Hens in Hturn, Hcheck, Hg2. cbn [snd] in *.
    split; [done|]. split.
    { cbn [for_each]. unfold mbind, M_bind. by rewrite Hturn. }
    split; [done|]. by rewrite Hg2.
  - intros s2 Hens. rewrite Hens in Hturn, Hcheck, Hg2, Ht2. cbn [snd] in *.
    assert (Hgs2 : graph_of s2 = graph_of s1) by (by rewrite Hg2).
    destruct (process_movie_batch_frame batch s2) as (Ht3 & _ & _ & _).
    pose proof (process_movie_batch_graph batch s2) as Hg3.
    destruct (process_movie_batch_upserts batch s2) as (evs3 & Htr3 & Hup3).
    assert (Hdone : ∀ movies, cleaned batch = Ok movies →
              Forall keys_ok movies →
              graph_of s1 = graph_of s
              ∨ graph_of s1 = foldl upsert_movie (graph_of s) movies →
              foldl upsert_movie (graph_of s1) movies
              = foldl upsert_movie (graph_of s) movies).
    { intros movies Hc Hkeys [->| ->]; [done|]. by apply upsert_movies_twice. }
    assert (Hfrom : ∀ movies, cleaned batch = Ok movies →
              graph_of s1 = graph_of s
              ∨ graph_of s1 = foldl upsert_movie (graph_of s) movies).
    { intros movies Hc. destruct Hg1 as [->|(movies' & Hc' & _ & ->)];
        [by left|]. right. congruence. }
    destruct (process_movie_batch batch s2) as [[[]|e2] s3] eqn:Hretry;
      cbn [snd] in *.
    + destruct (cleaned batch) as [movies|e0] eqn:Hc.
      2:{ exfalso. revert Hretry. rewrite process_movie_batch_cases.
          cbv zeta. by rewrite Hc. }
      destruct (process_movie_batch_ok batch movies s2 s3 Hretry Hc)
        as [Hg Hkeys].
      assert (Hfinal : graph_of s3 = foldl upsert_movie (graph_of s) movies).
      { rewrite Hg, Hgs2. by apply Hdone; [| |apply Hfrom]. }
      exists s3. split; [done|]. split.
      { cbn [for_each]. unfold mbind, M_bind. by rewrite Hturn. }
      split; [by rewrite Ht3, Ht2, Htl|].
      split; [done|]. split.
      { by rewrite (events_since_app _ _ _ Htr3). }
      split; [right; by exists movies|]. split.
      * intros s3' [= <-]. split; [done|]. by exists movies.
      * done.
    + eexists. split; [done|]. split.
      { cbn [for_each]. unfold mbind, M_bind. by rewrite Hturn. }
      split; [by rewrite total_later, Ht3, Ht2, Htl|].
      split; [done|]. split.
      { erewrite (events_since_app s2 (later _ 0 s3));
          [|rewrite trace_later, Htr3, <- app_assoc; reflexivity].
        rewrite List.filter_app, length_app. simpl. lia. }
      split.
      { rewrite graph_later.
        destruct Hg3 as [->|(movies & Hc & Hkeys & ->)]; rewrite Hgs2.
        - destruct Hg1 as [->|(movies & Hc & _ & ->)]; [by left|].
          right. by exists movies.
        - right. exists movies. split; [done|].
          by apply Hdone; [| |apply Hfrom]. }
      split; [done|]. by intros e2' s3' [= <- <-].
Qed.

Lemma failed_batch_is_checked_and_retried_once_witness :
  ∃ s', load_batch me two_movies 0
          (connected two_movies [Fails unavailable true]) = (Ok tt, s')
        ∧ total_processed s' = 0%Z
        ∧ graph_of s' = foldl upsert_movie empty_graph [heat_clean; ronin_clean].
Proof.
  set (s := connected two_movies [Fails unavailable true]).
  set (s1 := snd (process_movie_batch (iloc 0 (0 + batch_size) two_movies) s)).
  assert (Hfirst : process_movie_batch (iloc 0 (0 + batch_size) two_movies) s
                   = (Raise unavailable, s1)) by (by vm_compute).
  destruct (failed_batch_is_checked_and_retried_once me two_movies 0 s
              unavailable s1 [] Hfirst) as (Hprobe & _ & Hretry).
  assert (Hr : reply_at s1 0 = Returns []) by (by vm_compute).
  destruct (Hretry _ (Hprobe [] Hr))
    as (s' & Hrun & _ & Htotal & _ & _ & _ & Hok & _).
  exists s'. split; [exact Hrun|]. split; [exact Htotal|].
  assert (Hc : cleaned (iloc 0 (0 + batch_size) two_movies)
               = Ok [heat_clean; ronin_clean]) by (by vm_compute).
  edestruct Hok as (_ & movies & Hc' & Hg).
  - rewrite process_movie_batch_cases. cbv zeta. rewrite Hc.
    rewrite !reply_at_later, !graph_later.
    replace (reply_at s1 (0 + 1 + 0)) with (Returns []) by (by vm_compute).
    replace (upsert [heat_clean; ronin_clean] (graph_of s1))
      with (Ok (foldl upsert_movie (graph_of s1) [heat_clean; ronin_clean]))
      by (by vm_compute).
    reflexivity.
  - rewrite Hg. rewrite Hc in Hc'. by injection Hc' as <-.
Defined.

(** C2, as stated, fails when the reconnect fails: the upsert of the only
    batch fails, the probe fails, closing the driver fails, and that error
    leaves [load_movies]; the batch was sent once.  And a reconnect is not
    forced: when the probe answers, no driver is closed or opened. *)
Lemma failed_reconnect_ends_the_load :
  fst (load_movies me dataset_path
         (connected [movie1]
            [Returns []; Returns []; Fails unavailable false;
             Fails unavailable false; Fails broken_pipe false]))
  = Raise broken_pipe
  ∧ List.filter is_upsert
      (trace_of
         (snd (load_movies me dataset_path
                 (connected [movie1]
                    [Returns []; Returns []; Fails unavailable false;
                     Fails unavailable false; Fails broken_pipe false]))))
    = [EvCall (RunUpsert driver0 [movie1]) (Some unavailable)]
  ∧ fst (load_movies me dataset_path
           (connected [movie1]
              [Returns []; Returns []; Fails unavailable false]))
    = Ok tt
  ∧ List.filter (λ ev, is_close_driver ev || is_open_driver ev)
      (trace_of
         (snd (load_movies me dataset_path
                 (connected [movie1]
                    [Returns []; Returns []; Fails unavailable false]))))
    = [].
Proof.
  split; [by vm_compute|]. split; [by vm_compute|].
  split; by vm_compute.
Qed.
End Retry.
